(** * Header generation for a compiled Swift module, and the frontend's
      input-file record.

    A shallow embedding of [lib/PrintAsClang/PrintAsClang.cpp] and of
    [include/swift/Frontend/InputFile.h], with the properties that the
    design description states about them.

    Conventions of the embedding.
    - A [raw_ostream] is the text written to it so far; [out << s] appends.
    - [assert (c && "msg")] is modelled with assertions enabled: a failed
      assertion ends the run, which is the [AssertionFailure] outcome of the
      [result] monad.  A function that contains no assertion is a plain
      function.
    - Pointers are addresses ([ptr]); a pointee that the code reads through
      the pointer is carried next to its address. *)

From Stdlib Require Import ZArith Lia Ascii String.
From stdpp Require Import base option list strings gmap sorting lexico.

Local Open Scope Z_scope.

(** ** Support: assertions, streams, string references *)

Module Support.

Inductive result (A : Type) : Type :=
| Ok (a : A)
| AssertionFailure (msg : string).
Global Arguments Ok {A} a.
Global Arguments AssertionFailure {A} msg.

Global Instance result_ret : MRet result := λ A a, Ok a.
Global Instance result_bind : MBind result := λ A B f m,
  match m with
  | Ok a => f a
  | AssertionFailure msg => AssertionFailure msg
  end.
Global Instance result_fmap : FMap result := λ A B f m,
  match m with
  | Ok a => Ok (f a)
  | AssertionFailure msg => AssertionFailure msg
  end.

Definition assert (cond : bool) (msg : string) : result unit :=
  if cond then Ok () else AssertionFailure msg.

(** [llvm::raw_ostream]: append-only text. *)
Definition raw_ostream : Type := string.
Definition write (out : raw_ostream) (s : string) : raw_ostream := out +:+ s.

(** Characters that cannot be written inside a literal here. *)
Definition nl : string := String (Ascii.ascii_of_nat 10) "".
Definition dq : string := String (Ascii.ascii_of_nat 34) "".

(** The character does not occur in the text. *)
Fixpoint avoids (c : ascii) (s : string) : bool :=
  match s with
  | "" => true
  | String x s' => negb (Ascii.eqb x c) && avoids c s'
  end.

(** [StringRef::empty]. *)
Definition empty (s : string) : bool :=
  match s with "" => true | String _ _ => false end.

End Support.
Export Support.

Infix "<<" := write (at level 50, left associativity).

(** ** [swift::InputFile] *)

Module InputFile.

(** [llvm::MemoryBuffer *]: the address only; [None] is [nullptr]. *)
Definition MemoryBufferPtr : Type := option N.

Record InputFile : Type := mkInputFile {
  Filename : string;
  IsPrimary : bool;
  Buffer : MemoryBufferPtr;
  OutputFilename : string
}.

Definition convertBufferNameFromLLVM_getFileOrSTDIN_toSwiftConventions
    (filename : string) : string :=
  if String.eqb filename "<stdin>" then "-" else filename.

(** The constructor: the member initialisers, then the body's assertion. *)
Definition new (name : string) (isPrimary : bool)
    (buffer : MemoryBufferPtr) (outputFilename : string) : result InputFile :=
  let this :=
    {| Filename :=
         convertBufferNameFromLLVM_getFileOrSTDIN_toSwiftConventions name;
       IsPrimary := isPrimary;
       Buffer := buffer;
       OutputFilename := outputFilename |} in
  _ ← assert (negb (empty name)) "!name.empty()";
  mret this.

(** The constructor's default arguments: [buffer = nullptr],
    [outputFilename = StringRef()]. *)
Definition new_default (name : string) (isPrimary : bool) : result InputFile :=
  new name isPrimary None "".

Definition isPrimary (this : InputFile) : bool := IsPrimary this.
Definition buffer (this : InputFile) : MemoryBufferPtr := Buffer this.
Definition file (this : InputFile) : result string :=
  _ ← assert (negb (empty (Filename this))) "!Filename.empty()";
  mret (Filename this).
Definition outputFilename (this : InputFile) : string := OutputFilename this.

Definition setOutputFilename (this : InputFile) (outputFilename : string)
    : InputFile :=
  {| Filename := Filename this;
     IsPrimary := IsPrimary this;
     Buffer := Buffer this;
     OutputFilename := outputFilename |}.

End InputFile.

(** ** [lib/PrintAsClang/PrintAsClang.cpp] *)

Module PrintAsClang.

(** *** The data the generator reads *)

Definition ptr : Type := N.

(** [version::Version]: the components of a version number. *)
Definition Version : Type := list N.

(** An [Identifier] is an interned string: two identifiers are the same
    exactly when their text is. *)
Definition Identifier : Type := string.

(** [ASTContext]: the language options and the Clang module loader, as far
    as this file reads them.  [ImportedHeaderModule] is what
    [getClangModuleLoader()->getImportedHeaderModule()] returns, a
    [ModuleDecl *] that may be null. *)
Record ASTContext : Type := mkASTContext {
  EffectiveLanguageVersion : Version;
  ImportedHeaderModule : option ptr
}.

(** A [ModuleDecl] together with the address it lives at. *)
Record ModuleDecl : Type := mkModuleDecl {
  moduleAddr : ptr;
  getName : Identifier;
  getASTContext : ASTContext
}.

Definition getNameStr (M : ModuleDecl) : string := getName M.

(** A [clang::Module] with its address and its chain of parents:
    [Parent] is null for a top-level module. *)
Inductive ClangModule : Type :=
| TopLevelModule (addr : ptr) (Name : string)
| SubModule (addr : ptr) (Name : string) (Parent : ClangModule).

Definition clangAddr (c : ClangModule) : ptr :=
  match c with TopLevelModule a _ | SubModule a _ _ => a end.
Definition Name (c : ClangModule) : string :=
  match c with TopLevelModule _ n | SubModule _ n _ => n end.
Definition Parent (c : ClangModule) : option ClangModule :=
  match c with TopLevelModule _ _ => None | SubModule _ _ p => Some p end.

Definition isSubModule (c : ClangModule) : bool :=
  match Parent c with Some _ => true | None => false end.

Fixpoint getTopLevelModuleName (c : ClangModule) : string :=
  match c with
  | TopLevelModule _ n => n
  | SubModule _ _ p => getTopLevelModuleName p
  end.

(** [ImportModuleTy = PointerUnion<ModuleDecl *, const clang::Module *>]. *)
Inductive ImportModuleTy : Type :=
| ofModuleDecl (m : ModuleDecl)
| ofClangModule (c : ClangModule).

(** The sequence [ModuleDecl::ReverseFullNameIterator] walks for a Clang
    module: its own name first, the top-level module's name last. *)
Fixpoint ReverseFullNameIterator (c : ClangModule) : list string :=
  match c with
  | TopLevelModule _ n => [n]
  | SubModule _ n p => n :: ReverseFullNameIterator p
  end.

(** Modelled from the spec: [ReverseFullNameIterator::printForward] is
    defined outside the files at hand; the design calls what it prints the
    full dotted name, the components from the top-level module down to the
    module itself. *)
Fixpoint interleave_dot (out : raw_ostream) (elements : list string)
    : raw_ostream :=
  match elements with
  | [] => out
  | [x] => out << x
  | x :: rest => interleave_dot (out << x << ".") rest
  end.
Definition printForward (out : raw_ostream) (c : ClangModule) : raw_ostream :=
  interleave_dot out (reverse (ReverseFullNameIterator c)).

(** *** Comparisons *)

(** [StringRef::compare]: bytes as unsigned values, the common prefix first,
    then the lengths; one of -1, 0, 1. *)
Definition StringRef_compare (l r : string) : Z :=
  match String.compare l r with
  | Lt => -1
  | Eq => 0
  | Gt => 1
  end.

(** [operator<] on [StringRef]. *)
Definition StringRef_lt (l r : string) : bool :=
  StringRef_compare l r <? 0.

(** Modelled from the spec: [Identifier::compare] is defined outside the
    files at hand; native modules sort by name, so it is the comparison of
    the two texts. *)
Definition Identifier_compare (l r : Identifier) : Z := StringRef_compare l r.

(** [std::lexicographical_compare] over two ranges of [StringRef]. *)
Fixpoint lexicographical_compare (l r : list string) : bool :=
  match l, r with
  | _, [] => false
  | [], _ :: _ => true
  | x :: l', y :: r' =>
      if StringRef_lt x y then true
      else if StringRef_lt y x then false
      else lexicographical_compare l' r'
  end.

(** [operator!=] on two [SmallVector<StringRef>]. *)
Definition SmallVector_ne (l r : list string) : bool :=
  negb (bool_decide (l = r)).

Definition top_level_msg : string :=
  "top-level modules should use a normal swift::ModuleDecl".
Definition same_full_name_msg : string :=
  "distinct Clang modules should not have the same full name".

(** [compareImportModulesByName] from its third statement on: [left] is
    known to hold a Clang module. *)
Definition compareImportModulesByName_clang
    (leftClangModule : ClangModule) (right : ImportModuleTy) : result Z :=
  _ ← assert (isSubModule leftClangModule) top_level_msg;
  match right with
  | ofModuleDecl rightSwiftModule =>
      if StringRef_lt (getTopLevelModuleName leftClangModule)
                      (getName rightSwiftModule)
      then mret (-1)
      else mret 1
  | ofClangModule rightClangModule =>
      _ ← assert (isSubModule rightClangModule) top_level_msg;
      let leftReversePath := ReverseFullNameIterator leftClangModule in
      let rightReversePath := ReverseFullNameIterator rightClangModule in
      _ ← assert (SmallVector_ne leftReversePath rightReversePath)
                 same_full_name_msg;
      if lexicographical_compare (reverse leftReversePath)
                                 (reverse rightReversePath)
      then mret (-1)
      else mret 1
  end.

(** [compareImportModulesByName].  Its one recursive call swaps the
    arguments of a (native, Clang) pair, which lands in the part above, so
    the recursion is unfolded once. *)
Definition compareImportModulesByName (left right : ImportModuleTy)
    : result Z :=
  match left, right with
  | ofModuleDecl leftSwiftModule, ofClangModule rightClangModule =>
      Z.opp <$> compareImportModulesByName_clang rightClangModule left
  | ofModuleDecl leftSwiftModule, ofModuleDecl rightSwiftModule =>
      mret (Identifier_compare (getName leftSwiftModule)
                               (getName rightSwiftModule))
  | ofClangModule leftClangModule, _ =>
      compareImportModulesByName_clang leftClangModule right
  end.

(** [llvm::array_pod_sort] hands the range to the C library's [qsort]: the
    result is the input reordered so that the comparator never puts a later
    element before an earlier one, and [qsort] promises nothing about the
    order of elements that compare equal.  It is modelled by insertion
    from the right; [sorted_by] and [sort_outcome] below state the
    contract itself, and the results about the emitted text are proved for
    every outcome the contract allows. *)
Section Sorting.
Context {A : Type} (cmp : A → A → result Z).

Fixpoint insert_sorted (x : A) (l : list A) : result (list A) :=
  match l with
  | [] => mret [x]
  | y :: l' =>
      c ← cmp x y;
      if c <=? 0 then mret (x :: y :: l')
      else (cons y) <$> insert_sorted x l'
  end.

Fixpoint array_pod_sort (l : list A) : result (list A) :=
  match l with
  | [] => mret []
  | x :: l' => s ← array_pod_sort l'; insert_sorted x s
  end.

(** [x] may stand before [y]. *)
Definition cmp_le (x y : A) : Prop := ∃ c, cmp x y = Ok c ∧ c <= 0.

Definition sorted_by (l : list A) : Prop := StronglySorted cmp_le l.

Definition sort_outcome (input output : list A) : Prop :=
  input ≡ₚ output ∧ sorted_by output.
End Sorting.

(** [SmallPtrSet<Identifier>::insert]: the set afterwards, and whether the
    element was new. *)
Definition SmallPtrSet_insert (s : gset Identifier) (x : Identifier)
    : gset Identifier * bool :=
  ({[x]} ∪ s, negb (bool_decide (x ∈ s))).

(** [StringRef::upper]: ASCII letters only. *)
Definition toUpper (x : ascii) : ascii :=
  let n := N_of_ascii x in
  if (97 <=? n)%N && (n <=? 122)%N then ascii_of_N (n - 97 + 65) else x.

Fixpoint upper (s : string) : string :=
  match s with
  | "" => ""
  | String c s' => String (toUpper c) (upper s')
  end.

(** *** What is defined outside the files at hand *)

(** One entry of [swift/PrintAsClang/ClangMacros.def]: an invocation of one
    of the six macros that [writePrologue] defines before including the
    table.  The fields are the texts of the arguments. *)
Inductive ClangMacro : Type :=
| CLANG_MACRO_BODY (NAME BODY : string)
| CLANG_MACRO (NAME ARGS VALUE : string)
| CLANG_MACRO_ALTERNATIVE (NAME ARGS CONDITION VALUE ALTERNATIVE : string)
| CLANG_MACRO_OBJC (NAME ARGS VALUE : string)
| CLANG_MACRO_CXX (NAME ARGS VALUE ALTERNATIVE : string)
| CLANG_MACRO_CXX_BODY (NAME BODY : string).

(** One entry [MAP_SIMD_TYPE(C_TYPE, SCALAR_TYPE, _)] of
    [swift/ClangImporter/SIMDMappedTypes.def]. *)
Record SIMDMappedType : Type := mkSIMDMappedType {
  C_TYPE : string;
  SCALAR_TYPE : string;
  SWIFT_TYPE : string
}.

(** The two tables, the version banner and the two declaration printers.
    A printer is given a fresh buffer and a fresh import set; what it
    returns here is the text it leaves in the buffer and the entries of
    the set in the order in which the set enumerates them. *)
Record Collaborators : Type := mkCollaborators {
  getSwiftFullVersion : Version → string;
  SIMDMappedTypes_def : list SIMDMappedType;
  ClangMacros_def : list ClangMacro;
  printModuleContentsAsObjC : ModuleDecl → string * list ImportModuleTy;
  printModuleContentsAsCxx : ModuleDecl → string * list ImportModuleTy
}.

(** *** The generator *)

(** A [function_ref<void()>] that writes to the stream it captured. *)
Definition block : Type := raw_ostream → result raw_ostream.

Definition emitCxxConditional (out : raw_ostream)
    (cxxCase : block) (cCase : option block) : result raw_ostream :=
  let out := out << "#if defined(__cplusplus)" << nl in
  out ← cxxCase out;
  out ← match cCase with
        | Some cCase => cCase (out << "#else" << nl)
        | None => mret out
        end;
  mret (out << "#endif" << nl).

Definition emitObjCConditional (out : raw_ostream)
    (objcCase : block) (nonObjCCase : option block) : result raw_ostream :=
  let out := out << "#if defined(__OBJC__)" << nl in
  out ← objcCase out;
  out ← match nonObjCCase with
        | Some nonObjCCase => nonObjCCase (out << "#else" << nl)
        | None => mret out
        end;
  mret (out << "#endif" << nl).

(** The text one [MAP_SIMD_TYPE] entry adds to the literal. *)
Definition MAP_SIMD_TYPE (out : raw_ostream) (t : SIMDMappedType)
    : raw_ostream :=
  out << "typedef " << SCALAR_TYPE t << " swift_" << C_TYPE t << "2"
      << "  __attribute__((__ext_vector_type__(2)));" << nl
      << "typedef " << SCALAR_TYPE t << " swift_" << C_TYPE t << "3"
      << "  __attribute__((__ext_vector_type__(3)));" << nl
      << "typedef " << SCALAR_TYPE t << " swift_" << C_TYPE t << "4"
      << "  __attribute__((__ext_vector_type__(4)));" << nl.

Definition emit_CLANG_MACRO_BODY (out : raw_ostream) (NAME BODY : string)
    : raw_ostream :=
  out << "#if !defined(" << NAME << ")" << nl
      << BODY << nl
      << "#endif" << nl.

(** What each macro of the table expands to, as [writePrologue] defines
    them. *)
Definition emitClangMacro (out : raw_ostream) (m : ClangMacro)
    : raw_ostream :=
  match m with
  | CLANG_MACRO_BODY NAME BODY => emit_CLANG_MACRO_BODY out NAME BODY
  | CLANG_MACRO NAME ARGS VALUE =>
      emit_CLANG_MACRO_BODY out NAME
        ("# define " +:+ NAME +:+ ARGS +:+ " " +:+ VALUE)
  | CLANG_MACRO_ALTERNATIVE NAME ARGS CONDITION VALUE ALTERNATIVE =>
      emit_CLANG_MACRO_BODY out NAME
        ("# if " +:+ CONDITION +:+ nl +:+
         "#  define " +:+ NAME +:+ ARGS +:+ " " +:+ VALUE +:+ nl +:+
         "# else" +:+ nl +:+
         "#  define " +:+ NAME +:+ ARGS +:+ " " +:+ ALTERNATIVE +:+ nl +:+
         "# endif")
  | CLANG_MACRO_OBJC NAME ARGS VALUE =>
      out << "#if defined(__OBJC__)" << nl
          << "#if !defined(" << NAME << ")" << nl
          << "# define " << NAME << ARGS << " " << VALUE << nl
          << "#endif" << nl
          << "#endif" << nl
  | CLANG_MACRO_CXX NAME ARGS VALUE ALTERNATIVE =>
      out << "#if defined(__cplusplus)" << nl
          << "# define " << NAME << ARGS << " " << VALUE << nl
          << "#else" << nl
          << "# define " << NAME << ARGS << " " << ALTERNATIVE << nl
          << "#endif" << nl
  | CLANG_MACRO_CXX_BODY NAME BODY =>
      out << "#if defined(__cplusplus)" << nl
          << BODY << nl
          << "#endif" << nl
  end.

Section Generator.
Context (E : Collaborators).

Definition writePrologue (out : raw_ostream) (ctx : ASTContext)
    (macroGuard : string) : result raw_ostream :=
  let out :=
    out << "// Generated by "
        << getSwiftFullVersion E (EffectiveLanguageVersion ctx)
        << nl
        << "#ifndef " << macroGuard << nl
        << "#define " << macroGuard
        << nl
        << "#pragma clang diagnostic push" << nl
        << "#pragma clang diagnostic ignored " << dq << "-Wgcc-compat"
        << dq << nl
        << nl
        << "#if !defined(__has_include)" << nl
        << "# define __has_include(x) 0" << nl
        << "#endif" << nl
        << "#if !defined(__has_attribute)" << nl
        << "# define __has_attribute(x) 0" << nl
        << "#endif" << nl
        << "#if !defined(__has_feature)" << nl
        << "# define __has_feature(x) 0" << nl
        << "#endif" << nl
        << "#if !defined(__has_warning)" << nl
        << "# define __has_warning(x) 0" << nl
        << "#endif" << nl
        << nl
        << "#if __has_include(<swift/objc-prologue.h>)" << nl
        << "# include <swift/objc-prologue.h>" << nl
        << "#endif" << nl
        << nl
        << "#pragma clang diagnostic ignored " << dq << "-Wauto-import"
        << dq << nl in
  out ← emitObjCConditional out
          (λ out, mret (out << "#include <Foundation/Foundation.h>" << nl))
          None;
  out ← emitCxxConditional out
          (λ out, mret (out << "#include <cstdint>" << nl
                            << "#include <cstddef>" << nl
                            << "#include <cstdbool>" << nl))
          (Some (λ out, mret (out << "#include <stdint.h>" << nl
                                  << "#include <stddef.h>" << nl
                                  << "#include <stdbool.h>" << nl)));
  let out :=
    out << nl
        << "#if !defined(SWIFT_TYPEDEFS)" << nl
        << "# define SWIFT_TYPEDEFS 1" << nl
        << "# if __has_include(<uchar.h>)" << nl
        << "#  include <uchar.h>" << nl
        << "# elif !defined(__cplusplus)" << nl
        << "typedef uint_least16_t char16_t;" << nl
        << "typedef uint_least32_t char32_t;" << nl
        << "# endif" << nl in
  let out := foldl MAP_SIMD_TYPE out (SIMDMappedTypes_def E) in
  let out :=
    out << "#endif" << nl
        << nl in
  let out := foldl emitClangMacro out (ClangMacros_def E) in
  mret out.

Definition isUnderlyingModule (M : ModuleDecl) (bridgingHeader : string)
    (import : ModuleDecl) : bool :=
  if empty bridgingHeader then
    negb (moduleAddr import =? moduleAddr M)%N
    && bool_decide (getName import = getName M)
  else
    bool_decide
      (Some (moduleAddr import)
       = ImportedHeaderModule (getASTContext import)).

(** The state the loop of [writeImports] carries: the stream,
    [seenImports] and [includeUnderlying]. *)
Definition loop_state : Type := raw_ostream * gset Identifier * bool.

(** One turn of the loop over [sortedImports]. *)
Definition writeImports_body (M : ModuleDecl) (bridgingHeader : string)
    (st : loop_state) (import : ImportModuleTy) : result loop_state :=
  let '(out, seenImports, includeUnderlying) := st in
  match import with
  | ofModuleDecl swiftModule =>
      let Name := getName swiftModule in
      if isUnderlyingModule M bridgingHeader swiftModule then
        mret (out, seenImports, true)
      else
        let '(seenImports, inserted) :=
          SmallPtrSet_insert seenImports Name in
        if inserted then
          mret (out << "@import " << Name << ";" << nl,
                seenImports, includeUnderlying)
        else mret (out, seenImports, includeUnderlying)
  | ofClangModule clangModule =>
      _ ← assert (isSubModule clangModule) top_level_msg;
      let out := out << "@import " in
      let out := printForward out clangModule in
      mret (out << ";" << nl, seenImports, includeUnderlying)
  end.

Fixpoint writeImports_loop (M : ModuleDecl) (bridgingHeader : string)
    (st : loop_state) (sortedImports : list ImportModuleTy)
    : result loop_state :=
  match sortedImports with
  | [] => mret st
  | import :: rest =>
      st ← writeImports_body M bridgingHeader st import;
      writeImports_loop M bridgingHeader st rest
  end.

(** [writeImports] once [sortedImports] is known. *)
Definition writeImports_sorted (out : raw_ostream)
    (sortedImports : list ImportModuleTy)
    (M : ModuleDecl) (bridgingHeader : string) : result raw_ostream :=
  st ← writeImports_loop M bridgingHeader
         (out, (∅ : gset Identifier), false) sortedImports;
  let '(out, _, includeUnderlying) := (st : loop_state) in
  let out := out << "#endif" << nl << nl in
  if includeUnderlying then
    if empty bridgingHeader then
      mret (out << "#import <" << getName M << "/" << getName M
                << ".h>" << nl << nl)
    else
      mret (out << "#import " << dq << bridgingHeader << dq << nl << nl)
  else mret out.

Definition writeImports (out : raw_ostream)
    (imports : list ImportModuleTy)
    (M : ModuleDecl) (bridgingHeader : string) : result raw_ostream :=
  let out := out << "#if __has_feature(modules)" << nl in
  let out :=
    out << "#if __has_warning(" << dq << "-Watimport-in-framework-header"
        << dq << ")" << nl
        << "#pragma clang diagnostic ignored " << dq
        << "-Watimport-in-framework-header" << dq << nl
        << "#endif" << nl in
  sortedImports ← array_pod_sort compareImportModulesByName imports;
  writeImports_sorted out sortedImports M bridgingHeader.

Definition writePostImportPrologue (os : raw_ostream) (M : ModuleDecl)
    : raw_ostream :=
  os << "#pragma clang diagnostic ignored " << dq
     << "-Wproperty-attribute-mismatch" << dq << nl
     << "#pragma clang diagnostic ignored " << dq
     << "-Wduplicate-method-arg" << dq << nl
     << "#if __has_warning(" << dq << "-Wpragma-clang-attribute" << dq
     << ")" << nl
     << "# pragma clang diagnostic ignored " << dq
     << "-Wpragma-clang-attribute" << dq << nl
     << "#endif" << nl
     << "#pragma clang diagnostic ignored " << dq << "-Wunknown-pragmas"
     << dq << nl
     << "#pragma clang diagnostic ignored " << dq << "-Wnullability"
     << dq << nl
     << "#pragma clang diagnostic ignored "
     << dq << "-Wdollar-in-identifier-extension" << dq << nl
     << nl
     << "#if __has_attribute(external_source_symbol)" << nl
     << "# pragma push_macro(" << dq << "any" << dq << ")" << nl
     << "# undef any" << nl
     << "# pragma clang attribute push("
     << "__attribute__((external_source_symbol(language=" << dq
     << "Swift" << dq << ", "
     << "defined_in=" << dq
     << getNameStr M
     << dq << ",generated_declaration))), "
     << "apply_to=any(function,enum,objc_interface,objc_category,"
     << "objc_protocol))" << nl
     << "# pragma pop_macro(" << dq << "any" << dq << ")" << nl
     << "#endif" << nl << nl.

Definition writeEpilogue (os : raw_ostream) : raw_ostream :=
  os << "#if __has_attribute(external_source_symbol)" << nl
     << "# pragma clang attribute pop" << nl
     << "#endif" << nl
     << "#pragma clang diagnostic pop" << nl
     << "#endif" << nl.

Definition computeMacroGuard (M : ModuleDecl) : string :=
  upper (getNameStr M) +:+ "_SWIFT_H".

Definition getModuleContentsCxxString (M : ModuleDecl) : string :=
  let '(moduleContents, imports) := printModuleContentsAsCxx E M in
  moduleContents.

(** [swift::printAsClangHeader]: the stream afterwards and the value
    returned. *)
Definition printAsClangHeader (os : raw_ostream) (M : ModuleDecl)
    (bridgingHeader : string) (ExposePublicDeclsInClangHeader : bool)
    : result (raw_ostream * bool) :=
  let '(objcModuleContents, imports) := printModuleContentsAsObjC E M in
  os ← writePrologue os (getASTContext M) (computeMacroGuard M);
  os ← emitObjCConditional os
         (λ os, writeImports os imports M bridgingHeader) None;
  let os := writePostImportPrologue os M in
  os ← emitObjCConditional os
         (λ os, mret (os << objcModuleContents)) None;
  os ← emitCxxConditional os
         (λ os,
            if ExposePublicDeclsInClangHeader then
              mret (os << getModuleContentsCxxString M)
            else mret os)
         None;
  let os := writeEpilogue os in
  mret (os, false).

End Generator.

End PrintAsClang.

(** * Vocabulary of the statements

    Nothing below is part of the program: these are the notions in which the
    properties of the next part are phrased. *)

Module ImportOrder.
Import PrintAsClang.

(** The order of texts that [StringRef::compare] decides. *)
Global Instance string_lexico : Lexico string :=
  λ a b, String.compare a b = Lt.

(** The sort key of an import entry: the qualified path read from the
    top-level component down to the leaf.  A native module is a path of
    one component. *)
Definition forward_path (c : ClangModule) : list string :=
  reverse (ReverseFullNameIterator c).

Definition sort_key (i : ImportModuleTy) : list string :=
  match i with
  | ofModuleDecl m => [getName m]
  | ofClangModule c => forward_path c
  end.

Definition is_native (i : ImportModuleTy) : bool :=
  match i with ofModuleDecl _ => true | ofClangModule _ => false end.

(** What the assertions demand of the import set: every Clang entry is a
    submodule, and no two Clang entries have the same full name. *)
Definition wf_entry (i : ImportModuleTy) : bool :=
  match i with
  | ofModuleDecl _ => true
  | ofClangModule c => isSubModule c
  end.

Definition clang_paths (l : list ImportModuleTy) : list (list string) :=
  omap (λ i, match i with
             | ofModuleDecl _ => None
             | ofClangModule c => Some (forward_path c)
             end) l.

Definition imports_wf (l : list ImportModuleTy) : Prop :=
  Forall (λ i, wf_entry i = true) l ∧ NoDup (clang_paths l).

(** The comparator answers for the pair instead of failing an
    assertion. *)
Definition comparable (x y : ImportModuleTy) : Prop :=
  wf_entry x = true ∧ wf_entry y = true
  ∧ (is_native x = false → is_native y = false → sort_key x ≠ sort_key y).

(** [x] may stand before [y]: the comparator answers, and not with 1. *)
Definition import_le : relation ImportModuleTy :=
  cmp_le compareImportModulesByName.

(** The comparator answers for every pair taken in the order of the
    list. *)
Definition answered {A : Type} (cmp : A → A → result Z) : relation A :=
  λ x y, ∃ c, cmp x y = Ok c.

(** The entry is the underlying counterpart of [M]. *)
Definition is_counterpart (M : ModuleDecl) (bridgingHeader : string)
    (i : ImportModuleTy) : bool :=
  match i with
  | ofModuleDecl m => isUnderlyingModule M bridgingHeader m
  | ofClangModule _ => false
  end.

Definition has_counterpart (M : ModuleDecl) (bridgingHeader : string)
    (l : list ImportModuleTy) : bool :=
  existsb (is_counterpart M bridgingHeader) l.

(** The paths for which the loop of [writeImports] writes a statement, in
    the order of the list it walks, given the names seen before. *)
Fixpoint emitted (M : ModuleDecl) (bridgingHeader : string)
    (seen : gset Identifier) (l : list ImportModuleTy)
    : list (list string) :=
  match l with
  | [] => []
  | ofModuleDecl m :: rest =>
      if isUnderlyingModule M bridgingHeader m then
        emitted M bridgingHeader seen rest
      else if bool_decide (getName m ∈ seen) then
        emitted M bridgingHeader seen rest
      else [getName m] :: emitted M bridgingHeader ({[getName m]} ∪ seen) rest
  | ofClangModule c :: rest =>
      forward_path c :: emitted M bridgingHeader seen rest
  end.

(** The [@import] statement for a path. *)
Definition import_statement (path : list string) : string :=
  "@import " +:+ interleave_dot "" path +:+ ";" +:+ nl.

Fixpoint concat_text (l : list string) : string :=
  match l with
  | [] => ""
  | x :: l' => x +:+ concat_text l'
  end.

(** What [writeImports] writes before the first statement. *)
Definition imports_opening : string :=
  "#if __has_feature(modules)" +:+ nl +:+
  "#if __has_warning(" +:+ dq +:+ "-Watimport-in-framework-header" +:+ dq
    +:+ ")" +:+ nl +:+
  "#pragma clang diagnostic ignored " +:+ dq
    +:+ "-Watimport-in-framework-header" +:+ dq +:+ nl +:+
  "#endif" +:+ nl.

(** The include of the underlying compatibility header. *)
Definition underlying_include (M : ModuleDecl) (bridgingHeader : string)
    : string :=
  if empty bridgingHeader then
    "#import <" +:+ getName M +:+ "/" +:+ getName M +:+ ".h>" +:+ nl +:+ nl
  else
    "#import " +:+ dq +:+ bridgingHeader +:+ dq +:+ nl +:+ nl.

(** What [writeImports] writes from the first statement on, for a list of
    statement paths. *)
Definition imports_tail (M : ModuleDecl) (bridgingHeader : string)
    (paths : list (list string)) (underlying : bool) : string :=
  concat_text (import_statement <$> paths)
    +:+ "#endif" +:+ nl +:+ nl
    +:+ (if underlying then underlying_include M bridgingHeader else "").

(** The whole text of [writeImports]. *)
Definition imports_text (M : ModuleDecl) (bridgingHeader : string)
    (paths : list (list string)) (underlying : bool) : string :=
  imports_opening +:+ imports_tail M bridgingHeader paths underlying.

(** The entry gets a statement when the loop meets it with [seen]. *)
Definition emits (M : ModuleDecl) (bridgingHeader : string)
    (seen : gset Identifier) (i : ImportModuleTy) : Prop :=
  match i with
  | ofModuleDecl m =>
      isUnderlyingModule M bridgingHeader m = false ∧ getName m ∉ seen
  | ofClangModule _ => True
  end.

(** The paths of the import set without the counterpart, each once, in
    increasing order. *)
Definition path_le : relation (list string) :=
  λ a b, lexicographical_compare b a = false.
Global Instance path_le_dec : RelDecision path_le :=
  λ a b, decide (lexicographical_compare b a = false).

Definition import_paths (M : ModuleDecl) (bridgingHeader : string)
    (l : list ImportModuleTy) : list (list string) :=
  merge_sort path_le
    (remove_dups
       (sort_key <$> filter (λ i, is_counterpart M bridgingHeader i = false) l)).

(** No component of an entry's path holds a dot, as is the case for
    identifiers. *)
Definition dot_free (i : ImportModuleTy) : bool :=
  forallb (avoids ".") (sort_key i).

(** Moving every object to another address. *)
Definition relabel_context (f : ptr → ptr) (ctx : ASTContext) : ASTContext :=
  {| EffectiveLanguageVersion := EffectiveLanguageVersion ctx;
     ImportedHeaderModule := f <$> ImportedHeaderModule ctx |}.

Definition relabel_module (f : ptr → ptr) (m : ModuleDecl) : ModuleDecl :=
  {| moduleAddr := f (moduleAddr m);
     getName := getName m;
     getASTContext := relabel_context f (getASTContext m) |}.

Fixpoint relabel_clang (f : ptr → ptr) (c : ClangModule) : ClangModule :=
  match c with
  | TopLevelModule a n => TopLevelModule (f a) n
  | SubModule a n p => SubModule (f a) n (relabel_clang f p)
  end.

Definition relabel (f : ptr → ptr) (i : ImportModuleTy) : ImportModuleTy :=
  match i with
  | ofModuleDecl m => ofModuleDecl (relabel_module f m)
  | ofClangModule c => ofClangModule (relabel_clang f c)
  end.

End ImportOrder.

Module HeaderLayout.
Import PrintAsClang ImportOrder.

(** A block only appends to the stream it is given. *)
Definition appends (f : block) : Prop :=
  ∀ out, f out = (String.app out) <$> f "".

(** The same loop state behind a longer stream. *)
Definition prepend (out : raw_ostream) (st : loop_state) : loop_state :=
  let '(text, seen, includeUnderlying) := st in
  (out +:+ text, seen, includeUnderlying).

Definition objc_guarded (body : string) : string :=
  "#if defined(__OBJC__)" +:+ nl +:+ body +:+ "#endif" +:+ nl.

Definition cxx_guarded (body : string) : string :=
  "#if defined(__cplusplus)" +:+ nl +:+ body +:+ "#endif" +:+ nl.

(** The six blocks of the header, each the text that its writer leaves in
    an empty stream. *)
Definition prologue_text (E : Collaborators) (ctx : ASTContext)
    (macroGuard : string) : string :=
  match writePrologue E "" ctx macroGuard with
  | Ok text => text
  | AssertionFailure _ => ""
  end.

Definition block_prologue (E : Collaborators) (M : ModuleDecl) : string :=
  prologue_text E (getASTContext M) (computeMacroGuard M).

Definition block_imports (imports_written : string) : string :=
  objc_guarded imports_written.

Definition block_post_import (M : ModuleDecl) : string :=
  writePostImportPrologue "" M.

Definition block_objc (E : Collaborators) (M : ModuleDecl) : string :=
  objc_guarded (fst (printModuleContentsAsObjC E M)).

Definition block_cxx (E : Collaborators) (M : ModuleDecl)
    (ExposePublicDeclsInClangHeader : bool) : string :=
  cxx_guarded (if ExposePublicDeclsInClangHeader
               then getModuleContentsCxxString E M else "").

Definition block_epilogue : string := writeEpilogue "".

(** The import set the Objective-C printer leaves, as enumerated. *)
Definition objc_imports (E : Collaborators) (M : ModuleDecl)
    : list ImportModuleTy :=
  snd (printModuleContentsAsObjC E M).

(** The text before the C++ block, given what [writeImports] wrote. *)
Definition before_cxx (E : Collaborators) (M : ModuleDecl)
    (imports_written : string) : string :=
  block_prologue E M +:+ block_imports imports_written
    +:+ block_post_import M +:+ block_objc E M.

Definition header_text (E : Collaborators) (M : ModuleDecl)
    (imports_written : string) (ExposePublicDeclsInClangHeader : bool)
    : string :=
  before_cxx E M imports_written
    +:+ block_cxx E M ExposePublicDeclsInClangHeader +:+ block_epilogue.

(** The text of a list of lines, each followed by its line end. *)
Definition text_of_lines (ls : list string) : string :=
  concat_text ((λ l, l +:+ nl) <$> ls).

Definition quoted (s : string) : string := dq +:+ s +:+ dq.

(** The vector typedefs for one entry of the SIMD table: two, three and
    four elements. *)
Definition simd_listing (t : SIMDMappedType) : list string :=
  (λ n, "typedef " +:+ SCALAR_TYPE t +:+ " swift_" +:+ C_TYPE t +:+ n
          +:+ "  __attribute__((__ext_vector_type__(" +:+ n +:+ ")));")
    <$> ["2"; "3"; "4"].

(** The lines that one entry of the macro table expands to. *)
Definition macro_listing (m : ClangMacro) : list string :=
  match m with
  | CLANG_MACRO_BODY NAME BODY =>
      ["#if !defined(" +:+ NAME +:+ ")"; BODY; "#endif"]
  | CLANG_MACRO NAME ARGS VALUE =>
      ["#if !defined(" +:+ NAME +:+ ")";
       "# define " +:+ NAME +:+ ARGS +:+ " " +:+ VALUE;
       "#endif"]
  | CLANG_MACRO_ALTERNATIVE NAME ARGS CONDITION VALUE ALTERNATIVE =>
      ["#if !defined(" +:+ NAME +:+ ")";
       "# if " +:+ CONDITION;
       "#  define " +:+ NAME +:+ ARGS +:+ " " +:+ VALUE;
       "# else";
       "#  define " +:+ NAME +:+ ARGS +:+ " " +:+ ALTERNATIVE;
       "# endif";
       "#endif"]
  | CLANG_MACRO_OBJC NAME ARGS VALUE =>
      ["#if defined(__OBJC__)";
       "#if !defined(" +:+ NAME +:+ ")";
       "# define " +:+ NAME +:+ ARGS +:+ " " +:+ VALUE;
       "#endif";
       "#endif"]
  | CLANG_MACRO_CXX NAME ARGS VALUE ALTERNATIVE =>
      ["#if defined(__cplusplus)";
       "# define " +:+ NAME +:+ ARGS +:+ " " +:+ VALUE;
       "#else";
       "# define " +:+ NAME +:+ ARGS +:+ " " +:+ ALTERNATIVE;
       "#endif"]
  | CLANG_MACRO_CXX_BODY NAME BODY =>
      ["#if defined(__cplusplus)"; BODY; "#endif"]
  end.

(** The lines of the prologue, for a version banner, a guard macro and the
    two tables. *)
Definition prologue_listing (version macroGuard : string)
    (simd : list SIMDMappedType) (macros : list ClangMacro) : list string :=
  ["// Generated by " +:+ version;
   "#ifndef " +:+ macroGuard;
   "#define " +:+ macroGuard;
   "#pragma clang diagnostic push";
   "#pragma clang diagnostic ignored " +:+ quoted "-Wgcc-compat";
   "";
   "#if !defined(__has_include)";
   "# define __has_include(x) 0";
   "#endif";
   "#if !defined(__has_attribute)";
   "# define __has_attribute(x) 0";
   "#endif";
   "#if !defined(__has_feature)";
   "# define __has_feature(x) 0";
   "#endif";
   "#if !defined(__has_warning)";
   "# define __has_warning(x) 0";
   "#endif";
   "";
   "#if __has_include(<swift/objc-prologue.h>)";
   "# include <swift/objc-prologue.h>";
   "#endif";
   "";
   "#pragma clang diagnostic ignored " +:+ quoted "-Wauto-import";
   "#if defined(__OBJC__)";
   "#include <Foundation/Foundation.h>";
   "#endif";
   "#if defined(__cplusplus)";
   "#include <cstdint>";
   "#include <cstddef>";
   "#include <cstdbool>";
   "#else";
   "#include <stdint.h>";
   "#include <stddef.h>";
   "#include <stdbool.h>";
   "#endif";
   "";
   "#if !defined(SWIFT_TYPEDEFS)";
   "# define SWIFT_TYPEDEFS 1";
   "# if __has_include(<uchar.h>)";
   "#  include <uchar.h>";
   "# elif !defined(__cplusplus)";
   "typedef uint_least16_t char16_t;";
   "typedef uint_least32_t char32_t;";
   "# endif"]
  ++ (simd ≫= simd_listing)
  ++ ["#endif"; ""]
  ++ (macros ≫= macro_listing).

(** The lines behind the import block, for a module name. *)
Definition post_import_listing (name : string) : list string :=
  ["#pragma clang diagnostic ignored "
     +:+ quoted "-Wproperty-attribute-mismatch";
   "#pragma clang diagnostic ignored " +:+ quoted "-Wduplicate-method-arg";
   "#if __has_warning(" +:+ quoted "-Wpragma-clang-attribute" +:+ ")";
   "# pragma clang diagnostic ignored "
     +:+ quoted "-Wpragma-clang-attribute";
   "#endif";
   "#pragma clang diagnostic ignored " +:+ quoted "-Wunknown-pragmas";
   "#pragma clang diagnostic ignored " +:+ quoted "-Wnullability";
   "#pragma clang diagnostic ignored "
     +:+ quoted "-Wdollar-in-identifier-extension";
   "";
   "#if __has_attribute(external_source_symbol)";
   "# pragma push_macro(" +:+ quoted "any" +:+ ")";
   "# undef any";
   "# pragma clang attribute push("
     +:+ "__attribute__((external_source_symbol(language=" +:+ quoted "Swift"
     +:+ ", defined_in=" +:+ quoted name +:+ ",generated_declaration))), "
     +:+ "apply_to=any(function,enum,objc_interface,objc_category,"
     +:+ "objc_protocol))";
   "# pragma pop_macro(" +:+ quoted "any" +:+ ")";
   "#endif";
   ""].

(** The lines of the epilogue; the last closes the guard. *)
Definition epilogue_listing : list string :=
  ["#if __has_attribute(external_source_symbol)";
   "# pragma clang attribute pop";
   "#endif";
   "#pragma clang diagnostic pop";
   "#endif"].

(** The header in full: the six blocks, line for line, around what
    [writeImports] and the two declaration printers wrote. *)
Definition complete_header (E : Collaborators) (M : ModuleDecl)
    (imports_written : string) (ExposePublicDeclsInClangHeader : bool)
    : string :=
  text_of_lines
    (prologue_listing
       (getSwiftFullVersion E (EffectiveLanguageVersion (getASTContext M)))
       (upper (getName M) +:+ "_SWIFT_H")
       (SIMDMappedTypes_def E) (ClangMacros_def E))
  +:+ "#if defined(__OBJC__)" +:+ nl
  +:+ imports_written
  +:+ "#endif" +:+ nl
  +:+ text_of_lines (post_import_listing (getName M))
  +:+ "#if defined(__OBJC__)" +:+ nl
  +:+ fst (printModuleContentsAsObjC E M)
  +:+ "#endif" +:+ nl
  +:+ "#if defined(__cplusplus)" +:+ nl
  +:+ (if ExposePublicDeclsInClangHeader
       then fst (printModuleContentsAsCxx E M) else "")
  +:+ "#endif" +:+ nl
  +:+ text_of_lines epilogue_listing.

End HeaderLayout.

(** * Reading the header: conditional inclusion

    What a C preprocessor makes of the conditional directives of a text, line
    by line.  Comments, line splicing and macro expansion are left out, and
    an [#include] or [#import] line is kept as it stands instead of being
    followed.  The conditions of [#if] and [#elif] are decided by [eval],
    about which nothing is assumed. *)

Module Preprocessor.
Import PrintAsClang.

Definition newline : ascii := Ascii.ascii_of_nat 10.

Fixpoint no_nl (s : string) : bool :=
  match s with
  | "" => true
  | String c s' => negb (Ascii.eqb c newline) && no_nl s'
  end.

(** The lines of a text, without their line ends. *)
Fixpoint lines (s : string) : list string :=
  match s with
  | "" => []
  | String c s' =>
      if Ascii.eqb c newline then "" :: lines s'
      else match lines s' with
           | [] => [String c ""]
           | l :: ls => String c l :: ls
           end
  end.

(** The text is empty or ends with a line end. *)
Fixpoint whole_lines (s : string) : bool :=
  match s with
  | "" => true
  | String c "" => Ascii.eqb c newline
  | String _ s' => whole_lines s'
  end.

Definition is_blank (c : ascii) : bool :=
  Ascii.eqb c " " || Ascii.eqb c (Ascii.ascii_of_nat 9).

Definition is_ident_char (c : ascii) : bool :=
  let n := N_of_ascii c in
  ((97 <=? n) && (n <=? 122) || (65 <=? n) && (n <=? 90)
   || (48 <=? n) && (n <=? 57) || (n =? 95))%N.

Fixpoint skip_blanks (s : string) : string :=
  match s with
  | "" => ""
  | String c s' => if is_blank c then skip_blanks s' else s
  end.

Fixpoint first_word (s : string) : string :=
  match s with
  | "" => ""
  | String c s' => if is_ident_char c then String c (first_word s') else ""
  end.

Fixpoint after_word (s : string) : string :=
  match s with
  | "" => ""
  | String c s' => if is_ident_char c then after_word s' else s
  end.

(** The macro that a [#define], [#undef], [#ifdef] or [#ifndef] line with
    this operand names. *)
Definition macro_name (operand : string) : string :=
  first_word (skip_blanks operand).

Inductive directive : Type :=
| PPIf (condition : string)
| PPIfdef (name : string)
| PPIfndef (name : string)
| PPElif (condition : string)
| PPElse
| PPEndif
| PPDefine (name : string)
| PPUndef (name : string)
| PPOther
| PPText.

Definition parse_line (l : string) : directive :=
  match skip_blanks l with
  | String "#" r =>
      let r := skip_blanks r in
      let word := first_word r in
      let operand := after_word r in
      if String.eqb word "if" then PPIf operand
      else if String.eqb word "ifdef" then PPIfdef (macro_name operand)
      else if String.eqb word "ifndef" then PPIfndef (macro_name operand)
      else if String.eqb word "elif" then PPElif operand
      else if String.eqb word "else" then PPElse
      else if String.eqb word "endif" then PPEndif
      else if String.eqb word "define" then PPDefine (macro_name operand)
      else if String.eqb word "undef" then PPUndef (macro_name operand)
      else PPOther
  | _ => PPText
  end.

(** The depth of open conditionals after the lines, from a given depth;
    [None] when a line closes or continues a conditional that the lines did
    not open. *)
Fixpoint nesting (depth : nat) (ls : list string) : option nat :=
  match ls with
  | [] => Some depth
  | l :: ls' =>
      match parse_line l with
      | PPIf _ | PPIfdef _ | PPIfndef _ => nesting (S depth) ls'
      | PPElif _ | PPElse =>
          match depth with O => None | S _ => nesting depth ls' end
      | PPEndif =>
          match depth with O => None | S d => nesting d ls' end
      | _ => nesting depth ls'
      end
  end.

(** The lines open and close their own conditionals only. *)
Definition balanced (ls : list string) : bool :=
  bool_decide (nesting 0 ls = Some 0%nat).

(** No line undefines the macro. *)
Definition keeps (macro : string) (ls : list string) : bool :=
  forallb (λ l, match parse_line l with
                | PPUndef n => negb (String.eqb n macro)
                | _ => true
                end) ls.

(** One open conditional: whether the text around it is being kept,
    whether one of its branches has been taken, whether the present branch
    is being kept. *)
Record frame : Type := mkFrame {
  around : bool;
  taken : bool;
  now : bool
}.

Record pp_state : Type := mkState {
  defined : gset string;
  open_conditionals : list frame;
  kept : list string
}.

(** Nothing is kept in the conditional, whatever branch comes. *)
Definition dead (f : frame) : Prop := around f = false ∧ now f = false.

Definition keeping (stack : list frame) : bool :=
  match stack with
  | [] => true
  | f :: _ => now f
  end.

Definition open_frame (stack : list frame) (condition : bool) : list frame :=
  let a := keeping stack in
  {| around := a; taken := a && condition; now := a && condition |} :: stack.

Definition next_branch (stack : list frame) (condition : bool) : list frame :=
  match stack with
  | [] => []
  | f :: stack' =>
      let b := around f && negb (taken f) && condition in
      {| around := around f; taken := taken f || b; now := b |} :: stack'
  end.

Section Run.
Context (eval : gset string → string → bool).

Definition step (st : pp_state) (l : string) : pp_state :=
  let D := defined st in
  let stack := open_conditionals st in
  match parse_line l with
  | PPIf c => mkState D (open_frame stack (eval D c)) (kept st)
  | PPIfdef n => mkState D (open_frame stack (bool_decide (n ∈ D))) (kept st)
  | PPIfndef n =>
      mkState D (open_frame stack (negb (bool_decide (n ∈ D)))) (kept st)
  | PPElif c => mkState D (next_branch stack (eval D c)) (kept st)
  | PPElse => mkState D (next_branch stack true) (kept st)
  | PPEndif => mkState D (tail stack) (kept st)
  | PPDefine n =>
      mkState (if keeping stack then {[n]} ∪ D else D) stack (kept st)
  | PPUndef n =>
      mkState (if keeping stack then D ∖ {[n]} else D) stack (kept st)
  | PPOther | PPText =>
      mkState D stack (if keeping stack then kept st ++ [l] else kept st)
  end.

Definition preprocess (st : pp_state) (text : string) : pp_state :=
  foldl step st (lines text).

End Run.

(** A text of whole lines that takes the depth of open conditionals from
    [d] to [d'] and leaves the macro defined. *)
Definition segment (macro : string) (d d' : nat) (text : string) : Prop :=
  whole_lines text = true
  ∧ nesting d (lines text) = Some d'
  ∧ keeps macro (lines text) = true.

(** What the text that reaches the header from outside must be like for the
    header to have the lines the generator means it to have: names, paths
    and table fields without line ends; printed declarations and macro
    bodies in whole lines, with balanced conditionals and no [#undef] of the
    guard. *)
Definition block_ok (guard : string) (text : string) : bool :=
  whole_lines text && balanced (lines text) && keeps guard (lines text).

Definition macro_ok (guard : string) (m : ClangMacro) : bool :=
  match m with
  | CLANG_MACRO_BODY NAME BODY | CLANG_MACRO_CXX_BODY NAME BODY =>
      no_nl NAME && block_ok guard (BODY +:+ nl)
  | CLANG_MACRO NAME ARGS VALUE | CLANG_MACRO_OBJC NAME ARGS VALUE =>
      no_nl NAME && no_nl ARGS && no_nl VALUE
  | CLANG_MACRO_ALTERNATIVE NAME ARGS CONDITION VALUE ALTERNATIVE =>
      no_nl NAME && no_nl ARGS && no_nl CONDITION && no_nl VALUE
      && no_nl ALTERNATIVE
  | CLANG_MACRO_CXX NAME ARGS VALUE ALTERNATIVE =>
      no_nl NAME && no_nl ARGS && no_nl VALUE && no_nl ALTERNATIVE
  end.

Definition simd_ok (t : SIMDMappedType) : bool :=
  no_nl (C_TYPE t) && no_nl (SCALAR_TYPE t).

Definition import_ok (i : ImportModuleTy) : bool :=
  match i with
  | ofModuleDecl m => no_nl (getName m)
  | ofClangModule c => forallb no_nl (ReverseFullNameIterator c)
  end.

Definition external_text_ok (E : Collaborators) (M : ModuleDecl)
    (bridgingHeader : string) (ExposePublicDeclsInClangHeader : bool) : bool :=
  let guard := macro_name (computeMacroGuard M) in
  no_nl (getSwiftFullVersion E (EffectiveLanguageVersion (getASTContext M)))
  && no_nl (getName M)
  && no_nl bridgingHeader
  && forallb import_ok (snd (printModuleContentsAsObjC E M))
  && forallb simd_ok (SIMDMappedTypes_def E)
  && forallb (macro_ok guard) (ClangMacros_def E)
  && block_ok guard (fst (printModuleContentsAsObjC E M))
  && (if ExposePublicDeclsInClangHeader
      then block_ok guard (fst (printModuleContentsAsCxx E M))
      else true).

End Preprocessor.

(** * Sample inputs *)

Module Samples.
Import PrintAsClang.

Definition ctx : ASTContext :=
  {| EffectiveLanguageVersion := [5; 7]%N; ImportedHeaderModule := None |}.

(** A context whose Clang importer has loaded a bridging header as the
    module at address 900. *)
Definition bridged_ctx : ASTContext :=
  {| EffectiveLanguageVersion := [5; 7]%N;
     ImportedHeaderModule := Some 900%N |}.

Definition native (addr : ptr) (name : string) : ImportModuleTy :=
  ofModuleDecl {| moduleAddr := addr; getName := name; getASTContext := ctx |}.

Definition Foo : ModuleDecl :=
  {| moduleAddr := 100%N; getName := "Foo"; getASTContext := ctx |}.

(** The Clang module of the same name as [Foo], seen as a [ModuleDecl]. *)
Definition Foo_underlying : ImportModuleTy := native 101%N "Foo".

Definition Alpha_Sub : ClangModule :=
  SubModule 201%N "Sub" (TopLevelModule 200%N "Alpha").

(** A second Clang module with the full name of [Alpha_Sub]. *)
Definition Alpha_Sub_again : ClangModule :=
  SubModule 301%N "Sub" (TopLevelModule 300%N "Alpha").

Definition Zeta_Core : ClangModule :=
  SubModule 401%N "Core" (TopLevelModule 400%N "Zeta").

Definition Zeta : ModuleDecl :=
  {| moduleAddr := 500%N; getName := "Zeta"; getASTContext := ctx |}.

Definition BAC : list ImportModuleTy :=
  [native 1%N "B"; native 2%N "A"; native 3%N "C"].

Definition mixed : list ImportModuleTy :=
  [ofModuleDecl Zeta; ofClangModule Alpha_Sub].

(** The module that the Clang importer made of the bridging header. *)
Definition bridging_header_module : ImportModuleTy :=
  ofModuleDecl {| moduleAddr := 900%N; getName := "__ObjC";
                  getASTContext := bridged_ctx |}.

Definition with_bridging : list ImportModuleTy :=
  [native 1%N "B"; bridging_header_module; native 2%N "A"].

(** An overlay [A] at two addresses, and the underlying module of [Foo]. *)
Definition with_overlay : list ImportModuleTy :=
  [native 1%N "B"; native 2%N "A"; Foo_underlying; native 4%N "A"].

Definition version_banner (v : Version) : string := "Swift version 5.7".

Definition macros : list ClangMacro :=
  [CLANG_MACRO "SWIFT_NOESCAPE" "" "__attribute__((noescape))";
   CLANG_MACRO_ALTERNATIVE "SWIFT_RUNTIME_NAME" "(X)"
     "__has_attribute(objc_runtime_name)"
     "__attribute__((objc_runtime_name(X)))" "";
   CLANG_MACRO_OBJC "SWIFT_CLASS_NAMED" "(SWIFT_NAME)" "SWIFT_CLASS";
   CLANG_MACRO_CXX "SWIFT_NOEXCEPT" "" "noexcept" "";
   CLANG_MACRO_CXX_BODY "SWIFT_CXX_INT_DEFINED" "# define SWIFT_CXX_INT 1";
   CLANG_MACRO_BODY "SWIFT_ENUM_ATTR" "# define SWIFT_ENUM_ATTR(x)"].

Definition simd : list SIMDMappedType :=
  [{| C_TYPE := "float"; SCALAR_TYPE := "float"; SWIFT_TYPE := "Float" |};
   {| C_TYPE := "int"; SCALAR_TYPE := "int"; SWIFT_TYPE := "Int32" |}].

(** One Objective-C function [doThing], nothing for C++. *)
Definition E : Collaborators :=
  {| getSwiftFullVersion := version_banner;
     SIMDMappedTypes_def := simd;
     ClangMacros_def := macros;
     printModuleContentsAsObjC := λ M,
       ("SWIFT_EXTERN void doThing(void);" +:+ nl, with_overlay);
     printModuleContentsAsCxx := λ M,
       ("namespace Foo {" +:+ nl +:+ "}" +:+ nl, []) |}.

(** The same run with every object at another address and the import set
    enumerated in another order. *)
Definition moved (a : ptr) : ptr := (a + 4096)%N.

Definition E_moved : Collaborators :=
  {| getSwiftFullVersion := version_banner;
     SIMDMappedTypes_def := simd;
     ClangMacros_def := macros;
     printModuleContentsAsObjC := λ M,
       ("SWIFT_EXTERN void doThing(void);" +:+ nl,
        reverse (ImportOrder.relabel moved <$> with_overlay));
     printModuleContentsAsCxx := λ M,
       ("namespace Foo {" +:+ nl +:+ "}" +:+ nl, []) |}.

End Samples.

(** * Properties *)

Import PrintAsClang.

(** ** Text and streams *)

Section Text.

Lemma string_app_assoc (a b c : string) : (a +:+ b) +:+ c = a +:+ (b +:+ c).
Proof.
  induction a as [|x a IH]; [reflexivity|].
  change (String x ((a +:+ b) +:+ c) = String x (a +:+ (b +:+ c))).
  by rewrite IH.
Qed.

Lemma string_app_nil_r (a : string) : a +:+ "" = a.
Proof.
  induction a as [|x a IH]; [reflexivity|].
  change (String x (a +:+ "") = String x a). by rewrite IH.
Qed.

Lemma string_app_nil_l (a : string) : "" +:+ a = a.
Proof. reflexivity. Qed.

Lemma string_app_cons x (a b : string) :
  String x a +:+ b = String x (a +:+ b).
Proof. reflexivity. Qed.

Lemma avoids_app (c : ascii) (a b : string) :
  avoids c (a +:+ b) = avoids c a && avoids c b.
Proof.
  induction a as [|x a IH]; [done|].
  rewrite string_app_cons. cbn [avoids]. by rewrite IH, andb_assoc.
Qed.

Lemma string_length_app (a b : string) :
  String.length (a +:+ b) = (String.length a + String.length b)%nat.
Proof.
  induction a as [|x a IH]; [done|].
  rewrite string_app_cons. cbn [String.length]. by rewrite IH.
Qed.

Lemma string_app_inv_r (a b c : string) : a +:+ c = b +:+ c → a = b.
Proof.
  revert b. induction a as [|x a IH]; intros [|y b] H.
  - done.
  - apply (f_equal String.length) in H.
    rewrite string_app_nil_l, string_app_cons in H. cbn [String.length] in H.
    rewrite string_length_app in H. lia.
  - apply (f_equal String.length) in H.
    rewrite string_app_nil_l, string_app_cons in H. cbn [String.length] in H.
    rewrite string_length_app in H. lia.
  - rewrite !string_app_cons in H. injection H as -> H. by rewrite (IH b H).
Qed.

Lemma write_write (out a b : string) : out << a << b = out << (a +:+ b).
Proof. unfold write. apply string_app_assoc. Qed.

Lemma write_empty (a : string) : "" << a = a.
Proof. reflexivity. Qed.

End Text.

(** Brings a chain of writes into the form [out +:+ (a +:+ (b +:+ ...))]. *)
Ltac stream_norm :=
  unfold write; rewrite ?string_app_assoc, ?string_app_nil_l.

(** ** [InputFile] *)

Module InputFileFacts.
Import InputFile.

Lemma empty_false_iff (s : string) : empty s = false ↔ s ≠ "".
Proof. destruct s; simpl; split; congruence. Qed.

Lemma convert_nonempty (name : string) :
  name ≠ "" →
  convertBufferNameFromLLVM_getFileOrSTDIN_toSwiftConventions name ≠ "".
Proof.
  intros Hne. unfold convertBufferNameFromLLVM_getFileOrSTDIN_toSwiftConventions.
  destruct (String.eqb name "<stdin>"); [discriminate|done].
Qed.

(** C10: an [InputFile] built from a non-empty name reports ["-"] as its
    file when the name is exactly ["<stdin>"] and the name itself
    otherwise, and its other three accessors return the constructor's
    arguments. *)
Theorem InputFile_accessors
    (name : string) (primary : bool) (buf : MemoryBufferPtr)
    (output : string) :
  name ≠ "" →
  ∃ f : InputFile,
    new name primary buf output = Ok f
    ∧ file f = Ok (if decide (name = "<stdin>") then "-" else name)
    ∧ isPrimary f = primary
    ∧ buffer f = buf
    ∧ outputFilename f = output.
Proof.
  intros Hne. eexists. split.
  - unfold new. apply empty_false_iff in Hne as ->. reflexivity.
  - repeat split. unfold file. cbn [Filename].
    pose proof (convert_nonempty name Hne) as Hc.
    apply empty_false_iff in Hc as ->. cbn.
    unfold convertBufferNameFromLLVM_getFileOrSTDIN_toSwiftConventions.
    change (mret ?x) with (Ok x).
    destruct (String.eqb_spec name "<stdin>"), (decide (name = "<stdin>"));
      congruence.
Qed.

Lemma InputFile_accessors_witness :
  ∃ f : InputFile,
    new "<stdin>" true (Some 4096%N) "main.o" = Ok f
    ∧ file f = Ok "-"
    ∧ isPrimary f = true
    ∧ buffer f = Some 4096%N
    ∧ outputFilename f = "main.o".
Proof. apply (InputFile_accessors "<stdin>" true (Some 4096%N) "main.o"). discriminate. Defined.

(** [setOutputFilename] replaces the output file name and nothing else. *)
Lemma setOutputFilename_spec (f : InputFile) (output : string) :
  outputFilename (setOutputFilename f output) = output
  ∧ file (setOutputFilename f output) = file f
  ∧ isPrimary (setOutputFilename f output) = isPrimary f
  ∧ buffer (setOutputFilename f output) = buffer f.
Proof. done. Qed.

End InputFileFacts.

(** ** The order of import entries *)

Module ImportOrderFacts.
Import ImportOrder.

(** *** Texts *)

Lemma string_compare_refl (a : string) : String.compare a a = Eq.
Proof.
  destruct (String.compare a a) eqn:Hc; [done|..];
    pose proof (String.compare_antisym a a) as Ha;
    rewrite Hc in Ha; discriminate.
Qed.

Lemma string_compare_Gt (a b : string) :
  String.compare a b = Gt ↔ String.compare b a = Lt.
Proof.
  rewrite (String.compare_antisym b a).
  destruct (String.compare a b); simpl; split; congruence.
Qed.

Lemma string_compare_trans (a b c : string) :
  String.compare a b = Lt → String.compare b c = Lt →
  String.compare a c = Lt.
Proof.
  revert b c. induction a as [|x a IH]; intros [|y b] [|z c]; simpl; try done.
  destruct (Ascii.compare x y) eqn:Hxy; try done.
  - apply Ascii.compare_eq_iff in Hxy as ->.
    destruct (Ascii.compare y z); try done. apply IH.
  - intros _. destruct (Ascii.compare y z) eqn:Hyz; try done.
    + apply Ascii.compare_eq_iff in Hyz as <-. by rewrite Hxy.
    + intros _. unfold Ascii.compare in *.
      rewrite N.compare_lt_iff in Hxy, Hyz.
      assert (H : (N_of_ascii x ?= N_of_ascii z)%N = Lt)
        by (apply N.compare_lt_iff; lia).
      by rewrite H.
Qed.

Global Instance string_lexico_po : StrictOrder (@lexico string _).
Proof.
  split.
  - intros a Ha. unfold lexico, string_lexico in Ha.
    by rewrite string_compare_refl in Ha.
  - intros a b c. apply string_compare_trans.
Qed.

Global Instance string_lexico_trichotomy : TrichotomyT (@lexico string _).
Proof.
  red; refine (λ a b,
    match String.compare a b as c return String.compare a b = c → _ with
    | Lt => λ H, inleft (left H)
    | Eq => λ H, inleft (right (String.compare_eq_iff _ _ H))
    | Gt => λ H, inright (proj1 (string_compare_Gt _ _) H)
    end eq_refl).
Defined.

Lemma StringRef_lt_spec (a b : string) :
  StringRef_lt a b = true ↔ lexico a b.
Proof.
  unfold StringRef_lt, StringRef_compare, lexico, string_lexico.
  destruct (String.compare a b); simpl; split; (done || lia || congruence).
Qed.

Lemma StringRef_lt_false (a b : string) :
  StringRef_lt a b = false ↔ ¬ lexico a b.
Proof. rewrite <- StringRef_lt_spec. by destruct (StringRef_lt a b). Qed.

Lemma StringRef_compare_spec (a b : string) :
  (StringRef_compare a b = -1 ∧ lexico a b)
  ∨ (StringRef_compare a b = 0 ∧ a = b)
  ∨ (StringRef_compare a b = 1 ∧ lexico b a).
Proof.
  unfold StringRef_compare, lexico, string_lexico.
  destruct (String.compare a b) eqn:Hc.
  - right; left. split; [done|]. by apply String.compare_eq_iff.
  - by left.
  - right; right. split; [done|]. by apply string_compare_Gt.
Qed.

(** *** Paths *)

Lemma list_lexico_cons (x y : string) (l r : list string) :
  lexico (x :: l) (y :: r) ↔ lexico x y ∨ (x = y ∧ lexico l r).
Proof. reflexivity. Qed.

Lemma list_lexico_nil_r (l : list string) : ¬ lexico l [].
Proof. destruct l; intros []. Qed.

Lemma lexicographical_compare_spec (l r : list string) :
  lexicographical_compare l r = true ↔ lexico l r.
Proof.
  revert r. induction l as [|x l IH]; intros [|y r]; simpl; try done.
  rewrite list_lexico_cons.
  destruct (StringRef_lt x y) eqn:Hxy.
  { apply StringRef_lt_spec in Hxy. tauto. }
  apply StringRef_lt_false in Hxy.
  destruct (StringRef_lt y x) eqn:Hyx.
  { apply StringRef_lt_spec in Hyx. split; [done|].
    intros [?|[-> _]]; [done|]. by apply (irreflexivity lexico y) in Hyx. }
  apply StringRef_lt_false in Hyx.
  rewrite IH. split; [|tauto].
  intros Hlr. right. split; [|done].
  destruct (trichotomyT lexico x y) as [[?|?]|?]; done.
Qed.

Lemma forward_path_sub (a : ptr) (n : string) (p : ClangModule) :
  forward_path (SubModule a n p) = forward_path p ++ [n].
Proof. unfold forward_path. simpl. by rewrite reverse_cons. Qed.

Lemma forward_path_top (c : ClangModule) :
  ∃ rest, forward_path c = getTopLevelModuleName c :: rest
          ∧ (isSubModule c = true → rest ≠ []).
Proof.
  induction c as [a n|a n p [rest [IH _]]].
  - exists []. split; [done|]. discriminate.
  - exists (rest ++ [n]). rewrite forward_path_sub, IH. split; [done|].
    intros _. by destruct rest.
Qed.

Lemma forward_path_length (c : ClangModule) :
  isSubModule c = true → (2 ≤ length (forward_path c))%nat.
Proof.
  intros Hs. destruct (forward_path_top c) as (rest & -> & Hr).
  specialize (Hr Hs). destruct rest; [done|]. simpl. lia.
Qed.

Lemma ReverseFullNameIterator_eq (a b : ClangModule) :
  ReverseFullNameIterator a = ReverseFullNameIterator b
  ↔ forward_path a = forward_path b.
Proof.
  unfold forward_path. split; [by intros ->|].
  intros H. by apply (inj reverse).
Qed.

(** *** The comparator *)

Lemma compare_native_native (a b : ModuleDecl) :
  compareImportModulesByName (ofModuleDecl a) (ofModuleDecl b)
  = Ok (StringRef_compare (getName a) (getName b)).
Proof. reflexivity. Qed.

Lemma compare_clang_native (c : ClangModule) (m : ModuleDecl) :
  isSubModule c = true →
  compareImportModulesByName (ofClangModule c) (ofModuleDecl m)
  = Ok (if StringRef_lt (getTopLevelModuleName c) (getName m)
        then -1 else 1).
Proof.
  intros Hc. unfold compareImportModulesByName,
    compareImportModulesByName_clang. rewrite Hc. simpl.
  by destruct (StringRef_lt _ _).
Qed.

Lemma compare_native_clang (m : ModuleDecl) (c : ClangModule) :
  isSubModule c = true →
  compareImportModulesByName (ofModuleDecl m) (ofClangModule c)
  = Ok (if StringRef_lt (getTopLevelModuleName c) (getName m)
        then 1 else -1).
Proof.
  intros Hc. unfold compareImportModulesByName,
    compareImportModulesByName_clang. rewrite Hc. simpl.
  by destruct (StringRef_lt _ _).
Qed.

Lemma compare_clang_clang (a b : ClangModule) :
  isSubModule a = true → isSubModule b = true →
  forward_path a ≠ forward_path b →
  compareImportModulesByName (ofClangModule a) (ofClangModule b)
  = Ok (if lexicographical_compare (forward_path a) (forward_path b)
        then -1 else 1).
Proof.
  intros Ha Hb Hne. unfold compareImportModulesByName,
    compareImportModulesByName_clang. rewrite Ha, Hb. simpl.
  unfold SmallVector_ne. rewrite bool_decide_eq_false_2; simpl.
  - fold (forward_path a) (forward_path b). by destruct (lexicographical_compare _ _).
  - by rewrite ReverseFullNameIterator_eq.
Qed.

Lemma compare_clang_clang_same (a b : ClangModule) :
  isSubModule a = true → isSubModule b = true →
  forward_path a = forward_path b →
  compareImportModulesByName (ofClangModule a) (ofClangModule b)
  = AssertionFailure same_full_name_msg.
Proof.
  intros Ha Hb He. unfold compareImportModulesByName,
    compareImportModulesByName_clang. rewrite Ha, Hb. simpl.
  unfold SmallVector_ne. rewrite bool_decide_eq_true_2; [done|].
  by rewrite ReverseFullNameIterator_eq.
Qed.

Lemma compare_top_level_l (a : ClangModule) (y : ImportModuleTy) :
  isSubModule a = false →
  compareImportModulesByName (ofClangModule a) y
  = AssertionFailure top_level_msg.
Proof.
  intros Ha. unfold compareImportModulesByName,
    compareImportModulesByName_clang. by rewrite Ha.
Qed.

Lemma compare_top_level_r (x : ImportModuleTy) (b : ClangModule) :
  isSubModule b = false →
  compareImportModulesByName x (ofClangModule b)
  = AssertionFailure top_level_msg.
Proof.
  intros Hb. destruct x as [m|a]; unfold compareImportModulesByName,
    compareImportModulesByName_clang.
  - by rewrite Hb.
  - destruct (isSubModule a); [|done]. by rewrite Hb.
Qed.

(** The keys of a native module and of a submodule, compared. *)
Lemma key_native_clang (m : ModuleDecl) (c : ClangModule) :
  isSubModule c = true →
  (lexico (forward_path c) [getName m]
     ↔ lexico (getTopLevelModuleName c) (getName m))
  ∧ (lexico [getName m] (forward_path c)
     ↔ ¬ lexico (getTopLevelModuleName c) (getName m)).
Proof.
  intros Hc. destruct (forward_path_top c) as (rest & -> & Hr).
  specialize (Hr Hc). rewrite !list_lexico_cons. split.
  - split; [|tauto]. intros [?|[_ H]]; [done|]. by destruct rest.
  - split.
    + intros [H|[-> _]] H'.
      * by apply (irreflexivity lexico (getName m)); trans (getTopLevelModuleName c).
      * by apply (irreflexivity lexico) in H'.
    + intros Hn.
      destruct (trichotomyT lexico (getTopLevelModuleName c) (getName m))
        as [[?| ->]|?]; [done|right|by left].
      split; [done|]. by destruct rest.
Qed.

Lemma key_native_clang_ne (m : ModuleDecl) (c : ClangModule) :
  isSubModule c = true → [getName m] ≠ forward_path c.
Proof.
  intros Hc He. apply forward_path_length in Hc. rewrite <- He in Hc.
  simpl in Hc. lia.
Qed.

(** Whenever the comparator answers, its answer is the order of the two
    keys; it answers 0 only for two native modules of one name. *)
Lemma compare_key (x y : ImportModuleTy) (c : Z) :
  compareImportModulesByName x y = Ok c →
  (c = -1 ∧ lexico (sort_key x) (sort_key y))
  ∨ (c = 0 ∧ sort_key x = sort_key y
     ∧ is_native x = true ∧ is_native y = true)
  ∨ (c = 1 ∧ lexico (sort_key y) (sort_key x)).
Proof.
  destruct x as [a|a], y as [b|b]; cbn [sort_key is_native].
  - rewrite compare_native_native. intros [= <-].
    destruct (StringRef_compare_spec (getName a) (getName b))
      as [[-> H]|[[-> H]|[-> H]]].
    + left. split; [done|]. rewrite list_lexico_cons. by left.
    + right; left. by rewrite H.
    + right; right. split; [done|]. rewrite list_lexico_cons. by left.
  - destruct (isSubModule b) eqn:Hb.
    2: { by rewrite compare_top_level_r. }
    rewrite compare_native_clang by done.
    destruct (key_native_clang a b Hb) as [H1 H2].
    destruct (StringRef_lt _ _) eqn:Hlt; intros [= <-].
    + right; right. split; [done|]. apply H1. by apply StringRef_lt_spec.
    + left. split; [done|]. apply H2. by apply StringRef_lt_false.
  - destruct (isSubModule a) eqn:Ha.
    2: { by rewrite compare_top_level_l. }
    rewrite compare_clang_native by done.
    destruct (key_native_clang b a Ha) as [H1 H2].
    destruct (StringRef_lt _ _) eqn:Hlt; intros [= <-].
    + left. split; [done|]. apply H1. by apply StringRef_lt_spec.
    + right; right. split; [done|]. apply H2. by apply StringRef_lt_false.
  - destruct (isSubModule a) eqn:Ha.
    2: { by rewrite compare_top_level_l. }
    destruct (isSubModule b) eqn:Hb.
    2: { by rewrite compare_top_level_r. }
    destruct (decide (forward_path a = forward_path b)) as [He|Hne].
    { by rewrite compare_clang_clang_same. }
    rewrite compare_clang_clang by done.
    destruct (lexicographical_compare _ _) eqn:Hl; intros [= <-].
    + left. split; [done|]. by apply lexicographical_compare_spec.
    + right; right. split; [done|].
      destruct (trichotomyT lexico (forward_path a) (forward_path b))
        as [[H|H]|H]; [|done..].
      apply lexicographical_compare_spec in H. congruence.
Qed.

Lemma compare_Ok_iff (x y : ImportModuleTy) :
  (∃ c, compareImportModulesByName x y = Ok c) ↔ comparable x y.
Proof.
  unfold comparable.
  destruct x as [a|a], y as [b|b]; cbn [sort_key is_native wf_entry].
  - rewrite compare_native_native. split; [done|eauto].
  - destruct (isSubModule b) eqn:Hb.
    + rewrite compare_native_clang by done. split; [done|eauto].
    + rewrite compare_top_level_r by done. split; [by intros [? ?]|].
      by intros (_ & ? & _).
  - destruct (isSubModule a) eqn:Ha.
    + rewrite compare_clang_native by done. split; [done|eauto].
    + rewrite compare_top_level_l by done. split; [by intros [? ?]|].
      by intros (? & _).
  - destruct (isSubModule a) eqn:Ha.
    2: { rewrite compare_top_level_l by done. split; [by intros [? ?]|].
         by intros (? & _). }
    destruct (isSubModule b) eqn:Hb.
    2: { rewrite compare_top_level_r by done. split; [by intros [? ?]|].
         by intros (_ & ? & _). }
    destruct (decide (forward_path a = forward_path b)) as [He|Hne].
    + rewrite compare_clang_clang_same by done. split; [by intros [? ?]|].
      intros (_ & _ & H). by destruct H.
    + rewrite compare_clang_clang by done. split; [done|eauto].
Qed.

Lemma comparable_sym (x y : ImportModuleTy) : comparable x y → comparable y x.
Proof. unfold comparable. intros (? & ? & H). repeat split; [done..|]. intros ?? He. by apply H. Qed.

(** Keys that are equal belong to entries of one kind. *)
Lemma sort_key_eq_kind (x y : ImportModuleTy) :
  wf_entry x = true → wf_entry y = true → sort_key x = sort_key y →
  is_native x = is_native y.
Proof.
  destruct x as [a|a], y as [b|b]; simpl; try done; intros Hx Hy He.
  - by apply key_native_clang_ne in He.
  - symmetry in He. by apply key_native_clang_ne in He.
Qed.

Lemma import_le_spec (x y : ImportModuleTy) :
  import_le x y ↔ comparable x y ∧ ¬ lexico (sort_key y) (sort_key x).
Proof.
  unfold import_le, cmp_le. split.
  - intros (c & Hc & Hle). split; [apply compare_Ok_iff; eauto|].
    intros Hlt. destruct (compare_key _ _ _ Hc)
      as [[-> H]|[(-> & H & _)|[-> H]]]; [| |lia].
    + by apply (irreflexivity lexico (sort_key x)); trans (sort_key y).
    + rewrite H in Hlt. by apply (irreflexivity lexico) in Hlt.
  - intros [Hc Hn]. apply compare_Ok_iff in Hc as [c Hc]. exists c.
    split; [done|].
    destruct (compare_key _ _ _ Hc) as [[-> H]|[(-> & H & _)|[-> H]]];
      [lia|lia|done].
Qed.

Global Instance import_le_trans : Transitive import_le.
Proof.
  intros x y z. rewrite !import_le_spec.
  intros [(Hx & Hy & Hxy) Hlxy] [(_ & Hz & Hyz) Hlyz].
  assert (Hxz : ¬ lexico (sort_key z) (sort_key x)).
  { intros H. destruct (trichotomyT lexico (sort_key x) (sort_key y))
      as [[H'|H']|H']; [| |done].
    - apply Hlyz. by trans (sort_key x).
    - apply Hlyz. by rewrite <- H'. }
  split; [|done]. repeat split; [done..|].
  intros Hnx Hnz He.
  assert (sort_key y = sort_key x) as Hyx.
  { destruct (trichotomyT lexico (sort_key x) (sort_key y))
      as [[H'|H']|H']; [|done..].
    rewrite He in H'. done. }
  assert (is_native y = false) as Hny.
  { rewrite <- Hnx. by apply sort_key_eq_kind. }
  by apply Hxy.
Qed.

Lemma import_le_flip (x y : ImportModuleTy) (c : Z) :
  compareImportModulesByName x y = Ok c → ¬ c <= 0 → import_le y x.
Proof.
  intros Hc Hpos. apply import_le_spec. split.
  - apply comparable_sym, compare_Ok_iff. eauto.
  - destruct (compare_key _ _ _ Hc) as [[-> H]|[(-> & H & _)|[-> H]]];
      [lia|lia|].
    intros H'. by apply (irreflexivity lexico (sort_key x)); trans (sort_key y).
Qed.

End ImportOrderFacts.

(** ** Sorting *)

Import ImportOrder ImportOrderFacts.

Section SortingFacts.
Context {A : Type} (cmp : A → A → result Z).
Hypothesis cmp_le_trans : Transitive (cmp_le cmp).
Hypothesis cmp_flip :
  ∀ x y c, cmp x y = Ok c → ¬ c <= 0 → cmp_le cmp y x.

Lemma insert_sorted_outcome (x : A) (s s' : list A) :
  insert_sorted cmp x s = Ok s' → sorted_by cmp s →
  x :: s ≡ₚ s' ∧ sorted_by cmp s'.
Proof.
  unfold sorted_by. revert s'.
  induction s as [|y s IH]; intros s'; simpl.
  - intros [= <-] _. split; [done|]. repeat constructor.
  - destruct (cmp x y) as [c|msg] eqn:Hc; simpl; [|done].
    destruct (Z.leb_spec c 0) as [Hle|Hgt].
    + intros [= <-] Hs. split; [done|].
      assert (cmp_le cmp x y) as Hxy by (exists c; done).
      constructor; [done|]. constructor; [done|].
      apply StronglySorted_inv in Hs as [_ Hall].
      eapply Forall_impl; [exact Hall|]. intros z Hz. by trans y.
    + destruct (insert_sorted cmp x s) as [t|msg] eqn:Ht; simpl; [|done].
      intros [= <-] Hs. apply StronglySorted_inv in Hs as [Hs Hall].
      destruct (IH t eq_refl Hs) as [Hp Hst]. split.
      * rewrite <- Hp. apply Permutation_swap.
      * constructor; [done|]. rewrite <- Hp. constructor; [|done].
        apply (cmp_flip x y c); [done|lia].
Qed.

Lemma array_pod_sort_outcome (l s : list A) :
  array_pod_sort cmp l = Ok s → sort_outcome cmp l s.
Proof.
  unfold sort_outcome. revert s. induction l as [|x l IH]; intros s; simpl.
  - intros [= <-]. split; [done|]. constructor.
  - destruct (array_pod_sort cmp l) as [t|msg]; simpl; [|done].
    intros Hi. destruct (IH t eq_refl) as [Hp Hs].
    destruct (insert_sorted_outcome x t s Hi Hs) as [Hp' Hs'].
    split; [|done]. by rewrite Hp.
Qed.

Lemma insert_sorted_Ok (x : A) (s : list A) :
  Forall (answered cmp x) s → ∃ s', insert_sorted cmp x s = Ok s'.
Proof.
  induction 1 as [|y s [c Hc] _ [t Ht]]; simpl; [by eexists|].
  rewrite Hc. simpl. destruct (c <=? 0); [by eexists|].
  rewrite Ht. by eexists.
Qed.

Lemma array_pod_sort_Ok (l : list A) :
  StronglySorted (answered cmp) l → ∃ s, array_pod_sort cmp l = Ok s.
Proof.
  induction 1 as [|x l _ [t Ht] Hall]; simpl; [by eexists|].
  rewrite Ht. simpl. apply insert_sorted_Ok.
  destruct (array_pod_sort_outcome l t Ht) as [Hp _]. by rewrite <- Hp.
Qed.

End SortingFacts.

(** ** The import set and the loop of [writeImports] *)

Section ImportFacts.
Implicit Types (l s : list ImportModuleTy) (x y : ImportModuleTy).

Lemma import_sort_outcome l s :
  array_pod_sort compareImportModulesByName l = Ok s →
  sort_outcome compareImportModulesByName l s.
Proof. exact (array_pod_sort_outcome _ import_le_trans import_le_flip l s). Qed.

Lemma elem_of_clang_paths l (p : list string) :
  p ∈ clang_paths l ↔ ∃ c, ofClangModule c ∈ l ∧ forward_path c = p.
Proof.
  unfold clang_paths. rewrite list_elem_of_omap. split.
  - intros ([m|c] & Hin & He); [done|]. exists c. by injection He as <-.
  - intros (c & Hin & <-). by exists (ofClangModule c).
Qed.

Lemma imports_wf_cons x l :
  imports_wf (x :: l) → wf_entry x = true ∧ imports_wf l
    ∧ Forall (comparable x) l.
Proof.
  intros [Hall Hnd]. apply Forall_cons in Hall as [Hx Hall].
  assert (NoDup (clang_paths l)) as Hnd'.
  { destruct x; simpl in Hnd; [done|]. by apply NoDup_cons in Hnd as [_ ?]. }
  split; [done|]. split; [done|].
  apply Forall_forall. intros y Hy. repeat split; [done|..].
  - by eapply Forall_forall in Hall.
  - destruct x as [m|c], y as [m'|c']; simpl; try done.
    intros _ _ He. apply NoDup_cons in Hnd as [Hn _]. apply Hn.
    apply elem_of_clang_paths. by exists c'.
Qed.

Lemma imports_wf_answered l :
  imports_wf l → StronglySorted (answered compareImportModulesByName) l.
Proof.
  induction l as [|x l IH]; [constructor|].
  intros (Hx & Hl & Hall)%imports_wf_cons. constructor; [by apply IH|].
  eapply Forall_impl; [exact Hall|]. intros y Hy. by apply compare_Ok_iff.
Qed.

Global Instance imports_wf_perm : Proper ((≡ₚ) ==> iff) imports_wf.
Proof.
  intros l1 l2 Hp. unfold imports_wf, clang_paths. by rewrite Hp.
Qed.

Lemma import_le_comparable x y : import_le x y → comparable x y.
Proof. by intros [? _]%import_le_spec. Qed.

Lemma sorted_clang_paths l :
  sorted_by compareImportModulesByName l → NoDup (clang_paths l).
Proof.
  induction 1 as [|x l _ IH Hall]; [constructor|].
  destruct x as [m|c]; simpl; [done|]. constructor; [|done].
  intros (c' & Hin & He)%elem_of_clang_paths.
  eapply Forall_forall in Hall; [|done].
  apply import_le_comparable in Hall as (_ & _ & Hne). by apply Hne.
Qed.

Lemma sorted_imports_wf l :
  sorted_by compareImportModulesByName l →
  Forall (λ i, wf_entry i = true) l → imports_wf l.
Proof. intros Hs Hall. split; [done|]. by apply sorted_clang_paths. Qed.

(** *** The loop *)

Lemma interleave_dot_ext (out : raw_ostream) (path : list string) :
  interleave_dot out path = out +:+ interleave_dot "" path.
Proof.
  revert out. induction path as [|x [|y path] IH]; intros out.
  - by rewrite string_app_nil_r.
  - done.
  - change (interleave_dot (out << x << ".") (y :: path)
            = out +:+ interleave_dot ("" << x << ".") (y :: path)).
    rewrite (IH (out << x << ".")), (IH ("" << x << ".")).
    stream_norm. done.
Qed.

Lemma has_counterpart_true (M : ModuleDecl) (bh : string) l :
  has_counterpart M bh l = true ↔ ∃ y, y ∈ l ∧ is_counterpart M bh y = true.
Proof.
  unfold has_counterpart. rewrite existsb_exists.
  by setoid_rewrite list_elem_of_In.
Qed.

Lemma has_counterpart_perm (M : ModuleDecl) (bh : string) l1 l2 :
  l1 ≡ₚ l2 → has_counterpart M bh l1 = has_counterpart M bh l2.
Proof.
  intros Hp. apply eq_true_iff_eq. rewrite !has_counterpart_true.
  by setoid_rewrite Hp.
Qed.

Lemma writeImports_loop_spec (M : ModuleDecl) (bh : string)
    (out : raw_ostream) (seen : gset Identifier) (inc : bool) l :
  Forall (λ i, wf_entry i = true) l →
  ∃ seen',
    writeImports_loop M bh (out, seen, inc) l
    = Ok (out +:+ concat_text (import_statement <$> emitted M bh seen l),
          seen', inc || has_counterpart M bh l).
Proof.
  intros Hall. revert out seen inc.
  induction Hall as [|x l Hx _ IH]; intros out seen inc.
  - exists seen. simpl. by rewrite string_app_nil_r, orb_false_r.
  - destruct x as [m|c]; cbn [writeImports_loop writeImports_body emitted
      has_counterpart existsb is_counterpart].
    + destruct (isUnderlyingModule M bh m) eqn:Hu.
      * cbn. destruct (IH out seen true) as [seen' ->].
        exists seen'. by rewrite orb_true_r.
      * unfold SmallPtrSet_insert.
        destruct (bool_decide_reflect (getName m ∈ seen)) as [Hin|Hin]; cbn.
        -- rewrite (subseteq_union_1_L {[getName m]} seen)
             by (by apply singleton_subseteq_l).
           apply IH.
        -- destruct (IH (out << "@import " << getName m << ";" << nl)
                       ({[getName m]} ∪ seen) inc) as [seen' ->].
           exists seen'. do 2 f_equal. f_equal.
           unfold import_statement.
           cbn [interleave_dot]. stream_norm. done.
    + cbn in Hx. rewrite Hx. cbn.
      destruct (IH (printForward (out << "@import ") c << ";" << nl)
                  seen inc) as [seen' ->].
      exists seen'. do 2 f_equal. f_equal.
      unfold import_statement, printForward.
      fold (forward_path c). rewrite interleave_dot_ext.
      stream_norm. done.
Qed.

Lemma writeImports_loop_wf (M : ModuleDecl) (bh : string)
    (st st' : loop_state) l :
  writeImports_loop M bh st l = Ok st' → Forall (λ i, wf_entry i = true) l.
Proof.
  revert st. induction l as [|x l IH]; intros st; [constructor|].
  cbn [writeImports_loop].
  destruct (writeImports_body M bh st x) as [st1|msg] eqn:Hb; [|done].
  cbn. intros Hl. constructor; [|by eapply IH].
  destruct x as [m|c]; [done|]. destruct st as [[out seen] inc].
  cbn in Hb. cbn. by destruct (isSubModule c).
Qed.

(** *** The statements the loop writes *)

Lemma elem_of_emitted (M : ModuleDecl) (bh : string)
    (seen : gset Identifier) l (k : list string) :
  k ∈ emitted M bh seen l
  ↔ ∃ y, y ∈ l ∧ sort_key y = k ∧ emits M bh seen y.
Proof.
  revert seen. induction l as [|x l IH]; intros seen.
  { split; [by intros ?%elem_of_nil|]. by intros (y & ?%elem_of_nil & _). }
  destruct x as [m|c]; cbn [emitted].
  - destruct (isUnderlyingModule M bh m) eqn:Hu;
      [|destruct (bool_decide_reflect (getName m ∈ seen)) as [Hin|Hin]].
    + rewrite IH. split.
      * intros (y & Hy & Hk & He). exists y. by rewrite elem_of_cons; auto.
      * intros (y & [->|Hy]%elem_of_cons & Hk & He); [|by eauto].
        cbn in He. destruct He. congruence.
    + rewrite IH. split.
      * intros (y & Hy & Hk & He). exists y. by rewrite elem_of_cons; auto.
      * intros (y & [->|Hy]%elem_of_cons & Hk & He); [|by eauto].
        cbn in He. by destruct He.
    + rewrite elem_of_cons, IH. split.
      * intros [->|(y & Hy & Hk & He)].
        -- exists (ofModuleDecl m). rewrite elem_of_cons.
           split; [by left|]. split; [done|]. by split.
        -- exists y. rewrite elem_of_cons. split; [by auto|]. split; [done|].
           destruct y as [m'|c']; [|done]. cbn in *.
           destruct He as [? He]. split; [done|].
           by apply not_elem_of_union in He as [_ ?].
      * intros (y & [->|Hy]%elem_of_cons & Hk & He); [by left|].
        destruct y as [m'|c']; cbn in Hk, He.
        -- destruct (decide (getName m' = getName m)) as [Hn|Hn].
           { left. by rewrite <- Hk, Hn. }
           right. exists (ofModuleDecl m'). split; [done|]. split; [done|].
           cbn. destruct He as [? He]. split; [done|].
           apply not_elem_of_union. split; [|done].
           by apply not_elem_of_singleton.
        -- right. by exists (ofClangModule c').
  - rewrite elem_of_cons, IH. split.
    + intros [->|(y & Hy & Hk & He)].
      * exists (ofClangModule c). rewrite elem_of_cons.
        split; [by left|]. by split.
      * exists y. rewrite elem_of_cons. by auto.
    + intros (y & [->|Hy]%elem_of_cons & Hk & He); [by left|].
      right. by eauto.
Qed.

Lemma import_le_strict x y :
  import_le x y → sort_key x = sort_key y →
  is_native x = true ∧ is_native y = true.
Proof.
  intros ((Hx & Hy & Hne) & _)%import_le_spec He.
  pose proof (sort_key_eq_kind x y Hx Hy He) as Hk.
  destruct (is_native x) eqn:Hnx; [by rewrite <- Hk|].
  destruct Hne; [done|by rewrite <- Hk|done].
Qed.

(** Along a sorted list the statements come in increasing order, none
    twice. *)
Lemma emitted_sorted (M : ModuleDecl) (bh : string)
    (seen : gset Identifier) l :
  sorted_by compareImportModulesByName l →
  StronglySorted lexico (emitted M bh seen l).
Proof.
  intros Hs. revert seen.
  induction Hs as [|x l _ IH Hall]; intros seen; [constructor|].
  assert (∀ seen' k, k ∈ emitted M bh seen' l →
                     sort_key x = k →
                     ∃ m m', x = ofModuleDecl m ∧ getName m' = getName m
                             ∧ getName m' ∉ seen') as Hsame.
  { intros seen' k (y & Hy & Hk & He)%elem_of_emitted Hx.
    eapply Forall_forall in Hall; [|done].
    destruct (import_le_strict x y Hall) as [Hnx Hny]; [congruence|].
    destruct x as [m|?], y as [m'|?]; try done.
    exists m, m'. cbn in Hk, Hx, He. split; [done|]. split; [congruence|tauto]. }
  assert (∀ seen' k, k ∈ emitted M bh seen' l →
                     sort_key x ≠ k → lexico (sort_key x) k) as Hlt.
  { intros seen' k (y & Hy & Hk & He)%elem_of_emitted Hne.
    eapply Forall_forall in Hall; [|done].
    apply import_le_spec in Hall as [_ Hn]. rewrite Hk in Hn.
    destruct (trichotomyT lexico (sort_key x) k) as [[?|?]|?]; done. }
  destruct x as [m|c]; cbn [emitted].
  - destruct (isUnderlyingModule M bh m); [apply IH|].
    destruct (bool_decide (getName m ∈ seen)); [apply IH|].
    constructor; [apply IH|]. apply Forall_forall. intros k Hk.
    apply (Hlt _ _ Hk). intros Hx.
    destruct (Hsame _ _ Hk Hx) as (m1 & m' & [= <-] & Hn & Hnot).
    apply Hnot, elem_of_union_l, elem_of_singleton. done.
  - constructor; [apply IH|]. apply Forall_forall. intros k Hk.
    apply (Hlt _ _ Hk). intros Hx.
    by destruct (Hsame _ _ Hk Hx) as (m1 & m' & ? & _).
Qed.

Lemma strictly_sorted_NoDup (ks : list (list string)) :
  StronglySorted lexico ks → NoDup ks.
Proof.
  induction 1 as [|k ks _ IH Hall]; constructor; [|done].
  intros Hin. eapply Forall_forall in Hall; [|done].
  by apply (irreflexivity lexico) in Hall.
Qed.

Lemma strictly_sorted_unique (ks1 ks2 : list (list string)) :
  StronglySorted lexico ks1 → StronglySorted lexico ks2 →
  (∀ k, k ∈ ks1 ↔ k ∈ ks2) → ks1 = ks2.
Proof.
  intros H1 H2 Hiff. apply (StronglySorted_unique_strong lexico); [|done..|].
  - intros k1 k2 _ _ H12 H21.
    destruct (irreflexivity lexico k1). by trans k2.
  - by apply NoDup_Permutation; [apply strictly_sorted_NoDup..|].
Qed.

(** *** The closed form [import_paths] *)

Lemma path_le_spec (a b : list string) : path_le a b ↔ ¬ lexico b a.
Proof.
  unfold path_le. rewrite <- lexicographical_compare_spec.
  by destruct (lexicographical_compare b a).
Qed.

Global Instance path_le_trans : Transitive path_le.
Proof.
  intros a b c. rewrite !path_le_spec. intros Hab Hbc Hca.
  destruct (trichotomyT lexico a b) as [[H|H]|H]; [| |done].
  - apply Hbc. by trans a.
  - apply Hbc. by rewrite <- H.
Qed.

Global Instance path_le_total : Total path_le.
Proof.
  intros a b. rewrite !path_le_spec.
  destruct (trichotomyT lexico a b) as [[H|H]|H].
  - left. intros H'. destruct (irreflexivity lexico a). by trans b.
  - left. rewrite H. apply (irreflexivity lexico).
  - right. intros H'. destruct (irreflexivity lexico a). by trans b.
Qed.

Lemma sorted_NoDup_strict (ks : list (list string)) :
  StronglySorted path_le ks → NoDup ks → StronglySorted lexico ks.
Proof.
  induction 1 as [|k ks _ IH Hall]; [constructor|].
  intros [Hnot Hnd]%NoDup_cons. constructor; [by apply IH|].
  apply Forall_forall. intros k' Hk'.
  eapply Forall_forall in Hall; [|done]. apply path_le_spec in Hall.
  destruct (trichotomyT lexico k k') as [[?|?]|?]; [done|congruence|done].
Qed.

Lemma import_paths_sorted (M : ModuleDecl) (bh : string) l :
  StronglySorted lexico (import_paths M bh l).
Proof.
  unfold import_paths. apply sorted_NoDup_strict.
  - apply StronglySorted_merge_sort; apply _.
  - rewrite merge_sort_Permutation. apply NoDup_remove_dups.
Qed.

Lemma elem_of_import_paths (M : ModuleDecl) (bh : string) l
    (k : list string) :
  k ∈ import_paths M bh l
  ↔ ∃ y, y ∈ l ∧ sort_key y = k ∧ is_counterpart M bh y = false.
Proof.
  unfold import_paths.
  rewrite merge_sort_Permutation, elem_of_remove_dups, list_elem_of_fmap.
  setoid_rewrite list_elem_of_filter. split.
  - intros (y & -> & Hc & Hy). by exists y.
  - intros (y & Hy & <- & Hc). by exists y.
Qed.

Global Instance import_paths_perm (M : ModuleDecl) (bh : string) :
  Proper ((≡ₚ) ==> (=)) (import_paths M bh).
Proof.
  intros l1 l2 Hp. apply strictly_sorted_unique;
    [apply import_paths_sorted..|].
  intros k. rewrite !elem_of_import_paths. by setoid_rewrite Hp.
Qed.

Lemma emits_empty (M : ModuleDecl) (bh : string) y :
  emits M bh ∅ y ↔ is_counterpart M bh y = false.
Proof.
  destruct y; cbn; [|done]. split; [tauto|].
  intros H. split; [done|]. apply not_elem_of_empty.
Qed.

(** What the loop writes for a sorted list is the closed form. *)
Lemma emitted_import_paths (M : ModuleDecl) (bh : string) l :
  sorted_by compareImportModulesByName l →
  emitted M bh ∅ l = import_paths M bh l.
Proof.
  intros Hs. apply strictly_sorted_unique.
  - by apply emitted_sorted.
  - apply import_paths_sorted.
  - intros k. rewrite elem_of_emitted, elem_of_import_paths.
    by setoid_rewrite emits_empty.
Qed.

(** *** [writeImports] in closed form *)

Lemma writeImports_sorted_spec (out : raw_ostream) s
    (M : ModuleDecl) (bh : string) :
  sorted_by compareImportModulesByName s →
  Forall (λ i, wf_entry i = true) s →
  writeImports_sorted out s M bh
  = Ok (out +:+ imports_tail M bh (import_paths M bh s)
                  (has_counterpart M bh s)).
Proof.
  intros Hs Hall. unfold writeImports_sorted.
  destruct (writeImports_loop_spec M bh out ∅ false s Hall) as [seen' ->].
  cbn. rewrite (emitted_import_paths M bh s Hs). unfold imports_tail.
  destruct (has_counterpart M bh s).
  - unfold underlying_include. destruct (empty bh); cbn; f_equal; stream_norm; done.
  - cbn. f_equal. stream_norm. by rewrite string_app_nil_r.
Qed.

Lemma writeImports_sorted_wf (out t : raw_ostream) s
    (M : ModuleDecl) (bh : string) :
  writeImports_sorted out s M bh = Ok t → Forall (λ i, wf_entry i = true) s.
Proof.
  unfold writeImports_sorted.
  destruct (writeImports_loop M bh (out, ∅, false) s) as [st|msg] eqn:Hl;
    [|done].
  intros _. by eapply writeImports_loop_wf.
Qed.

Lemma writeImports_unfold (out : raw_ostream) l
    (M : ModuleDecl) (bh : string) :
  writeImports out l M bh
  = s ← array_pod_sort compareImportModulesByName l;
    writeImports_sorted (out +:+ imports_opening) s M bh.
Proof.
  unfold writeImports. do 2 f_equal. unfold imports_opening.
  stream_norm. done.
Qed.

Lemma writeImports_spec (out : raw_ostream) l
    (M : ModuleDecl) (bh : string) :
  imports_wf l →
  writeImports out l M bh
  = Ok (out +:+ imports_text M bh (import_paths M bh l)
                  (has_counterpart M bh l)).
Proof.
  intros Hwf. rewrite writeImports_unfold.
  destruct (array_pod_sort_Ok _ import_le_trans import_le_flip l
              (imports_wf_answered l Hwf)) as [s Hs].
  rewrite Hs. cbn.
  destruct (import_sort_outcome l s Hs) as [Hp Hsorted].
  rewrite writeImports_sorted_spec; [|done|].
  - unfold imports_text. rewrite string_app_assoc.
    by rewrite (import_paths_perm M bh _ _ Hp),
      (has_counterpart_perm M bh _ _ Hp).
  - rewrite <- Hp. by destruct Hwf.
Qed.

Lemma writeImports_Ok_wf (out t : raw_ostream) l
    (M : ModuleDecl) (bh : string) :
  writeImports out l M bh = Ok t → imports_wf l.
Proof.
  rewrite writeImports_unfold.
  destruct (array_pod_sort compareImportModulesByName l) as [s|msg] eqn:Hs;
    [|done].
  cbn. intros Ht. destruct (import_sort_outcome l s Hs) as [Hp Hsorted].
  rewrite Hp. apply sorted_imports_wf; [done|].
  by eapply writeImports_sorted_wf.
Qed.

Lemma writeImports_Ok_iff (out t : raw_ostream) l
    (M : ModuleDecl) (bh : string) :
  writeImports out l M bh = Ok t
  ↔ imports_wf l
    ∧ t = out +:+ imports_text M bh (import_paths M bh l)
                    (has_counterpart M bh l).
Proof.
  split.
  - intros Ht. pose proof (writeImports_Ok_wf _ _ _ _ _ Ht) as Hwf.
    split; [done|]. rewrite writeImports_spec in Ht by done. congruence.
  - intros [Hwf ->]. by apply writeImports_spec.
Qed.

(** Whatever the sort leaves among entries that compare equal, the text
    is the same. *)
Lemma writeImports_any_outcome (out t : raw_ostream) l s
    (M : ModuleDecl) (bh : string) :
  writeImports out l M bh = Ok t →
  sort_outcome compareImportModulesByName l s →
  writeImports_sorted (out +:+ imports_opening) s M bh = Ok t.
Proof.
  intros [Hwf ->]%writeImports_Ok_iff [Hp Hs].
  rewrite writeImports_sorted_spec; [|done|].
  - unfold imports_text.
    by rewrite string_app_assoc, (import_paths_perm M bh _ _ Hp),
      (has_counterpart_perm M bh _ _ Hp).
  - rewrite <- Hp. by destruct Hwf.
Qed.

Lemma writeImports_perm (out : raw_ostream) l1 l2
    (M : ModuleDecl) (bh : string) (t : raw_ostream) :
  l1 ≡ₚ l2 →
  writeImports out l1 M bh = Ok t → writeImports out l2 M bh = Ok t.
Proof.
  intros Hp. rewrite !writeImports_Ok_iff.
  rewrite (import_paths_perm M bh _ _ Hp), (has_counterpart_perm M bh l1 l2 Hp).
  intros [Hwf ->]. split; [|done]. by rewrite <- Hp.
Qed.

End ImportFacts.

(** ** The header as a sequence of blocks *)

Import HeaderLayout.

Section StreamFacts.

Lemma foldl_write_ext {A : Type} (f : raw_ostream → A → raw_ostream)
    (l : list A) (out : raw_ostream) :
  (∀ out a, f out a = out +:+ f "" a) →
  foldl f out l = out +:+ foldl f "" l.
Proof.
  intros Hf. revert out. induction l as [|a l IH]; intros out; simpl.
  - by rewrite string_app_nil_r.
  - rewrite (IH (f out a)), (IH (f "" a)), (Hf out a).
    by rewrite string_app_assoc.
Qed.

Lemma MAP_SIMD_TYPE_ext (out : raw_ostream) (t : SIMDMappedType) :
  MAP_SIMD_TYPE out t = out +:+ MAP_SIMD_TYPE "" t.
Proof. unfold MAP_SIMD_TYPE. stream_norm. done. Qed.

Lemma emitClangMacro_ext (out : raw_ostream) (m : ClangMacro) :
  emitClangMacro out m = out +:+ emitClangMacro "" m.
Proof.
  destruct m; unfold emitClangMacro, emit_CLANG_MACRO_BODY;
    stream_norm; done.
Qed.

Lemma writePostImportPrologue_ext (os : raw_ostream) (M : ModuleDecl) :
  writePostImportPrologue os M = os +:+ block_post_import M.
Proof.
  unfold block_post_import, writePostImportPrologue. stream_norm. done.
Qed.

Lemma writeEpilogue_ext (os : raw_ostream) :
  writeEpilogue os = os +:+ block_epilogue.
Proof. unfold block_epilogue, writeEpilogue. stream_norm. done. Qed.

Lemma fmap_Ok {A B : Type} (f : A → B) (a : A) : f <$> Ok a = Ok (f a).
Proof. done. Qed.

Lemma bind_Ok {A B : Type} (f : A → result B) (a : A) : Ok a ≫= f = f a.
Proof. done. Qed.

Lemma bind_fmap {A B C : Type} (g : A → B) (f : B → result C)
    (m : result A) :
  (g <$> m) ≫= f = m ≫= (λ a, f (g a)).
Proof. by destruct m. Qed.

Lemma emitObjCConditional_None (out : raw_ostream) (f : block) :
  appends f →
  emitObjCConditional out f None
  = (λ body, out +:+ objc_guarded body) <$> f "".
Proof.
  intros Hf. unfold emitObjCConditional.
  rewrite (Hf (out << "#if defined(__OBJC__)" << nl)).
  destruct (f "") as [body|msg]; [|done]. cbn. f_equal.
  unfold objc_guarded. stream_norm. done.
Qed.

Lemma emitCxxConditional_None (out : raw_ostream) (f : block) :
  appends f →
  emitCxxConditional out f None
  = (λ body, out +:+ cxx_guarded body) <$> f "".
Proof.
  intros Hf. unfold emitCxxConditional.
  rewrite (Hf (out << "#if defined(__cplusplus)" << nl)).
  destruct (f "") as [body|msg]; [|done]. cbn. f_equal.
  unfold cxx_guarded. stream_norm. done.
Qed.

Lemma appends_write (text : string) : appends (λ out, mret (out << text)).
Proof. intros out. done. Qed.

Lemma appends_skip : appends (λ out, mret out).
Proof. intros out. cbn. by rewrite string_app_nil_r. Qed.

(** [writePrologue] never fails and only appends. *)
Lemma writePrologue_ext (E : Collaborators) (out : raw_ostream)
    (ctx : ASTContext) (macroGuard : string) :
  writePrologue E out ctx macroGuard
  = Ok (out +:+ prologue_text E ctx macroGuard).
Proof.
  assert (∃ text, ∀ out,
            writePrologue E out ctx macroGuard = Ok (out +:+ text))
    as [text Htext].
  { eexists. intros out'. unfold writePrologue, emitObjCConditional,
      emitCxxConditional. cbn.
    rewrite (foldl_write_ext emitClangMacro) by apply emitClangMacro_ext.
    rewrite (foldl_write_ext MAP_SIMD_TYPE) by apply MAP_SIMD_TYPE_ext.
    stream_norm. reflexivity. }
  unfold prologue_text. by rewrite (Htext ""), Htext.
Qed.

Lemma writeImports_body_ext (M : ModuleDecl) (bh : string)
    (out : raw_ostream) (seen : gset Identifier) (inc : bool)
    (x : ImportModuleTy) :
  writeImports_body M bh (out, seen, inc) x
  = prepend out <$> writeImports_body M bh ("", seen, inc) x.
Proof.
  destruct x as [m|c]; cbn [writeImports_body].
  - destruct (isUnderlyingModule M bh m); cbn.
    { by rewrite string_app_nil_r. }
    unfold SmallPtrSet_insert. destruct (negb _); cbn.
    + do 2 f_equal. f_equal. stream_norm. done.
    + by rewrite string_app_nil_r.
  - destruct (isSubModule c); cbn; [|done].
    do 2 f_equal. f_equal. unfold printForward.
    rewrite (interleave_dot_ext (out << "@import ")),
      (interleave_dot_ext ("" << "@import ")).
    stream_norm. done.
Qed.

Lemma prepend_prepend (a b : raw_ostream) (st : loop_state) :
  prepend a (prepend b st) = prepend (a +:+ b) st.
Proof. destruct st as [[t s] i]. cbn. by rewrite string_app_assoc. Qed.

Lemma writeImports_loop_ext (M : ModuleDecl) (bh : string)
    (out : raw_ostream) (seen : gset Identifier) (inc : bool)
    (l : list ImportModuleTy) :
  writeImports_loop M bh (out, seen, inc) l
  = prepend out <$> writeImports_loop M bh ("", seen, inc) l.
Proof.
  revert out seen inc. induction l as [|x l IH]; intros out seen inc.
  - cbn. by rewrite string_app_nil_r.
  - cbn [writeImports_loop]. rewrite writeImports_body_ext.
    destruct (writeImports_body M bh ("", seen, inc) x)
      as [[[t s] i]|msg]; [|done].
    cbn. rewrite (IH (out +:+ t)), (IH t).
    destruct (writeImports_loop M bh ("", s, i) l) as [st|msg]; [|done].
    cbn. by rewrite prepend_prepend.
Qed.

Lemma writeImports_sorted_ext (out : raw_ostream)
    (s : list ImportModuleTy) (M : ModuleDecl) (bh : string) :
  writeImports_sorted out s M bh
  = (String.app out) <$> writeImports_sorted "" s M bh.
Proof.
  unfold writeImports_sorted. rewrite (writeImports_loop_ext M bh out).
  unfold loop_state, raw_ostream.
  destruct (writeImports_loop M bh ("", ∅, false) s)
    as [[[t seen] i]|msg]; cbn; [|done].
  destruct i; [destruct (empty bh)|]; cbn; f_equal; stream_norm; done.
Qed.

Lemma writeImports_appends (l : list ImportModuleTy)
    (M : ModuleDecl) (bh : string) :
  appends (λ out, writeImports out l M bh).
Proof.
  intros out. rewrite !writeImports_unfold.
  destruct (array_pod_sort compareImportModulesByName l) as [s|msg];
    [|done].
  cbn. rewrite (writeImports_sorted_ext (out +:+ imports_opening)),
    (writeImports_sorted_ext ("" +:+ imports_opening)).
  destruct (writeImports_sorted "" s M bh) as [t|msg]; [|done].
  cbn. by rewrite string_app_assoc.
Qed.

(** [printAsClangHeader]: the six blocks behind what the stream held, and
    [false]; or the assertion that [writeImports] fails. *)
Lemma printAsClangHeader_spec (E : Collaborators) (os : raw_ostream)
    (M : ModuleDecl) (bh : string) (expose : bool) :
  printAsClangHeader E os M bh expose
  = (λ written, (os +:+ header_text E M written expose, false))
      <$> writeImports "" (objc_imports E M) M bh.
Proof.
  unfold printAsClangHeader, objc_imports, header_text, before_cxx,
    block_imports, block_objc, block_cxx.
  destruct (printModuleContentsAsObjC E M) as [objc imports].
  cbn [fst snd]. rewrite writePrologue_ext, bind_Ok.
  rewrite emitObjCConditional_None by apply writeImports_appends.
  destruct (writeImports "" imports M bh) as [written|msg]; [|done].
  rewrite fmap_Ok, bind_Ok.
  rewrite emitObjCConditional_None by apply appends_write.
  change (mret ?x) with (Ok x). rewrite fmap_Ok, bind_Ok.
  rewrite writePostImportPrologue_ext.
  destruct expose.
  - rewrite emitCxxConditional_None by apply appends_write.
    change (mret ?x) with (Ok x). rewrite fmap_Ok, bind_Ok.
    rewrite writeEpilogue_ext, fmap_Ok. unfold block_prologue, write.
    by rewrite !string_app_assoc, ?string_app_nil_l.
  - rewrite emitCxxConditional_None by apply appends_skip.
    change (mret ?x) with (Ok x). rewrite fmap_Ok, bind_Ok.
    rewrite writeEpilogue_ext, fmap_Ok. unfold block_prologue, write.
    by rewrite !string_app_assoc, ?string_app_nil_l.
Qed.

End StreamFacts.

(** ** The stated properties of the import block *)

Section ImportBlock.
Import Samples.

(** C2: native modules are ordered by comparing their names, Clang
    submodules by comparing their paths component by component from the
    top-level module down, and a native module against a submodule by
    comparing the name with the submodule's top-level name; the statements
    of the import block come in that order, so that the set B, A, C is
    listed A, B, C and the path Alpha.Sub stands before the native module
    Zeta. *)
Theorem import_order :
  (∀ a b : ModuleDecl,
     compareImportModulesByName (ofModuleDecl a) (ofModuleDecl b)
     = Ok (StringRef_compare (getName a) (getName b)))
  ∧ (∀ a b : ClangModule,
       isSubModule a = true → isSubModule b = true →
       forward_path a ≠ forward_path b →
       compareImportModulesByName (ofClangModule a) (ofClangModule b)
       = Ok (if lexicographical_compare (forward_path a) (forward_path b)
             then -1 else 1))
  ∧ (∀ (c : ClangModule) (m : ModuleDecl),
       isSubModule c = true →
       compareImportModulesByName (ofClangModule c) (ofModuleDecl m)
       = Ok (if StringRef_lt (getTopLevelModuleName c) (getName m)
             then -1 else 1)
       ∧ compareImportModulesByName (ofModuleDecl m) (ofClangModule c)
         = Ok (if StringRef_lt (getTopLevelModuleName c) (getName m)
               then 1 else -1))
  ∧ (∀ (out : raw_ostream) (imports : list ImportModuleTy)
       (M : ModuleDecl) (bh : string) (written : raw_ostream),
       writeImports out imports M bh = Ok written →
       ∃ paths : list (list string),
         StronglySorted lexico paths
         ∧ (∀ k, k ∈ paths
                 ↔ ∃ y, y ∈ imports ∧ sort_key y = k
                        ∧ is_counterpart M bh y = false)
         ∧ written
           = out +:+ imports_opening
                 +:+ concat_text (import_statement <$> paths)
                 +:+ "#endif" +:+ nl +:+ nl
                 +:+ (if has_counterpart M bh imports
                      then underlying_include M bh else ""))
  ∧ writeImports "" BAC Foo ""
    = Ok (imports_opening
          +:+ "@import A;" +:+ nl
          +:+ "@import B;" +:+ nl
          +:+ "@import C;" +:+ nl
          +:+ "#endif" +:+ nl +:+ nl)
  ∧ writeImports "" mixed Foo ""
    = Ok (imports_opening
          +:+ "@import Alpha.Sub;" +:+ nl
          +:+ "@import Zeta;" +:+ nl
          +:+ "#endif" +:+ nl +:+ nl).
Proof.
  split; [exact compare_native_native|].
  split; [exact compare_clang_clang|].
  split.
  { intros c m Hc. split.
    - by apply compare_clang_native.
    - by apply compare_native_clang. }
  split; [|split; vm_compute; reflexivity].
  intros out imports M bh written [Hwf ->]%writeImports_Ok_iff.
  exists (import_paths M bh imports).
  split; [apply import_paths_sorted|].
  split; [apply elem_of_import_paths|].
  unfold imports_text, imports_tail. by rewrite ?string_app_assoc.
Qed.

Lemma import_order_witness :
  (compareImportModulesByName (ofClangModule Alpha_Sub) (ofModuleDecl Zeta)
   = Ok (-1)
   ∧ compareImportModulesByName (ofModuleDecl Zeta) (ofClangModule Alpha_Sub)
     = Ok 1)
  ∧ compareImportModulesByName (ofClangModule Zeta_Core)
      (ofClangModule Alpha_Sub)
    = Ok 1.
Proof.
  split.
  - exact (proj1 (proj2 (proj2 import_order)) Alpha_Sub Zeta eq_refl).
  - refine (proj1 (proj2 import_order) Zeta_Core Alpha_Sub eq_refl eq_refl _).
    discriminate.
Defined.

Lemma not_Ok_fails {A : Type} (r : result A) :
  (∀ a, r ≠ Ok a) → ∃ msg, r = AssertionFailure msg.
Proof. destruct r as [a|msg]; [intros H; by destruct (H a)|by eexists]. Qed.

Lemma clang_paths_cons x (l : list ImportModuleTy) :
  NoDup (clang_paths (x :: l)) → NoDup (clang_paths l).
Proof.
  destruct x; cbn; [done|]. by intros [_ ?]%NoDup_cons.
Qed.

Lemma clang_paths_lookup (l : list ImportModuleTy) (i j : nat)
    (a b : ClangModule) :
  NoDup (clang_paths l) → i ≠ j →
  l !! i = Some (ofClangModule a) → l !! j = Some (ofClangModule b) →
  forward_path a ≠ forward_path b.
Proof.
  revert i j. induction l as [|x l IH]; intros i j Hnd Hij Hi Hj; [done|].
  destruct i as [|i], j as [|j]; [done|..]; cbn in Hi, Hj.
  - injection Hi as ->. cbn in Hnd. apply NoDup_cons in Hnd as [Hn _].
    intros He. apply Hn, elem_of_clang_paths. exists b.
    split; [by eapply list_elem_of_lookup_2|done].
  - injection Hj as ->. cbn in Hnd. apply NoDup_cons in Hnd as [Hn _].
    intros He. apply Hn, elem_of_clang_paths. exists a.
    split; [by eapply list_elem_of_lookup_2|done].
  - apply (IH i j); [by eapply clang_paths_cons|congruence|done..].
Qed.

Lemma StringRef_compare_refl (n : string) : StringRef_compare n n = 0.
Proof. unfold StringRef_compare. by rewrite string_compare_refl. Qed.

Lemma StringRef_lt_irrefl (n : string) : StringRef_lt n n = false.
Proof. unfold StringRef_lt. by rewrite StringRef_compare_refl. Qed.

(** C8: two Clang submodules with one full name fail the comparator's
    assertion, and with it [writeImports]; a native module whose name is
    the top-level name of a submodule gets a strict answer; the comparator
    answers 0 for two native modules of one name and for nothing else. *)
Theorem collisions_are_fatal :
  (∀ a b : ClangModule,
     isSubModule a = true → isSubModule b = true →
     ReverseFullNameIterator a = ReverseFullNameIterator b →
     compareImportModulesByName (ofClangModule a) (ofClangModule b)
     = AssertionFailure same_full_name_msg)
  ∧ (∀ (c : ClangModule) (m : ModuleDecl),
       isSubModule c = true → getTopLevelModuleName c = getName m →
       compareImportModulesByName (ofClangModule c) (ofModuleDecl m) = Ok 1
       ∧ compareImportModulesByName (ofModuleDecl m) (ofClangModule c)
         = Ok (-1))
  ∧ (∀ x y : ImportModuleTy,
       compareImportModulesByName x y = Ok 0
       ↔ ∃ a b, x = ofModuleDecl a ∧ y = ofModuleDecl b
                ∧ getName a = getName b)
  ∧ (∀ (out : raw_ostream) (imports : list ImportModuleTy)
       (M : ModuleDecl) (bh : string) (i j : nat) (a b : ClangModule),
       i ≠ j →
       imports !! i = Some (ofClangModule a) →
       imports !! j = Some (ofClangModule b) →
       ReverseFullNameIterator a = ReverseFullNameIterator b →
       ∃ msg, writeImports out imports M bh = AssertionFailure msg).
Proof.
  split.
  { intros a b Ha Hb He. apply compare_clang_clang_same; [done..|].
    by apply ReverseFullNameIterator_eq. }
  split.
  { intros c m Hc He. rewrite compare_clang_native, compare_native_clang by done.
    by rewrite He, StringRef_lt_irrefl. }
  split.
  { intros x y. split.
    - intros Hc. destruct (compare_key _ _ _ Hc)
        as [[? _]|[(_ & Hk & Hx & Hy)|[? _]]]; [done| |done].
      destruct x as [a|?], y as [b|?]; try done.
      exists a, b. cbn in Hk. by injection Hk as ->.
    - intros (a & b & -> & -> & He).
      by rewrite compare_native_native, He, StringRef_compare_refl. }
  intros out imports M bh i j a b Hij Hi Hj He. apply not_Ok_fails.
  intros t [Hnd _]%writeImports_Ok_iff. destruct Hnd as [_ Hnd].
  apply (clang_paths_lookup imports i j a b); [done..|].
  by apply ReverseFullNameIterator_eq.
Qed.

Lemma collisions_are_fatal_witness :
  compareImportModulesByName (ofClangModule Alpha_Sub)
    (ofClangModule Alpha_Sub_again)
  = AssertionFailure same_full_name_msg
  ∧ ∃ msg,
      writeImports "" [ofClangModule Alpha_Sub; ofModuleDecl Zeta;
                       ofClangModule Alpha_Sub_again] Foo ""
      = AssertionFailure msg.
Proof.
  split.
  - exact (proj1 collisions_are_fatal Alpha_Sub Alpha_Sub_again
             eq_refl eq_refl eq_refl).
  - apply (proj2 (proj2 (proj2 collisions_are_fatal)) "" _ Foo "" 0%nat 2%nat
             Alpha_Sub Alpha_Sub_again); [lia|reflexivity..].
Defined.

(** C4: the counterpart of [M] in the import set gets no [@import]
    statement; the statements are those of the other entries, and behind
    the block stands one include, of the bridging header when one was
    given and of [<Name/Name.h>] otherwise.  Without a counterpart in the
    set, nothing stands behind the block. *)
Theorem underlying_module_is_included
    (out : raw_ostream) (imports : list ImportModuleTy)
    (M : ModuleDecl) (bh : string) (written : raw_ostream) :
  writeImports out imports M bh = Ok written →
  ∃ (paths : list (list string)) (includeUnderlying : bool),
    (∀ k, k ∈ paths
          ↔ ∃ y, y ∈ imports ∧ sort_key y = k
                 ∧ match y with
                   | ofModuleDecl m => isUnderlyingModule M bh m = false
                   | ofClangModule _ => True
                   end)
    ∧ (includeUnderlying = true
       ↔ ∃ m, ofModuleDecl m ∈ imports ∧ isUnderlyingModule M bh m = true)
    ∧ written
      = out +:+ imports_opening
            +:+ concat_text (import_statement <$> paths)
            +:+ "#endif" +:+ nl +:+ nl
            +:+ (if includeUnderlying then
                   if empty bh then
                     "#import <" +:+ getName M +:+ "/" +:+ getName M
                       +:+ ".h>" +:+ nl +:+ nl
                   else "#import " +:+ dq +:+ bh +:+ dq +:+ nl +:+ nl
                 else "").
Proof.
  intros [Hwf ->]%writeImports_Ok_iff.
  exists (import_paths M bh imports), (has_counterpart M bh imports).
  split; [|split].
  - intros k. rewrite elem_of_import_paths.
    split; intros (y & Hy & Hk & Hc); exists y;
      (split; [done|]; split; [done|]); by destruct y.
  - rewrite has_counterpart_true. split.
    + intros ([m|c] & Hy & Hc); [|done]. by exists m.
    + intros (m & Hm & Hc). by exists (ofModuleDecl m).
  - unfold imports_text, imports_tail. by rewrite ?string_app_assoc.
Qed.

Lemma underlying_module_is_included_witness :
  ∃ (paths : list (list string)) (includeUnderlying : bool),
    (∀ k, k ∈ paths
          ↔ ∃ y, y ∈ with_overlay ∧ sort_key y = k
                 ∧ match y with
                   | ofModuleDecl m => isUnderlyingModule Foo "" m = false
                   | ofClangModule _ => True
                   end)
    ∧ (includeUnderlying = true
       ↔ ∃ m, ofModuleDecl m ∈ with_overlay
              ∧ isUnderlyingModule Foo "" m = true)
    ∧ imports_opening
        +:+ "@import A;" +:+ nl +:+ "@import B;" +:+ nl
        +:+ "#endif" +:+ nl +:+ nl
        +:+ "#import <Foo/Foo.h>" +:+ nl +:+ nl
      = "" +:+ imports_opening
           +:+ concat_text (import_statement <$> paths)
           +:+ "#endif" +:+ nl +:+ nl
           +:+ (if includeUnderlying then
                  if empty "" then
                    "#import <" +:+ getName Foo +:+ "/" +:+ getName Foo
                      +:+ ".h>" +:+ nl +:+ nl
                  else "#import " +:+ dq +:+ "" +:+ dq +:+ nl +:+ nl
                else "").
Proof.
  apply (underlying_module_is_included "" with_overlay Foo "").
  vm_compute. reflexivity.
Defined.

(** With a bridging header the counterpart is the module the importer made
    of it, and the include names the header. *)
Example bridging_header_is_included :
  writeImports "" with_bridging Foo "Foo-Bridging-Header.h"
  = Ok (imports_opening
        +:+ "@import A;" +:+ nl +:+ "@import B;" +:+ nl
        +:+ "#endif" +:+ nl +:+ nl
        +:+ "#import " +:+ dq +:+ "Foo-Bridging-Header.h" +:+ dq
        +:+ nl +:+ nl).
Proof. vm_compute. reflexivity. Qed.

(** Without a counterpart in the set nothing follows the block. *)
Example no_counterpart_no_include :
  writeImports "" BAC Foo "Foo-Bridging-Header.h"
  = Ok (imports_opening
        +:+ "@import A;" +:+ nl +:+ "@import B;" +:+ nl
        +:+ "@import C;" +:+ nl
        +:+ "#endif" +:+ nl +:+ nl).
Proof. vm_compute. reflexivity. Qed.

Lemma imports_wf_native (m : ModuleDecl) (l : list ImportModuleTy) :
  imports_wf (ofModuleDecl m :: l) ↔ imports_wf l.
Proof.
  unfold imports_wf. rewrite Forall_cons. cbn. tauto.
Qed.

Lemma import_paths_known x (l : list ImportModuleTy)
    (M : ModuleDecl) (bh : string) :
  (∃ y, y ∈ l ∧ sort_key y = sort_key x ∧ is_counterpart M bh y = false) →
  import_paths M bh (x :: l) = import_paths M bh l.
Proof.
  intros (y0 & Hy0 & Hk0 & Hc0).
  apply strictly_sorted_unique; [apply import_paths_sorted..|].
  intros k. rewrite !elem_of_import_paths. split.
  - intros (y & [->|Hy]%elem_of_cons & Hk & Hc); [|by eauto].
    exists y0. split; [done|]. split; [congruence|done].
  - intros (y & Hy & Hk & Hc). exists y. rewrite elem_of_cons. by auto.
Qed.

(** *** Statements and paths *)

Lemma split_at_dot (x y r r' : string) :
  avoids "." x = true → avoids "." y = true →
  x +:+ "." +:+ r = y +:+ "." +:+ r' → x = y ∧ r = r'.
Proof.
  revert y. induction x as [|c x IH]; intros [|c' y]; cbn [avoids];
    rewrite ?string_app_cons, ?string_app_nil_l.
  - intros _ _ [= ->]. done.
  - intros _ [Hc _]%andb_true_iff [= <- _]. done.
  - intros [Hc _]%andb_true_iff _ [= -> _]. done.
  - intros [_ Hx]%andb_true_iff [_ Hy]%andb_true_iff [= -> H].
    by destruct (IH y Hx Hy H) as [-> ->].
Qed.

Lemma interleave_dot_cons (x y : string) (path : list string) :
  interleave_dot "" (x :: y :: path)
  = x +:+ "." +:+ interleave_dot "" (y :: path).
Proof.
  change (interleave_dot ("" << x << ".") (y :: path)
          = x +:+ "." +:+ interleave_dot "" (y :: path)).
  rewrite interleave_dot_ext. unfold write.
  by rewrite string_app_nil_l, string_app_assoc.
Qed.

Lemma interleave_dot_one (x : string) : interleave_dot "" [x] = x.
Proof. reflexivity. Qed.

Lemma interleave_dot_inj (p q : list string) :
  forallb (avoids ".") p = true → forallb (avoids ".") q = true →
  p ≠ [] → q ≠ [] →
  interleave_dot "" p = interleave_dot "" q → p = q.
Proof.
  revert q. induction p as [|x [|x2 p] IH]; intros [|y [|y2 q]]; try done;
    cbn [forallb]; rewrite ?andb_true_iff; intros Hp Hq _ _.
  - rewrite !interleave_dot_one. by intros ->.
  - rewrite interleave_dot_cons, interleave_dot_one. intros ->.
    destruct Hp as [Hp _]. rewrite !avoids_app in Hp.
    rewrite !andb_true_iff in Hp. by destruct Hp as (_ & ? & _).
  - rewrite interleave_dot_cons, interleave_dot_one. intros <-.
    destruct Hq as [Hq _]. rewrite !avoids_app in Hq.
    rewrite !andb_true_iff in Hq. by destruct Hq as (_ & ? & _).
  - rewrite !interleave_dot_cons. intros H.
    destruct Hp as (Hx & Hx2 & Hp), Hq as (Hy & Hy2 & Hq).
    destruct (split_at_dot _ _ _ _ Hx Hy H) as [-> H'].
    f_equal. apply IH; [cbn [forallb]; by rewrite Hx2, Hp
                       |cbn [forallb]; by rewrite Hy2, Hq|done..].
Qed.

Lemma import_statement_inj (p q : list string) :
  import_statement p = import_statement q →
  interleave_dot "" p = interleave_dot "" q.
Proof.
  unfold import_statement. intros H%(inj (String.app "@import ")).
  by apply string_app_inv_r in H.
Qed.

Lemma sort_key_nonempty (y : ImportModuleTy) : sort_key y ≠ [].
Proof.
  destruct y as [m|c]; [done|]. cbn.
  by destruct (forward_path_top c) as (rest & -> & _).
Qed.

Lemma statements_NoDup (M : ModuleDecl) (bh : string)
    (imports : list ImportModuleTy) :
  forallb dot_free imports = true →
  NoDup (import_statement <$> import_paths M bh imports).
Proof.
  intros Hall. rewrite forallb_forall in Hall.
  apply NoDup_fmap_2_strong;
    [|apply strictly_sorted_NoDup, import_paths_sorted].
  intros p q (y & Hy & <- & _)%elem_of_import_paths
    (z & Hz & <- & _)%elem_of_import_paths H%import_statement_inj.
  apply interleave_dot_inj; [..|done].
  - by apply Hall, list_elem_of_In.
  - by apply Hall, list_elem_of_In.
  - apply sort_key_nonempty.
  - apply sort_key_nonempty.
Qed.

(** C5: the import block holds one statement for a path however many
    entries of the import set carry it, and so, names being free of dots,
    no statement twice; a further native entry whose name is already
    imported leaves the statements as they are, and the whole text unless
    the entry is the counterpart of [M]. *)
Theorem imports_are_deduplicated
    (out : raw_ostream) (imports : list ImportModuleTy)
    (M : ModuleDecl) (bh : string) (written : raw_ostream) :
  writeImports out imports M bh = Ok written →
  (NoDup (import_paths M bh imports)
   ∧ (∀ k, k ∈ import_paths M bh imports
           ↔ ∃ y, y ∈ imports ∧ sort_key y = k
                  ∧ is_counterpart M bh y = false)
   ∧ written
     = out +:+ imports_opening
           +:+ concat_text (import_statement <$> import_paths M bh imports)
           +:+ "#endif" +:+ nl +:+ nl
           +:+ (if has_counterpart M bh imports
                then underlying_include M bh else ""))
  ∧ (forallb dot_free imports = true →
     NoDup (import_statement <$> import_paths M bh imports))
  ∧ (∀ m m' : ModuleDecl,
       ofModuleDecl m' ∈ imports → getName m' = getName m →
       isUnderlyingModule M bh m' = false →
       ∃ written',
         writeImports out (ofModuleDecl m :: imports) M bh = Ok written'
         ∧ import_paths M bh (ofModuleDecl m :: imports)
           = import_paths M bh imports
         ∧ (isUnderlyingModule M bh m = false → written' = written)).
Proof.
  intros [Hwf ->]%writeImports_Ok_iff. split.
  { split; [apply strictly_sorted_NoDup, import_paths_sorted|].
    split; [apply elem_of_import_paths|].
    unfold imports_text, imports_tail. by rewrite ?string_app_assoc. }
  split; [apply statements_NoDup|].
  intros m m' Hin Hn Hu.
  assert (import_paths M bh (ofModuleDecl m :: imports)
          = import_paths M bh imports) as Hp.
  { apply import_paths_known. exists (ofModuleDecl m').
    split; [done|]. split; [by cbn; rewrite Hn|done]. }
  eexists. split; [|split; [exact Hp|]].
  - apply writeImports_spec. by apply imports_wf_native.
  - intros Hm. rewrite Hp. unfold has_counterpart. cbn. by rewrite Hm.
Qed.

Lemma imports_are_deduplicated_witness :
  ∃ written',
    writeImports "" (native 5%N "A" :: with_overlay) Foo "" = Ok written'
    ∧ import_paths Foo "" (native 5%N "A" :: with_overlay)
      = import_paths Foo "" with_overlay
    ∧ (isUnderlyingModule Foo ""
         {| moduleAddr := 5%N; getName := "A"; getASTContext := ctx |}
       = false →
       written'
       = imports_opening
           +:+ "@import A;" +:+ nl +:+ "@import B;" +:+ nl
           +:+ "#endif" +:+ nl +:+ nl
           +:+ "#import <Foo/Foo.h>" +:+ nl +:+ nl).
Proof.
  refine (proj2 (proj2 (imports_are_deduplicated "" with_overlay Foo "" _ _))
            {| moduleAddr := 5%N; getName := "A"; getASTContext := ctx |}
            {| moduleAddr := 2%N; getName := "A"; getASTContext := ctx |}
            _ _ _).
  - vm_compute. reflexivity.
  - unfold with_overlay, native. apply list_elem_of_further, list_elem_of_here.
  - reflexivity.
  - reflexivity.
Defined.

End ImportBlock.

(** ** Moving the objects to other addresses *)

Section Relabel.
Context (f : ptr → ptr) `{!Inj (=) (=) f}.
Implicit Types (l : list ImportModuleTy) (x : ImportModuleTy).

Lemma relabel_ReverseFullNameIterator (c : ClangModule) :
  ReverseFullNameIterator (relabel_clang f c) = ReverseFullNameIterator c.
Proof. induction c as [a n|a n p IH]; cbn; [done|by rewrite IH]. Qed.

Lemma relabel_isSubModule (c : ClangModule) :
  isSubModule (relabel_clang f c) = isSubModule c.
Proof. by destruct c. Qed.

Lemma relabel_sort_key x : sort_key (relabel f x) = sort_key x.
Proof.
  destruct x as [m|c]; cbn; [done|].
  unfold forward_path. by rewrite relabel_ReverseFullNameIterator.
Qed.

Lemma relabel_wf_entry x : wf_entry (relabel f x) = wf_entry x.
Proof. destruct x as [m|c]; cbn; [done|apply relabel_isSubModule]. Qed.

Lemma relabel_isUnderlyingModule (M : ModuleDecl) (bh : string)
    (m : ModuleDecl) :
  isUnderlyingModule (relabel_module f M) bh (relabel_module f m)
  = isUnderlyingModule M bh m.
Proof.
  unfold isUnderlyingModule. destruct (empty bh); cbn.
  - f_equal. f_equal. apply eq_true_iff_eq. rewrite !N.eqb_eq.
    split; [apply (inj f)|by intros ->].
  - apply bool_decide_ext.
    destruct (ImportedHeaderModule (getASTContext m)) as [p|]; cbn; [|done].
    split; [|by intros [= ->]]. intros [= H]. by apply (inj f) in H as ->.
Qed.

Lemma relabel_is_counterpart (M : ModuleDecl) (bh : string) x :
  is_counterpart (relabel_module f M) bh (relabel f x)
  = is_counterpart M bh x.
Proof. destruct x; cbn; [apply relabel_isUnderlyingModule|done]. Qed.

Lemma relabel_clang_paths l : clang_paths (relabel f <$> l) = clang_paths l.
Proof.
  induction l as [|[m|c] l IH]; cbn; [done|done|].
  fold (clang_paths (relabel f <$> l)) (clang_paths l). rewrite IH.
  unfold forward_path. by rewrite relabel_ReverseFullNameIterator.
Qed.

Lemma relabel_imports_wf l : imports_wf (relabel f <$> l) ↔ imports_wf l.
Proof.
  unfold imports_wf. rewrite relabel_clang_paths, Forall_fmap.
  apply and_iff_compat_r, Forall_proper; [|done].
  intros x. cbn. by rewrite relabel_wf_entry.
Qed.

Lemma relabel_has_counterpart (M : ModuleDecl) (bh : string) l :
  has_counterpart (relabel_module f M) bh (relabel f <$> l)
  = has_counterpart M bh l.
Proof.
  unfold has_counterpart. induction l as [|x l IH]; cbn; [done|].
  by rewrite relabel_is_counterpart, IH.
Qed.

Lemma relabel_import_paths (M : ModuleDecl) (bh : string) l :
  import_paths (relabel_module f M) bh (relabel f <$> l)
  = import_paths M bh l.
Proof.
  apply strictly_sorted_unique; [apply import_paths_sorted..|].
  intros k. rewrite !elem_of_import_paths. split.
  - intros (y & (x & -> & Hx)%list_elem_of_fmap & Hk & Hc).
    exists x. by rewrite <- relabel_sort_key, <- (relabel_is_counterpart M bh).
  - intros (x & Hx & Hk & Hc). exists (relabel f x).
    rewrite relabel_sort_key, relabel_is_counterpart.
    split; [|done]. apply list_elem_of_fmap. by exists x.
Qed.

Lemma relabel_writeImports (out t : raw_ostream) l
    (M : ModuleDecl) (bh : string) :
  writeImports out l M bh = Ok t →
  writeImports out (relabel f <$> l) (relabel_module f M) bh = Ok t.
Proof.
  rewrite !writeImports_Ok_iff. intros [Hwf ->].
  split; [by apply relabel_imports_wf|].
  by rewrite relabel_import_paths, relabel_has_counterpart.
Qed.

End Relabel.

(** ** The header, line for line *)

Section Listings.

Lemma text_of_lines_app (a b : list string) :
  text_of_lines (a ++ b) = text_of_lines a +:+ text_of_lines b.
Proof.
  unfold text_of_lines. induction a as [|l a IH]; [done|].
  cbn [app]. rewrite !fmap_cons. cbn [concat_text].
  by rewrite IH, ?string_app_assoc.
Qed.

Lemma text_of_lines_cons (l : string) (ls : list string) :
  text_of_lines (l :: ls) = l +:+ nl +:+ text_of_lines ls.
Proof.
  unfold text_of_lines. rewrite fmap_cons. cbn [concat_text].
  by rewrite string_app_assoc.
Qed.

Lemma text_of_lines_nil : text_of_lines [] = "".
Proof. reflexivity. Qed.

Lemma simd_text (table : list SIMDMappedType) :
  foldl MAP_SIMD_TYPE "" table = text_of_lines (table ≫= simd_listing).
Proof.
  induction table as [|t table IH]; [done|]. cbn [foldl].
  rewrite (foldl_write_ext MAP_SIMD_TYPE) by apply MAP_SIMD_TYPE_ext.
  rewrite IH, bind_cons, text_of_lines_app. f_equal.
  unfold simd_listing. cbn [fmap list_fmap].
  rewrite !text_of_lines_cons, text_of_lines_nil.
  unfold MAP_SIMD_TYPE. stream_norm.
  by rewrite ?string_app_assoc, ?string_app_nil_r.
Qed.

Lemma macro_text (m : ClangMacro) :
  emitClangMacro "" m = text_of_lines (macro_listing m).
Proof.
  destruct m; cbn [macro_listing];
    rewrite !text_of_lines_cons, text_of_lines_nil;
    unfold emitClangMacro, emit_CLANG_MACRO_BODY; stream_norm;
    by rewrite ?string_app_assoc, ?string_app_nil_r.
Qed.

Lemma macros_text (table : list ClangMacro) :
  foldl emitClangMacro "" table = text_of_lines (table ≫= macro_listing).
Proof.
  induction table as [|m table IH]; [done|]. cbn [foldl].
  rewrite (foldl_write_ext emitClangMacro) by apply emitClangMacro_ext.
  by rewrite IH, bind_cons, text_of_lines_app, macro_text.
Qed.

Lemma prologue_listed (E : Collaborators) (ctx : ASTContext) (G : string) :
  prologue_text E ctx G
  = text_of_lines
      (prologue_listing (getSwiftFullVersion E (EffectiveLanguageVersion ctx))
         G (SIMDMappedTypes_def E) (ClangMacros_def E)).
Proof.
  unfold prologue_listing.
  rewrite !text_of_lines_app, <- simd_text, <- macros_text.
  rewrite !text_of_lines_cons, text_of_lines_nil. unfold quoted.
  rewrite ?string_app_assoc, ?string_app_nil_l.
  unfold prologue_text, writePrologue, emitObjCConditional,
    emitCxxConditional. cbn.
  rewrite (foldl_write_ext emitClangMacro) by apply emitClangMacro_ext.
  rewrite (foldl_write_ext MAP_SIMD_TYPE) by apply MAP_SIMD_TYPE_ext.
  stream_norm. reflexivity.
Qed.

Lemma post_import_listed (M : ModuleDecl) :
  block_post_import M = text_of_lines (post_import_listing (getName M)).
Proof.
  unfold block_post_import, writePostImportPrologue, post_import_listing,
    getNameStr.
  rewrite !text_of_lines_cons, text_of_lines_nil. unfold quoted.
  stream_norm. by rewrite ?string_app_assoc, ?string_app_nil_r.
Qed.

Lemma epilogue_listed : block_epilogue = text_of_lines epilogue_listing.
Proof. reflexivity. Qed.

Lemma header_listed (E : Collaborators) (M : ModuleDecl) (written : string)
    (expose : bool) :
  header_text E M written expose = complete_header E M written expose.
Proof.
  unfold header_text, before_cxx, complete_header, block_prologue.
  rewrite prologue_listed, post_import_listed, epilogue_listed.
  unfold computeMacroGuard, getNameStr, block_imports, block_objc, block_cxx,
    objc_guarded, cxx_guarded, getModuleContentsCxxString.
  destruct (printModuleContentsAsCxx E M) as [cxx ?]. cbn [fst].
  by rewrite ?string_app_assoc.
Qed.

End Listings.

(** ** The stated properties of the whole header *)

Section Header.
Import Samples.

Lemma prologue_opening (E : Collaborators) (ctx : ASTContext)
    (macroGuard : string) :
  ∃ rest,
    prologue_text E ctx macroGuard
    = "// Generated by "
        +:+ getSwiftFullVersion E (EffectiveLanguageVersion ctx) +:+ nl
        +:+ "#ifndef " +:+ macroGuard +:+ nl
        +:+ "#define " +:+ macroGuard +:+ nl +:+ rest.
Proof.
  eexists. unfold prologue_text, writePrologue, emitObjCConditional,
    emitCxxConditional. cbn.
  rewrite (foldl_write_ext emitClangMacro) by apply emitClangMacro_ext.
  rewrite (foldl_write_ext MAP_SIMD_TYPE) by apply MAP_SIMD_TYPE_ext.
  stream_norm. reflexivity.
Qed.

Lemma prologue_text_cong (E1 E2 : Collaborators) (ctx1 ctx2 : ASTContext)
    (macroGuard : string) :
  getSwiftFullVersion E1 (EffectiveLanguageVersion ctx1)
  = getSwiftFullVersion E2 (EffectiveLanguageVersion ctx2) →
  SIMDMappedTypes_def E1 = SIMDMappedTypes_def E2 →
  ClangMacros_def E1 = ClangMacros_def E2 →
  prologue_text E1 ctx1 macroGuard = prologue_text E2 ctx2 macroGuard.
Proof.
  intros Hv Hs Hm. unfold prologue_text, writePrologue.
  by rewrite Hv, Hs, Hm.
Qed.

(** C9: whenever [printAsClangHeader] returns, it returns [false] and the
    stream holds a complete header behind what it held before: the
    prologue with the banner, the guard and the two tables, the import
    block, the directives behind it, the two bodies and the epilogue, whose
    last line closes the guard, each line for line as [complete_header]
    lists them.  It returns for every import set that meets the
    assertions, whatever the declaration printers wrote. *)
Theorem no_error_is_reported (E : Collaborators) (os : raw_ostream)
    (M : ModuleDecl) (bh : string) (expose : bool) :
  (∀ (os' : raw_ostream) (ret : bool),
     printAsClangHeader E os M bh expose = Ok (os', ret) →
     ret = false
     ∧ ∃ written,
         writeImports "" (objc_imports E M) M bh = Ok written
         ∧ os' = os +:+ header_text E M written expose
         ∧ written
           = imports_text M bh (import_paths M bh (objc_imports E M))
               (has_counterpart M bh (objc_imports E M))
         ∧ os' = os +:+ complete_header E M written expose
         ∧ ∃ middle,
             os' = os +:+ "// Generated by "
                     +:+ getSwiftFullVersion E
                           (EffectiveLanguageVersion (getASTContext M))
                     +:+ nl
                     +:+ "#ifndef " +:+ upper (getName M) +:+ "_SWIFT_H"
                     +:+ nl
                     +:+ "#define " +:+ upper (getName M) +:+ "_SWIFT_H"
                     +:+ nl
                     +:+ middle
                     +:+ "#pragma clang diagnostic pop" +:+ nl
                     +:+ "#endif" +:+ nl)
  ∧ (imports_wf (objc_imports E M) →
     ∃ os', printAsClangHeader E os M bh expose = Ok (os', false)).
Proof.
  rewrite printAsClangHeader_spec. split.
  - intros os' ret.
    destruct (writeImports "" (objc_imports E M) M bh) as [written|msg] eqn:Hw;
      [|done].
    intros [= <- <-]. split; [done|]. exists written.
    split; [done|]. split; [done|]. split; [|split].
    + apply writeImports_Ok_iff in Hw as [_ ->]. by rewrite string_app_nil_l.
    + by rewrite header_listed.
    + destruct (prologue_opening E (getASTContext M) (computeMacroGuard M))
        as [rest Hrest].
      exists (rest +:+ block_imports written +:+ block_post_import M
                +:+ block_objc E M +:+ block_cxx E M expose
                +:+ "#if __has_attribute(external_source_symbol)" +:+ nl
                +:+ "# pragma clang attribute pop" +:+ nl
                +:+ "#endif" +:+ nl).
      unfold header_text, before_cxx.
      change (block_prologue E M)
        with (prologue_text E (getASTContext M) (computeMacroGuard M)).
      rewrite Hrest.
      change (computeMacroGuard M) with (upper (getName M) +:+ "_SWIFT_H").
      change block_epilogue
        with ("#if __has_attribute(external_source_symbol)" +:+ nl
              +:+ "# pragma clang attribute pop" +:+ nl
              +:+ "#endif" +:+ nl
              +:+ "#pragma clang diagnostic pop" +:+ nl
              +:+ "#endif" +:+ nl).
      by rewrite ?string_app_assoc.
  - intros Hwf. rewrite (writeImports_spec "" _ M bh Hwf). by eexists.
Qed.

Lemma no_error_is_reported_witness :
  ∃ os', printAsClangHeader Samples.E "" Foo "" false = Ok (os', false).
Proof.
  apply (proj2 (no_error_is_reported Samples.E "" Foo "" false)).
  eapply (writeImports_Ok_wf "" _ _ Foo ""). vm_compute. reflexivity.
Defined.

(** C6: without exposure of public declarations the C++ block is its two
    guard lines with nothing between them; with it, what the C++ printer
    wrote stands between them.  Everything else is the same. *)
Theorem cxx_body_is_gated (E : Collaborators) (os : raw_ostream)
    (M : ModuleDecl) (bh : string) (written : raw_ostream) :
  writeImports "" (objc_imports E M) M bh = Ok written →
  printAsClangHeader E os M bh false
  = Ok (os +:+ before_cxx E M written
           +:+ "#if defined(__cplusplus)" +:+ nl
           +:+ "#endif" +:+ nl
           +:+ block_epilogue, false)
  ∧ printAsClangHeader E os M bh true
    = Ok (os +:+ before_cxx E M written
             +:+ "#if defined(__cplusplus)" +:+ nl
             +:+ fst (printModuleContentsAsCxx E M)
             +:+ "#endif" +:+ nl
             +:+ block_epilogue, false).
Proof.
  intros Hw. rewrite !printAsClangHeader_spec, Hw. cbn.
  unfold header_text, block_cxx, cxx_guarded, getModuleContentsCxxString.
  destruct (printModuleContentsAsCxx E M) as [cxx ?]. cbn.
  by rewrite ?string_app_assoc.
Qed.

Lemma cxx_body_is_gated_witness :
  let written := imports_text Foo "" [["A"]; ["B"]] true in
  printAsClangHeader Samples.E "" Foo "" false
  = Ok ("" +:+ before_cxx Samples.E Foo written
           +:+ "#if defined(__cplusplus)" +:+ nl
           +:+ "#endif" +:+ nl
           +:+ block_epilogue, false)
  ∧ printAsClangHeader Samples.E "" Foo "" true
    = Ok ("" +:+ before_cxx Samples.E Foo written
             +:+ "#if defined(__cplusplus)" +:+ nl
             +:+ fst (printModuleContentsAsCxx Samples.E Foo)
             +:+ "#endif" +:+ nl
             +:+ block_epilogue, false).
Proof.
  intros written.
  apply (cxx_body_is_gated Samples.E "" Foo "" written).
  vm_compute. reflexivity.
Defined.


Lemma header_text_cong (E1 E2 : Collaborators) (M1 M2 : ModuleDecl)
    (written : string) (expose : bool) :
  getName M1 = getName M2 →
  getSwiftFullVersion E1 (EffectiveLanguageVersion (getASTContext M1))
  = getSwiftFullVersion E2 (EffectiveLanguageVersion (getASTContext M2)) →
  SIMDMappedTypes_def E1 = SIMDMappedTypes_def E2 →
  ClangMacros_def E1 = ClangMacros_def E2 →
  fst (printModuleContentsAsObjC E1 M1)
  = fst (printModuleContentsAsObjC E2 M2) →
  fst (printModuleContentsAsCxx E1 M1)
  = fst (printModuleContentsAsCxx E2 M2) →
  header_text E1 M1 written expose = header_text E2 M2 written expose.
Proof.
  intros Hn Hv Hs Hm Ho Hc.
  unfold header_text, before_cxx, block_prologue, block_objc, block_cxx.
  rewrite (prologue_text_cong E1 E2 _ _ _ Hv Hs Hm), Ho.
  assert (getModuleContentsCxxString E1 M1
          = getModuleContentsCxxString E2 M2) as ->.
  { unfold getModuleContentsCxxString.
    by destruct (printModuleContentsAsCxx E1 M1),
                (printModuleContentsAsCxx E2 M2). }
  assert (block_post_import M1 = block_post_import M2) as ->.
  { unfold block_post_import, writePostImportPrologue, getNameStr.
    by rewrite Hn. }
  unfold computeMacroGuard, getNameStr. by rewrite Hn.
Qed.

(** C1: a second run over the same module, in which every object may lie
    at another address, the import set may be enumerated in another order
    and the sort may leave entries that compare equal in another order,
    writes the same bytes as the first: the version banner, the two
    tables, the bridging header, the flag and what the declaration
    printers wrote being the same. *)
Theorem header_is_deterministic (E1 E2 : Collaborators) (f : ptr → ptr)
    (os : raw_ostream) (M : ModuleDecl) (bh : string) (expose : bool)
    (r : raw_ostream * bool) :
  Inj (=) (=) f →
  getSwiftFullVersion E1 (EffectiveLanguageVersion (getASTContext M))
  = getSwiftFullVersion E2 (EffectiveLanguageVersion (getASTContext M)) →
  SIMDMappedTypes_def E1 = SIMDMappedTypes_def E2 →
  ClangMacros_def E1 = ClangMacros_def E2 →
  fst (printModuleContentsAsObjC E1 M)
  = fst (printModuleContentsAsObjC E2 (relabel_module f M)) →
  snd (printModuleContentsAsObjC E2 (relabel_module f M))
  ≡ₚ relabel f <$> snd (printModuleContentsAsObjC E1 M) →
  fst (printModuleContentsAsCxx E1 M)
  = fst (printModuleContentsAsCxx E2 (relabel_module f M)) →
  printAsClangHeader E1 os M bh expose = Ok r →
  printAsClangHeader E2 os (relabel_module f M) bh expose = Ok r
  ∧ ∀ sortedImports,
      sort_outcome compareImportModulesByName (objc_imports E1 M)
        sortedImports →
      ∃ written,
        writeImports_sorted imports_opening sortedImports M bh = Ok written
        ∧ r = (os +:+ header_text E1 M written expose, false).
Proof.
  intros Hf Hv Hs Hm Ho Hp Hc. rewrite !printAsClangHeader_spec.
  destruct (writeImports "" (objc_imports E1 M) M bh) as [written|msg] eqn:Hw;
    [|done].
  rewrite fmap_Ok. intros [= <-]. split.
  - assert (writeImports "" (objc_imports E2 (relabel_module f M))
              (relabel_module f M) bh = Ok written) as ->.
    { eapply writeImports_perm; [symmetry; exact Hp|].
      by apply relabel_writeImports. }
    rewrite fmap_Ok. do 3 f_equal. symmetry. by apply header_text_cong.
  - intros s Hout. exists written. split; [|done].
    exact (writeImports_any_outcome "" written _ s M bh Hw Hout).
Qed.

Lemma moved_inj : Inj (=) (=) moved.
Proof. intros a b. unfold moved. lia. Qed.

Lemma header_is_deterministic_witness :
  ∃ r,
    printAsClangHeader Samples.E "" Foo "" true = Ok r
    ∧ printAsClangHeader E_moved "" (relabel_module moved Foo) "" true
      = Ok r.
Proof.
  eexists. split; [vm_compute; reflexivity|].
  refine (proj1 (header_is_deterministic Samples.E E_moved moved "" Foo ""
                   true _ moved_inj _ _ _ _ _ _ _)).
  - reflexivity.
  - reflexivity.
  - reflexivity.
  - reflexivity.
  - apply reverse_Permutation.
  - reflexivity.
  - vm_compute. reflexivity.
Defined.

End Header.

(** ** Lines and conditional inclusion *)

Import Preprocessor.

Section Lines.

Lemma nl_cons (rest : string) : nl +:+ rest = String newline rest.
Proof. reflexivity. Qed.

Lemma no_nl_app (a b : string) : no_nl (a +:+ b) = no_nl a && no_nl b.
Proof.
  induction a as [|c a IH]; [done|].
  rewrite string_app_cons. cbn [no_nl]. by rewrite IH, andb_assoc.
Qed.

Lemma lines_cons_ne (c : ascii) (s : string) : lines (String c s) ≠ [].
Proof.
  cbn [lines]. destruct (Ascii.eqb c newline); [done|].
  by destruct (lines s).
Qed.

Lemma lines_line (l rest : string) :
  no_nl l = true → lines (l +:+ nl +:+ rest) = l :: lines rest.
Proof.
  induction l as [|c l IH]; [done|].
  cbn [no_nl]. intros [Hc Hl]%andb_true_iff.
  rewrite string_app_cons. cbn [lines].
  apply negb_true_iff in Hc as ->. by rewrite (IH Hl).
Qed.

Lemma lines_last_line (l : string) : no_nl l = true → lines (l +:+ nl) = [l].
Proof.
  intros Hl. rewrite <- (string_app_nil_r nl). by rewrite lines_line.
Qed.

Lemma whole_lines_cons (c : ascii) (s : string) :
  s ≠ "" → whole_lines (String c s) = whole_lines s.
Proof. by destruct s. Qed.

Lemma lines_app (a b : string) :
  whole_lines a = true → lines (a +:+ b) = lines a ++ lines b.
Proof.
  induction a as [|c a IH]; [done|]. intros Hw.
  rewrite string_app_cons. cbn [lines].
  destruct a as [|c' a].
  - cbn in Hw. rewrite Hw. done.
  - rewrite whole_lines_cons in Hw by done. rewrite (IH Hw).
    destruct (Ascii.eqb c newline); [done|].
    pose proof (lines_cons_ne c' a) as Hne.
    by destruct (lines (String c' a)).
Qed.

Lemma whole_lines_app (a b : string) :
  whole_lines a = true → whole_lines b = true → whole_lines (a +:+ b) = true.
Proof.
  induction a as [|c a IH]; [done|]. intros Ha Hb.
  rewrite string_app_cons. destruct a as [|c' a].
  - destruct b as [|c' b]; [done|]. by rewrite whole_lines_cons.
  - rewrite whole_lines_cons in Ha by done.
    rewrite whole_lines_cons by done. by apply IH.
Qed.

Lemma whole_lines_line (l : string) : whole_lines (l +:+ nl) = true.
Proof.
  induction l as [|c l IH]; [done|].
  rewrite string_app_cons, whole_lines_cons; [done|]. by destruct l.
Qed.

(** *** Nesting *)

Lemma nesting_shift (ls : list string) (d d' k : nat) :
  nesting d ls = Some d' → nesting (d + k) ls = Some (d' + k)%nat.
Proof.
  revert d. induction ls as [|l ls IH]; intros d; cbn [nesting].
  { by intros [= <-]. }
  destruct (parse_line l); try apply IH;
    try (apply (IH (S d))); destruct d; try done; apply (IH (S d)) || apply IH.
Qed.

Lemma nesting_app (a b : list string) (d : nat) :
  nesting d (a ++ b) = nesting d a ≫= λ d', nesting d' b.
Proof.
  revert d. induction a as [|l a IH]; intros d; [done|].
  cbn [nesting app]. destruct (parse_line l); try apply IH;
    destruct d; try done; apply IH.
Qed.

Lemma keeps_app (g : string) (a b : list string) :
  keeps g (a ++ b) = keeps g a && keeps g b.
Proof. unfold keeps. apply forallb_app. Qed.

End Lines.

Section Inclusion.
Context (eval : gset string → string → bool).
Implicit Types (st : pp_state) (ls : list string) (l : string).

Lemma nesting_cons (d : nat) l ls :
  nesting d (l :: ls) = nesting d [l] ≫= λ d1, nesting d1 ls.
Proof. apply (nesting_app [l] ls d). Qed.

Lemma keeps_cons (g : string) l ls :
  keeps g (l :: ls) = keeps g [l] && keeps g ls.
Proof. apply (keeps_app g [l] ls). Qed.

Lemma step_keeps (g : string) st l :
  keeps g [l] = true → g ∈ defined st → g ∈ defined (step eval st l).
Proof.
  unfold keeps, step. cbn [forallb]. rewrite andb_true_r.
  destruct (parse_line l) as [| | | | | |n|n| |]; cbn [defined]; try done.
  - intros _ Hg. destruct (keeping _); [|done]. by apply elem_of_union_r.
  - intros Hn%negb_true_iff%String.eqb_neq Hg.
    destruct (keeping _); [|done]. apply elem_of_difference.
    split; [done|]. by apply not_elem_of_singleton.
Qed.

Lemma run_keeps (g : string) ls st :
  keeps g ls = true → g ∈ defined st → g ∈ defined (foldl (step eval) st ls).
Proof.
  revert st. induction ls as [|l ls IH]; intros st; [done|].
  rewrite keeps_cons. intros [Hl Hls]%andb_true_iff Hg. cbn [foldl].
  apply IH; [done|]. by apply step_keeps.
Qed.

Lemma step_balanced st l (d d1 : nat) (inner base : list frame) :
  nesting d [l] = Some d1 →
  open_conditionals st = inner ++ base → length inner = d →
  ∃ inner',
    open_conditionals (step eval st l) = inner' ++ base
    ∧ length inner' = d1.
Proof.
  intros Hn Hst Hd. unfold step. cbn [nesting] in Hn.
  destruct (parse_line l); cbn [open_conditionals]; rewrite Hst;
    try (injection Hn as <-; by exists inner);
    try (injection Hn as <-; unfold open_frame;
         eexists (_ :: inner); split; [reflexivity|by cbn; rewrite Hd]);
    destruct d as [|d]; try done; injection Hn as <-;
    destruct inner as [|f inner]; try done.
  - eexists (_ :: inner). split; [reflexivity|done].
  - eexists (_ :: inner). split; [reflexivity|done].
  - exists inner. split; [done|]. by injection Hd.
Qed.

Lemma run_balanced ls st (d d' : nat) (inner base : list frame) :
  nesting d ls = Some d' →
  open_conditionals st = inner ++ base → length inner = d →
  ∃ inner',
    open_conditionals (foldl (step eval) st ls) = inner' ++ base
    ∧ length inner' = d'.
Proof.
  revert st d inner. induction ls as [|l ls IH]; intros st d inner.
  { cbn. intros [= <-] ??. by exists inner. }
  rewrite nesting_cons. destruct (nesting d [l]) as [d1|] eqn:Hl; [|done].
  cbn [mbind option_bind foldl]. intros Hls Hst Hd.
  destruct (step_balanced st l d d1 inner base Hl Hst Hd) as (inner1 & H1 & Hd1).
  by apply (IH _ d1 inner1).
Qed.

Lemma keeping_dead (inner : list frame) (gf : frame) (base : list frame) :
  now gf = false → Forall dead inner → keeping (inner ++ gf :: base) = false.
Proof.
  intros Hgf Hin. destruct inner as [|f inner]; [done|].
  apply Forall_cons in Hin as [[_ Hf] _]. done.
Qed.

Lemma step_skipped st l (d d1 : nat) (inner : list frame) (gf : frame)
    (base : list frame) :
  nesting d [l] = Some d1 →
  open_conditionals st = inner ++ gf :: base → length inner = d →
  now gf = false → Forall dead inner →
  defined (step eval st l) = defined st
  ∧ kept (step eval st l) = kept st
  ∧ ∃ inner',
      open_conditionals (step eval st l) = inner' ++ gf :: base
      ∧ length inner' = d1 ∧ Forall dead inner'.
Proof.
  intros Hn Hst Hd Hgf Hin.
  pose proof (keeping_dead inner gf base Hgf Hin) as Hk.
  unfold step. cbn [nesting] in Hn. rewrite Hst, Hk.
  destruct (parse_line l); cbn [open_conditionals defined kept];
    (split; [done|]); (split; [done|]);
    try (injection Hn as <-; by exists inner);
    try (injection Hn as <-; unfold open_frame; rewrite Hk;
         eexists (_ :: inner); split; [reflexivity|];
         split; [by cbn; rewrite Hd|]; by constructor);
    destruct d as [|d]; try done; injection Hn as <-;
    destruct inner as [|f inner]; try done;
    apply Forall_cons in Hin as [[Hf1 Hf2] Hin].
  - eexists (_ :: inner). split; [reflexivity|]. split; [done|].
    constructor; [|done]. split; cbn; by rewrite Hf1.
  - eexists (_ :: inner). split; [reflexivity|]. split; [done|].
    constructor; [|done]. split; cbn; by rewrite Hf1.
  - exists inner. split; [done|]. split; [by injection Hd|done].
Qed.

Lemma run_skipped ls st (d d' : nat) (inner : list frame) (gf : frame)
    (base : list frame) :
  nesting d ls = Some d' →
  open_conditionals st = inner ++ gf :: base → length inner = d →
  now gf = false → Forall dead inner →
  defined (foldl (step eval) st ls) = defined st
  ∧ kept (foldl (step eval) st ls) = kept st
  ∧ ∃ inner',
      open_conditionals (foldl (step eval) st ls) = inner' ++ gf :: base
      ∧ length inner' = d' ∧ Forall dead inner'.
Proof.
  revert st d inner. induction ls as [|l ls IH]; intros st d inner.
  { cbn. intros [= <-] ????. repeat split. by exists inner. }
  rewrite nesting_cons. destruct (nesting d [l]) as [d1|] eqn:Hl; [|done].
  cbn [mbind option_bind foldl]. intros Hls Hst Hd Hgf Hin.
  destruct (step_skipped st l d d1 inner gf base Hl Hst Hd Hgf Hin)
    as (HD & HK & inner1 & H1 & Hd1 & Hin1).
  rewrite <- HD, <- HK. by apply (IH _ d1 inner1).
Qed.

Lemma whole_lines_app_r (a b : string) :
  b ≠ "" → whole_lines (a +:+ b) = whole_lines b.
Proof.
  intros Hb. induction a as [|c a IH]; [done|].
  rewrite string_app_cons, whole_lines_cons; [done|].
  destruct a; [done|discriminate].
Qed.

Lemma pp_state_eta st :
  st = mkState (defined st) (open_conditionals st) (kept st).
Proof. by destruct st. Qed.

(** A text between [#ifndef G], [#define G] and [#endif], under one line of
    its own: its lines, and what a second copy behind the first adds. *)
Lemma guarded_twice (banner G body : string) st :
  no_nl banner = true → parse_line banner = PPText →
  no_nl G = true →
  block_ok (macro_name G) body = true →
  open_conditionals st = [] →
  let h := banner +:+ nl +:+ "#ifndef " +:+ G +:+ nl
             +:+ "#define " +:+ G +:+ nl +:+ body +:+ "#endif" +:+ nl in
  lines h = banner :: ("#ifndef " +:+ G) :: ("#define " +:+ G)
              :: lines body ++ ["#endif"]
  ∧ preprocess eval st (h +:+ h)
    = let st1 := preprocess eval st h in
      mkState (defined st1) [] (kept st1 ++ [banner]).
Proof.
  intros Hb Hpb HG [[Hw Hbal]%andb_true_iff Hkeep]%andb_true_iff Hst h.
  apply bool_decide_eq_true in Hbal.
  assert (lines h = banner :: ("#ifndef " +:+ G) :: ("#define " +:+ G)
                      :: lines body ++ ["#endif"]) as Hlines.
  { unfold h. rewrite (lines_line banner) by done.
    rewrite <- (string_app_assoc "#ifndef " G).
    rewrite (lines_line ("#ifndef " +:+ G)) by (by rewrite no_nl_app, HG).
    rewrite <- (string_app_assoc "#define " G).
    rewrite (lines_line ("#define " +:+ G)) by (by rewrite no_nl_app, HG).
    rewrite (lines_app body) by done.
    by rewrite (lines_last_line "#endif"). }
  split; [done|].
  assert (whole_lines h = true) as Hwh.
  { unfold h. rewrite <- !string_app_assoc. apply whole_lines_line. }
  unfold preprocess. rewrite (lines_app h h Hwh), foldl_app.
  set (g := macro_name G) in *.
  assert (∀ st', open_conditionals st' = [] →
            ∃ gf,
              foldl (step eval) st' (lines h)
              = foldl (step eval)
                  (foldl (step eval)
                     (mkState (if now gf then {[g]} ∪ defined st'
                               else defined st')
                        [gf] (kept st' ++ [banner]))
                     (lines body))
                  ["#endif"]
              ∧ now gf = negb (bool_decide (g ∈ defined st'))) as Hhead.
  { intros st' Hst'.
    exists {| around := true;
              taken := negb (bool_decide (g ∈ defined st'));
              now := negb (bool_decide (g ∈ defined st')) |}.
    split; [|reflexivity].
    rewrite Hlines. cbn [foldl]. rewrite foldl_app. do 2 f_equal.
    assert (step eval st' banner
            = mkState (defined st') [] (kept st' ++ [banner])) as ->.
    { unfold step. by rewrite Hpb, Hst'. }
    assert (∀ D K, step eval (mkState D [] K) ("#ifndef " +:+ G)
                   = mkState D [ {| around := true;
                                    taken := negb (bool_decide (g ∈ D));
                                    now := negb (bool_decide (g ∈ D)) |} ] K)
      as -> by done.
    assert (∀ D gf K, step eval (mkState D [gf] K) ("#define " +:+ G)
                      = mkState (if now gf then {[g]} ∪ D else D) [gf] K)
      as -> by done.
    reflexivity. }
  assert (∀ st', step eval st' "#endif"
                 = mkState (defined st') (tail (open_conditionals st'))
                     (kept st')) as Hend by done.
  destruct (Hhead st Hst) as (gf1 & -> & Hgf1).
  set (st_a := mkState _ [gf1] _).
  set (st_b := foldl (step eval) st_a (lines body)).
  assert (open_conditionals st_b = [gf1]) as Hstack_b.
  { destruct (run_balanced (lines body) st_a 0 0 [] [gf1] Hbal
                eq_refl eq_refl) as (inner' & H & Hlen).
    by destruct inner'. }
  assert (g ∈ defined st_b) as Hg_b.
  { apply run_keeps; [done|]. unfold st_a. cbn [defined].
    rewrite Hgf1. destruct (bool_decide_reflect (g ∈ defined st)); cbn;
      [done|]. by apply elem_of_union_l, elem_of_singleton. }
  cbn [foldl]. rewrite Hend, Hstack_b. cbn [tail].
  set (st1 := mkState (defined st_b) [] (kept st_b)).
  destruct (Hhead st1 eq_refl) as (gf2 & -> & Hgf2).
  cbn [defined kept] in Hgf2. rewrite bool_decide_eq_true_2 in Hgf2 by done.
  cbn in Hgf2. rewrite Hgf2. cbn [defined kept st1].
  set (st_c := mkState (defined st_b) [gf2] (kept st_b ++ [banner])).
  destruct (run_skipped (lines body) st_c 0 0 [] gf2 [] Hbal
              eq_refl eq_refl Hgf2 (Forall_nil_2 _))
    as (HD & HK & inner' & Hs & Hlen & _).
  destruct inner'; [|done]. cbn [foldl]. rewrite Hend, Hs, HD, HK.
  reflexivity.
Qed.

End Inclusion.

(** ** The lines of the header *)

Section Segments.
Context (g : string).

Lemma segment_nil (d : nat) : segment g d d "".
Proof. done. Qed.

Lemma segment_app (d d1 d2 : nat) (a b : string) :
  segment g d d1 a → segment g d1 d2 b → segment g d d2 (a +:+ b).
Proof.
  intros (Hwa & Hna & Hka) (Hwb & Hnb & Hkb). split; [|split].
  - by apply whole_lines_app.
  - rewrite lines_app, nesting_app, Hna by done. done.
  - rewrite lines_app, keeps_app, Hka, Hkb by done. done.
Qed.

Lemma segment_one_line (d d1 : nat) (l : string) :
  no_nl l = true → nesting d [l] = Some d1 → keeps g [l] = true →
  segment g d d1 (l +:+ nl).
Proof.
  intros Hl Hn Hk. split; [apply whole_lines_line|].
  by rewrite lines_last_line.
Qed.

Lemma segment_line (d d1 d2 : nat) (l rest : string) :
  no_nl l = true → nesting d [l] = Some d1 → keeps g [l] = true →
  segment g d1 d2 rest → segment g d d2 (l +:+ nl +:+ rest).
Proof.
  intros Hl Hn Hk Hrest. rewrite <- string_app_assoc.
  eapply segment_app; [by apply segment_one_line|done].
Qed.

Lemma segment_empty_line (d d2 : nat) (rest : string) :
  segment g d d2 rest → segment g d d2 (nl +:+ rest).
Proof. intros Hrest. by apply (segment_line d d d2 "" rest). Qed.

Lemma segment_nl (d : nat) : segment g d d nl.
Proof. by apply (segment_one_line d d ""). Qed.

Lemma segment_shift (d d' k : nat) (text : string) :
  segment g d d' text → segment g (d + k) (d' + k) text.
Proof.
  intros (Hw & Hn & Hk). split; [done|]. split; [|done].
  by apply nesting_shift.
Qed.

Lemma block_ok_segment (text : string) :
  block_ok g text = true ↔ segment g 0 0 text.
Proof.
  unfold block_ok, segment, balanced.
  rewrite !andb_true_iff, bool_decide_eq_true. tauto.
Qed.

Lemma segment_of_block (d : nat) (text : string) :
  block_ok g text = true → segment g d d text.
Proof.
  intros H%block_ok_segment. apply (segment_shift 0 0 d) in H. done.
Qed.

Lemma keeps_undef_any : g ≠ "any" → keeps g ["# undef any"] = true.
Proof.
  intros Hg. unfold keeps. cbn [forallb].
  change (parse_line "# undef any") with (PPUndef "any").
  rewrite andb_true_r. apply negb_true_iff, String.eqb_neq. congruence.
Qed.

Lemma segment_block (d d' : nat) (text rest : string) :
  block_ok g text = true → segment g d d' rest →
  segment g d d' (text +:+ rest).
Proof. intros Ht Hr. eapply segment_app; [by apply segment_of_block|done]. Qed.

End Segments.

(** Walks along a text written as [c1 +:+ (c2 +:+ ...)], line by line;
    a chunk [T] with [block_ok g T = true] among the hypotheses is passed
    over as a whole. *)
Ltac solve_no_nl :=
  rewrite ?no_nl_app;
  repeat match goal with
         | H : no_nl ?x = true |- context [no_nl ?x] => rewrite H
         end;
  reflexivity.

Ltac walk_step :=
  lazymatch goal with
  | |- segment _ _ _ "" => apply segment_nil
  | |- segment _ _ _ nl => apply segment_nl
  | |- segment _ _ _ (nl +:+ ?rest) => apply segment_empty_line
  | |- segment _ _ _ (?cur +:+ (nl +:+ ?rest)) =>
      eapply (segment_line _ _ _ _ cur rest);
      [ solve_no_nl | lazy; reflexivity
      | first [lazy; reflexivity | apply keeps_undef_any; assumption] | ]
  | |- segment _ _ _ (?cur +:+ nl) =>
      eapply (segment_one_line _ _ _ cur);
      [solve_no_nl | lazy; reflexivity | lazy; reflexivity ]
  | |- segment _ _ _ (?cur +:+ (?c +:+ ?rest)) =>
      first [ eapply (segment_block _ _ _ cur); [eassumption|]
            | rewrite <- (string_app_assoc cur c rest) ]
  | |- segment _ _ _ ?cur =>
      eapply (segment_of_block _ _ cur); eassumption
  end.

Ltac walk := repeat walk_step.

Section HeaderLines.
Context (g : string).

Lemma epilogue_lines :
  ∃ before_endif,
    block_epilogue = before_endif +:+ "#endif" +:+ nl
    ∧ segment g 0 0 before_endif.
Proof.
  eexists. split.
  - unfold block_epilogue, writeEpilogue, write.
    rewrite (string_app_assoc _ "#endif" nl). reflexivity.
  - rewrite ?string_app_assoc, ?string_app_nil_l. walk.
Qed.

Lemma guarded_objc_lines (body : string) :
  block_ok g body = true → segment g 0 0 (objc_guarded body).
Proof. intros Hb. unfold objc_guarded. walk. Qed.

Lemma guarded_cxx_lines (body : string) :
  block_ok g body = true → segment g 0 0 (cxx_guarded body).
Proof. intros Hb. unfold cxx_guarded. walk. Qed.

Lemma post_import_lines (M : ModuleDecl) :
  no_nl (getName M) = true → g ≠ "any" →
  segment g 0 0 (block_post_import M).
Proof.
  intros Hn Hg. unfold block_post_import, writePostImportPrologue, write,
    getNameStr.
  rewrite ?string_app_assoc, ?string_app_nil_l.
  walk.
Qed.

Lemma simd_lines (table : list SIMDMappedType) :
  forallb simd_ok table = true →
  block_ok g (foldl MAP_SIMD_TYPE "" table) = true.
Proof.
  induction table as [|t table IH]; [done|].
  cbn [forallb foldl].
  intros [[Hc Hs]%andb_true_iff Htable]%andb_true_iff.
  rewrite (foldl_write_ext MAP_SIMD_TYPE) by apply MAP_SIMD_TYPE_ext.
  apply block_ok_segment, (segment_app g 0 0 0);
    [|by apply block_ok_segment, IH].
  unfold MAP_SIMD_TYPE, write.
  rewrite ?string_app_assoc, ?string_app_nil_l. walk.
Qed.

Lemma macro_lines (m : ClangMacro) :
  macro_ok g m = true → segment g 0 0 (emitClangMacro "" m).
Proof.
  destruct m as [NAME BODY|NAME ARGS VALUE|NAME ARGS CONDITION VALUE ALT
                |NAME ARGS VALUE|NAME ARGS VALUE ALT|NAME BODY];
    cbn [macro_ok]; rewrite ?andb_true_iff; intros H;
    unfold emitClangMacro, emit_CLANG_MACRO_BODY, write;
    rewrite ?string_app_assoc, ?string_app_nil_l.
  - destruct H as [HN HB].
    rewrite <- (string_app_assoc BODY nl). walk.
  - destruct H as [[HN HA] HV]. walk.
  - destruct H as [[[[HN HA] HC] HV] HL]. walk.
  - destruct H as [[HN HA] HV]. walk.
  - destruct H as [[[HN HA] HV] HL]. walk.
  - destruct H as [HN HB].
    rewrite <- (string_app_assoc BODY nl). walk.
Qed.

Lemma macros_lines (table : list ClangMacro) :
  forallb (macro_ok g) table = true →
  block_ok g (foldl emitClangMacro "" table) = true.
Proof.
  induction table as [|m table IH]; [done|].
  cbn [forallb foldl]. intros [Hm Htable]%andb_true_iff.
  rewrite (foldl_write_ext emitClangMacro) by apply emitClangMacro_ext.
  apply block_ok_segment, (segment_app g 0 0 0);
    [by apply macro_lines|by apply block_ok_segment, IH].
Qed.

Lemma interleave_dot_no_nl (path : list string) :
  forallb no_nl path = true → no_nl (interleave_dot "" path) = true.
Proof.
  induction path as [|x [|y path] IH]; [done|..]; cbn [forallb].
  - rewrite andb_true_r. intros Hx. done.
  - intros [Hx Hrest]%andb_true_iff.
    change (no_nl (interleave_dot ("" << x << ".") (y :: path)) = true).
    rewrite interleave_dot_ext. unfold write.
    rewrite !no_nl_app, Hx, (IH Hrest). done.
Qed.

Lemma import_statements_lines (paths : list (list string)) :
  Forall (λ k, forallb no_nl k = true) paths →
  block_ok g (concat_text (import_statement <$> paths)) = true.
Proof.
  induction 1 as [|k paths Hk _ IH]; [done|].
  rewrite fmap_cons. cbn [concat_text].
  apply interleave_dot_no_nl in Hk.
  apply block_ok_segment, (segment_app g 0 0 0);
    [|by apply block_ok_segment].
  unfold import_statement. walk.
Qed.

Lemma imports_lines (M : ModuleDecl) (bh : string)
    (paths : list (list string)) (underlying : bool) :
  no_nl (getName M) = true → no_nl bh = true →
  Forall (λ k, forallb no_nl k = true) paths →
  segment g 0 0 (block_imports (imports_text M bh paths underlying)).
Proof.
  intros Hn Hb Hp%import_statements_lines.
  unfold block_imports, objc_guarded, imports_text, imports_opening,
    imports_tail, underlying_include.
  destruct underlying; [destruct (empty bh)|];
    rewrite ?string_app_assoc, ?string_app_nil_l; walk.
Qed.

Lemma prologue_lines (E : Collaborators) (ctx : ASTContext) (G : string) :
  ∃ rest,
    prologue_text E ctx G
    = "// Generated by "
        +:+ getSwiftFullVersion E (EffectiveLanguageVersion ctx) +:+ nl
        +:+ "#ifndef " +:+ G +:+ nl
        +:+ "#define " +:+ G +:+ nl +:+ rest
    ∧ (forallb simd_ok (SIMDMappedTypes_def E) = true →
       forallb (macro_ok g) (ClangMacros_def E) = true →
       segment g 0 0 rest).
Proof.
  eexists. split.
  - unfold prologue_text, writePrologue, emitObjCConditional,
      emitCxxConditional. cbn.
    rewrite (foldl_write_ext emitClangMacro) by apply emitClangMacro_ext.
    rewrite (foldl_write_ext MAP_SIMD_TYPE) by apply MAP_SIMD_TYPE_ext.
    stream_norm. reflexivity.
  - intros Hs%simd_lines Hm%macros_lines. walk.
Qed.

End HeaderLines.

Section Guard.
Import Samples.

Lemma avoids_skip_blanks (c : ascii) (s : string) :
  avoids c s = true → avoids c (skip_blanks s) = true.
Proof.
  induction s as [|x s IH]; [done|]. cbn [skip_blanks].
  destruct (is_blank x); [|done].
  cbn [avoids]. intros [_ Hs]%andb_true_iff. by apply IH.
Qed.

Lemma first_word_not_any (s : string) :
  avoids "a" s = true → first_word s ≠ "any".
Proof.
  destruct s as [|x s]; [done|]. cbn [avoids first_word].
  intros [Hx _]%andb_true_iff. destruct (is_ident_char x); [|done].
  intros [= -> _]. done.
Qed.

Lemma toUpper_not_a (x : ascii) : Ascii.eqb (toUpper x) "a" = false.
Proof. by destruct x as [[] [] [] [] [] [] [] []]. Qed.

Lemma toUpper_newline (x : ascii) :
  Ascii.eqb (toUpper x) newline = Ascii.eqb x newline.
Proof. by destruct x as [[] [] [] [] [] [] [] []]. Qed.

Lemma upper_avoids_a (n : string) : avoids "a" (upper n) = true.
Proof.
  induction n as [|x n IH]; [done|].
  cbn [upper avoids]. by rewrite toUpper_not_a, IH.
Qed.

Lemma upper_no_nl (n : string) : no_nl (upper n) = no_nl n.
Proof.
  induction n as [|x n IH]; [done|].
  cbn [upper no_nl]. by rewrite toUpper_newline, IH.
Qed.

Lemma guard_not_any (M : ModuleDecl) :
  macro_name (computeMacroGuard M) ≠ "any".
Proof.
  unfold macro_name, computeMacroGuard.
  apply first_word_not_any, avoids_skip_blanks.
  by rewrite avoids_app, upper_avoids_a.
Qed.

Lemma guard_no_nl (M : ModuleDecl) :
  no_nl (getName M) = true → no_nl (computeMacroGuard M) = true.
Proof.
  intros Hn. unfold computeMacroGuard, getNameStr.
  by rewrite no_nl_app, upper_no_nl, Hn.
Qed.

Lemma import_ok_sort_key (y : ImportModuleTy) :
  import_ok y = true → forallb no_nl (sort_key y) = true.
Proof.
  destruct y as [m|c]; cbn [import_ok sort_key forallb].
  - intros ->. done.
  - rewrite !forallb_forall. intros H x Hx. apply H.
    apply list_elem_of_In. apply list_elem_of_In in Hx.
    unfold forward_path in Hx. by rewrite elem_of_reverse in Hx.
Qed.

Lemma import_paths_no_nl (M : ModuleDecl) (bh : string)
    (imports : list ImportModuleTy) :
  forallb import_ok imports = true →
  Forall (λ k, forallb no_nl k = true) (import_paths M bh imports).
Proof.
  intros Hall. apply Forall_forall.
  intros k (y & Hy & <- & _)%elem_of_import_paths.
  apply import_ok_sort_key. rewrite forallb_forall in Hall.
  by apply Hall, list_elem_of_In.
Qed.

(** The whole header: one banner line, the guard, a body of balanced whole
    lines that leaves the guard defined, the closing [#endif]. *)
Lemma header_lines (E : Collaborators) (M : ModuleDecl) (bh : string)
    (expose : bool) (written : string) :
  external_text_ok E M bh expose = true →
  writeImports "" (objc_imports E M) M bh = Ok written →
  ∃ body,
    header_text E M written expose
    = "// Generated by "
        +:+ getSwiftFullVersion E (EffectiveLanguageVersion (getASTContext M))
        +:+ nl
        +:+ "#ifndef " +:+ computeMacroGuard M +:+ nl
        +:+ "#define " +:+ computeMacroGuard M +:+ nl
        +:+ body +:+ "#endif" +:+ nl
    ∧ block_ok (macro_name (computeMacroGuard M)) body = true.
Proof.
  unfold external_text_ok. rewrite !andb_true_iff.
  intros [[[[[[[Hv Hn] Hb] Hi] Hs] Hm] Ho] Hc].
  intros [_ ->]%writeImports_Ok_iff. rewrite string_app_nil_l.
  set (g := macro_name (computeMacroGuard M)) in *.
  destruct (prologue_lines g E (getASTContext M) (computeMacroGuard M))
    as (rest & Hp & Hrest).
  destruct (epilogue_lines g) as (before_endif & He & Hbefore).
  exists (rest
          +:+ block_imports (imports_text M bh
                (import_paths M bh (objc_imports E M))
                (has_counterpart M bh (objc_imports E M)))
          +:+ block_post_import M +:+ block_objc E M
          +:+ block_cxx E M expose +:+ before_endif).
  split.
  - unfold header_text, before_cxx, block_prologue.
    rewrite Hp, He, ?string_app_assoc. reflexivity.
  - apply block_ok_segment.
    apply (segment_app g 0 0 0); [by apply Hrest|].
    apply (segment_app g 0 0 0).
    { apply imports_lines; [done..|]. by apply import_paths_no_nl. }
    apply (segment_app g 0 0 0).
    { apply post_import_lines; [done|apply guard_not_any]. }
    apply (segment_app g 0 0 0).
    { by apply guarded_objc_lines. }
    apply (segment_app g 0 0 0); [|done].
    unfold block_cxx. apply guarded_cxx_lines.
    destruct expose; [|done].
    unfold getModuleContentsCxxString.
    by destruct (printModuleContentsAsCxx E M).
Qed.

Example guard_of_Foo : computeMacroGuard Foo = "FOO_SWIFT_H".
Proof. reflexivity. Qed.

(** Only the letters a to z change. *)
Example upper_ascii_only : upper "my_Kit2-é" = "MY_KIT2-é".
Proof. reflexivity. Qed.

(** C3, as the code has it: the guard is the upper-cased module name
    followed by [_SWIFT_H]; the header is one [// Generated by] line, then
    [#ifndef] and [#define] of the guard, a body, and as its last line the
    [#endif] that closes the guard; a second copy of the header behind the
    first adds nothing but its banner line, whatever the conditions inside
    evaluate to and whatever was defined before.  The text that reaches the
    header from outside is taken to be in order: names without line ends,
    printed declarations and macro bodies in whole lines with balanced
    conditionals that do not undefine the guard. *)
Theorem guard_skips_second_inclusion
    (eval : gset string → string → bool) (E : Collaborators)
    (M : ModuleDecl) (bh : string) (expose : bool)
    (header : raw_ostream) (ret : bool) (st : pp_state) :
  external_text_ok E M bh expose = true →
  printAsClangHeader E "" M bh expose = Ok (header, ret) →
  open_conditionals st = [] →
  let guard := computeMacroGuard M in
  let banner :=
    "// Generated by "
      +:+ getSwiftFullVersion E (EffectiveLanguageVersion (getASTContext M)) in
  guard = upper (getNameStr M) +:+ "_SWIFT_H"
  ∧ ∃ body,
      header = banner +:+ nl +:+ "#ifndef " +:+ guard +:+ nl
                 +:+ "#define " +:+ guard +:+ nl
                 +:+ body +:+ "#endif" +:+ nl
      ∧ lines header
        = banner :: ("#ifndef " +:+ guard) :: ("#define " +:+ guard)
            :: lines body ++ ["#endif"]
      ∧ balanced (lines body) = true
      ∧ preprocess eval st (header +:+ header)
        = let st1 := preprocess eval st header in
          mkState (defined st1) [] (kept st1 ++ [banner]).
Proof.
  intros Hok Hrun Hst guard banner. split; [reflexivity|].
  rewrite printAsClangHeader_spec in Hrun.
  destruct (writeImports "" (objc_imports E M) M bh) as [written|msg] eqn:Hw;
    [|done].
  rewrite fmap_Ok, string_app_nil_l in Hrun. injection Hrun as <- _.
  destruct (header_lines E M bh expose written Hok Hw) as (body & Hh & Hbody).
  exists body.
  assert (no_nl banner = true) as Hbanner.
  { unfold external_text_ok in Hok. rewrite !andb_true_iff in Hok.
    destruct Hok as [[[[[[[Hv _] _] _] _] _] _] _].
    unfold banner. by rewrite no_nl_app, Hv. }
  assert (no_nl guard = true) as Hguard.
  { unfold external_text_ok in Hok. rewrite !andb_true_iff in Hok.
    destruct Hok as [[[[[[[_ Hn] _] _] _] _] _] _]. by apply guard_no_nl. }
  destruct (guarded_twice eval banner guard body st Hbanner eq_refl Hguard
              Hbody Hst) as [Hlines Htwice].
  rewrite <- (string_app_assoc "// Generated by ") in Hh. rewrite Hh.
  split; [reflexivity|]. split; [exact Hlines|].
  split; [|exact Htwice].
  unfold block_ok in Hbody. rewrite !andb_true_iff in Hbody. tauto.
Qed.

(** The header of the sample module, included twice into a translation
    unit in which nothing is defined and every condition holds. *)
Lemma guard_skips_second_inclusion_witness :
  ∃ header,
    printAsClangHeader Samples.E "" Foo "" true = Ok (header, false)
    ∧ preprocess (λ _ _, true) (mkState ∅ [] []) (header +:+ header)
      = let st1 := preprocess (λ _ _, true) (mkState ∅ [] []) header in
        mkState (defined st1) [] (kept st1 ++ ["// Generated by Swift version 5.7"]).
Proof.
  eexists. split; [vm_compute; reflexivity|].
  pose proof (guard_skips_second_inclusion (λ _ _, true) Samples.E Foo "" true
                _ false (mkState ∅ [] []) eq_refl eq_refl eq_refl)
    as [_ (body & _ & _ & _ & Htwice)].
  exact Htwice.
Defined.

(** C3, where it fails: the output does not open with [#ifndef]; its first
    bytes are the banner comment. *)
Lemma header_opens_with_banner :
  ∃ header,
    printAsClangHeader Samples.E "" Foo "" false = Ok (header, false)
    ∧ String.prefix ("#ifndef " +:+ computeMacroGuard Foo) header = false
    ∧ String.prefix "// Generated by Swift version 5.7" header = true.
Proof. eexists. split; [vm_compute; reflexivity|]. by vm_compute. Qed.

End Guard.

(** * Further properties of the code *)

(** ** [InputFile]: names, construction, the output file name *)

Section InputFileProperties.
Import InputFile InputFileFacts.

(** X1: the conversion of a buffer name is idempotent and never answers
    ["<stdin>"]; it answers ["-"] for the two names ["<stdin>"] and ["-"]
    and for no other, and leaves every name but ["<stdin>"] as it is. *)
Theorem stdin_name_is_normalised (name : string) :
  convertBufferNameFromLLVM_getFileOrSTDIN_toSwiftConventions
    (convertBufferNameFromLLVM_getFileOrSTDIN_toSwiftConventions name)
  = convertBufferNameFromLLVM_getFileOrSTDIN_toSwiftConventions name
  ∧ convertBufferNameFromLLVM_getFileOrSTDIN_toSwiftConventions name
    ≠ "<stdin>"
  ∧ (convertBufferNameFromLLVM_getFileOrSTDIN_toSwiftConventions name = "-"
     ↔ name = "<stdin>" ∨ name = "-")
  ∧ (name ≠ "<stdin>" →
     convertBufferNameFromLLVM_getFileOrSTDIN_toSwiftConventions name = name).
Proof.
  unfold convertBufferNameFromLLVM_getFileOrSTDIN_toSwiftConventions.
  destruct (String.eqb_spec name "<stdin>") as [->|Hne].
  - repeat split; try done. by left.
  - rewrite (proj2 (String.eqb_neq name "<stdin>") Hne).
    repeat split; try done.
    + by right.
    + by intros [?|?].
Qed.

(** X2: the constructor fails its assertion for the empty name, whatever
    the other arguments are, and for no other name; with the default
    arguments the object has no buffer and an empty output file name. *)
Theorem empty_name_is_rejected (name : string) (primary : bool)
    (buf : MemoryBufferPtr) (output : string) :
  new "" primary buf output = AssertionFailure "!name.empty()"
  ∧ ((∃ f, new name primary buf output = Ok f) ↔ name ≠ "")
  ∧ (∀ f, new_default name primary = Ok f →
          buffer f = None ∧ outputFilename f = ""
          ∧ isPrimary f = primary).
Proof.
  split; [reflexivity|]. split.
  - unfold new. destruct name as [|c name]; cbn.
    + split; [by intros [f ?]|done].
    + split; [done|]. intros _. by eexists.
  - intros f. unfold new_default, new.
    destruct name as [|c name]; cbn; [done|]. by intros [= <-].
Qed.

(** The fields after a run of [setOutputFilename] calls. *)
Lemma foldl_setOutputFilename (f : InputFile) (outputs : list string) :
  Filename (foldl setOutputFilename f outputs) = Filename f
  ∧ IsPrimary (foldl setOutputFilename f outputs) = IsPrimary f
  ∧ Buffer (foldl setOutputFilename f outputs) = Buffer f
  ∧ OutputFilename (foldl setOutputFilename f outputs)
    = default (OutputFilename f) (last outputs).
Proof.
  revert f. induction outputs as [|o outputs IH]; intros f; [done|].
  cbn [foldl]. destruct (IH (setOutputFilename f o)) as (-> & -> & -> & ->).
  repeat split. destruct outputs as [|o' outputs]; [done|].
  rewrite last_cons_cons.
  destruct (last (o' :: outputs)) as [x|] eqn:Hl; [done|].
  by apply last_None in Hl.
Qed.

(** X3: on an object that the constructor returned, [file] answers the
    converted name after any number of calls of [setOutputFilename];
    [isPrimary] and [buffer] stay what the constructor was given, and
    [outputFilename] is the argument of the last call, or the
    constructor's when there was none. *)
Theorem setOutputFilename_keeps_the_file (name : string) (primary : bool)
    (buf : MemoryBufferPtr) (output : string) (f : InputFile)
    (outputs : list string) :
  new name primary buf output = Ok f →
  let f' := foldl setOutputFilename f outputs in
  file f'
  = Ok (convertBufferNameFromLLVM_getFileOrSTDIN_toSwiftConventions name)
  ∧ isPrimary f' = primary
  ∧ buffer f' = buf
  ∧ outputFilename f' = default output (last outputs).
Proof.
  intros Hnew f'.
  destruct (foldl_setOutputFilename f outputs) as (HF & HP & HB & HO).
  unfold new in Hnew. destruct name as [|c name]; [discriminate|].
  cbn in Hnew. injection Hnew as <-.
  unfold file, isPrimary, buffer, outputFilename. subst f'.
  rewrite HF, HP, HB, HO. cbn [Filename IsPrimary Buffer OutputFilename].
  repeat split.
  pose proof (convert_nonempty (String c name)) as Hc.
  destruct (convertBufferNameFromLLVM_getFileOrSTDIN_toSwiftConventions
              (String c name)); [by destruct Hc|reflexivity].
Qed.

Lemma setOutputFilename_keeps_the_file_witness :
  let f' := foldl setOutputFilename
              (mkInputFile "-" true None "a.o") ["b.o"; "c.o"] in
  file f' = Ok "-" ∧ isPrimary f' = true ∧ buffer f' = None
  ∧ outputFilename f' = "c.o".
Proof.
  exact (setOutputFilename_keeps_the_file "<stdin>" true None "a.o"
           (mkInputFile "-" true None "a.o") ["b.o"; "c.o"] eq_refl).
Defined.

End InputFileProperties.

(** ** [compareImportModulesByName] as an ordering *)

Section ComparatorProperties.
Import Samples.

Lemma StringRef_compare_opp (a b : string) :
  StringRef_compare b a = - StringRef_compare a b.
Proof.
  unfold StringRef_compare. rewrite (String.compare_antisym a b).
  by destruct (String.compare b a).
Qed.

Lemma lexicographical_compare_flip (p q : list string) :
  p ≠ q → lexicographical_compare q p = negb (lexicographical_compare p q).
Proof.
  intros Hne.
  destruct (lexicographical_compare p q) eqn:Hpq,
           (lexicographical_compare q p) eqn:Hqp; try done; exfalso.
  - apply lexicographical_compare_spec in Hpq, Hqp.
    by apply (irreflexivity lexico p); trans q.
  - destruct (trichotomyT lexico p q) as [[H|H]|H]; [|done|];
      apply lexicographical_compare_spec in H; congruence.
Qed.

(** X4: swapping the two arguments of the comparator negates its answer,
    and an assertion that fails for a pair fails for the swapped pair with
    the same message; an answer is one of -1, 0 and 1. *)
Theorem comparator_is_antisymmetric (x y : ImportModuleTy) :
  compareImportModulesByName y x
  = Z.opp <$> compareImportModulesByName x y
  ∧ ∀ c, compareImportModulesByName x y = Ok c → c = -1 ∨ c = 0 ∨ c = 1.
Proof.
  split.
  - destruct x as [a|a], y as [b|b].
    + rewrite !compare_native_native. cbn. f_equal.
      apply StringRef_compare_opp.
    + destruct (isSubModule b) eqn:Hb.
      * rewrite compare_clang_native, compare_native_clang by done.
        cbn. by destruct (StringRef_lt _ _).
      * rewrite compare_top_level_l, compare_top_level_r by done; reflexivity.
    + destruct (isSubModule a) eqn:Ha.
      * rewrite compare_clang_native, compare_native_clang by done.
        cbn. by destruct (StringRef_lt _ _).
      * rewrite compare_top_level_l, compare_top_level_r by done; reflexivity.
    + destruct (isSubModule a) eqn:Ha.
      2: { rewrite (compare_top_level_l a), (compare_top_level_r _ a) by done.
           reflexivity. }
      destruct (isSubModule b) eqn:Hb.
      2: { rewrite (compare_top_level_l b), (compare_top_level_r _ b) by done.
           reflexivity. }
      destruct (decide (forward_path a = forward_path b)) as [He|Hne].
      { rewrite !compare_clang_clang_same by done; reflexivity. }
      rewrite !compare_clang_clang by done.
      rewrite (lexicographical_compare_flip (forward_path a)) by done.
      cbn. by destruct (lexicographical_compare _ _).
  - intros c Hc.
    destruct (compare_key _ _ _ Hc) as [[-> _]|[(-> & _)|[-> _]]]; auto.
Qed.

(** X5: the comparator is transitive where it answers: when [x] may stand
    before [y] and [y] before [z], it answers for [x] and [z] too, and
    says that [x] may stand before [z]; strictly so as soon as one of the
    two given answers is strict. *)
Theorem comparator_is_transitive (x y z : ImportModuleTy) (c1 c2 : Z) :
  compareImportModulesByName x y = Ok c1 → c1 <= 0 →
  compareImportModulesByName y z = Ok c2 → c2 <= 0 →
  ∃ c3, compareImportModulesByName x z = Ok c3 ∧ c3 <= 0
        ∧ (c1 < 0 ∨ c2 < 0 → c3 < 0).
Proof.
  intros H1 Hle1 H2 Hle2.
  assert (import_le x z) as (c3 & H3 & Hle3).
  { trans y; [by exists c1|by exists c2]. }
  exists c3. split; [done|]. split; [done|]. intros Hstrict.
  destruct (compare_key _ _ _ H3) as [[-> _]|[(-> & He & _)|[-> _]]];
    [lia| |lia].
  exfalso.
  destruct (compare_key _ _ _ H1) as [[-> K1]|[(-> & K1 & _)|[-> _]]];
    [| |lia];
    destruct (compare_key _ _ _ H2) as [[-> K2]|[(-> & K2 & _)|[-> _]]];
    try lia.
  - rewrite He in K1.
    by apply (irreflexivity lexico (sort_key z)); trans (sort_key y).
  - rewrite He, <- K2 in K1. by apply (irreflexivity lexico) in K1.
  - rewrite <- He, <- K1 in K2. by apply (irreflexivity lexico) in K2.
Qed.

Lemma comparator_is_transitive_witness :
  ∃ c3, compareImportModulesByName (native 1%N "Alpha")
          (native 2%N "Zeta") = Ok c3
        ∧ c3 <= 0 ∧ (-1 < 0 ∨ -1 < 0 → c3 < 0).
Proof.
  apply (comparator_is_transitive (native 1%N "Alpha")
           (ofClangModule Alpha_Sub) (native 2%N "Zeta") (-1) (-1));
    first [reflexivity | lia].
Defined.

(** X6: the comparator answers for a pair exactly when every Clang entry
    of the pair is a submodule and, both being Clang entries, their full
    names differ; so it fails for a pair with a top-level Clang module on
    either side, and for every Clang entry compared with itself. *)
Theorem comparator_answers_iff (x y : ImportModuleTy) :
  ((∃ c, compareImportModulesByName x y = Ok c)
   ↔ match x, y with
     | ofModuleDecl _, ofModuleDecl _ => True
     | ofModuleDecl _, ofClangModule c | ofClangModule c, ofModuleDecl _ =>
         isSubModule c = true
     | ofClangModule a, ofClangModule b =>
         isSubModule a = true ∧ isSubModule b = true
         ∧ ReverseFullNameIterator a ≠ ReverseFullNameIterator b
     end)
  ∧ (∀ c, isSubModule c = false →
          compareImportModulesByName (ofClangModule c) y
          = AssertionFailure top_level_msg
          ∧ compareImportModulesByName x (ofClangModule c)
            = AssertionFailure top_level_msg)
  ∧ (∀ c, ∃ msg, compareImportModulesByName (ofClangModule c)
                   (ofClangModule c) = AssertionFailure msg).
Proof.
  split; [|split].
  - rewrite compare_Ok_iff. unfold comparable.
    destruct x as [a|a], y as [b|b]; cbn [wf_entry is_native sort_key].
    + split; [done|]. intros _. repeat split; done.
    + split; [by intros (_ & ? & _)|]. intros ?. repeat split; done.
    + split; [by intros (? & _)|]. intros ?. repeat split; done.
    + rewrite ReverseFullNameIterator_eq. split.
      * intros (? & ? & H). repeat split; [done..|]. by apply H.
      * intros (? & ? & H). repeat split; done.
  - intros c Hc. split.
    + by apply compare_top_level_l.
    + by apply compare_top_level_r.
  - intros c. destruct (isSubModule c) eqn:Hc.
    + exists same_full_name_msg. by apply compare_clang_clang_same.
    + exists top_level_msg. by apply compare_top_level_l.
Qed.

Lemma lexicographical_compare_prefix (p r : list string) :
  r ≠ [] → lexicographical_compare p (p ++ r) = true.
Proof.
  intros Hr. induction p as [|x p IH]; cbn.
  - by destruct r.
  - by rewrite StringRef_lt_irrefl.
Qed.

(** X7: a Clang submodule stands before every module below it: when the
    names of [c], read from the module upwards, end with those of [p], the
    comparator answers -1 for [p] against [c] and 1 for [c] against [p]. *)
Theorem module_sorts_before_its_submodules (p c : ClangModule)
    (below : list string) :
  isSubModule p = true → below ≠ [] →
  ReverseFullNameIterator c = below ++ ReverseFullNameIterator p →
  compareImportModulesByName (ofClangModule p) (ofClangModule c) = Ok (-1)
  ∧ compareImportModulesByName (ofClangModule c) (ofClangModule p) = Ok 1.
Proof.
  intros Hp Hb Hc.
  assert (forward_path c = forward_path p ++ reverse below) as Hpath.
  { unfold forward_path. by rewrite Hc, reverse_app. }
  assert (reverse below ≠ []) as Hr.
  { intros H. apply Hb. apply (inj reverse). by rewrite H. }
  assert (isSubModule c = true) as Hsub.
  { destruct c as [a n|a n q]; [|done]. cbn in Hc.
    destruct below as [|x [|y below]]; [done|..]; cbn in Hc.
    - destruct p; discriminate.
    - discriminate. }
  assert (forward_path p ≠ forward_path c) as Hne.
  { rewrite Hpath. intros H. apply (f_equal length) in H.
    rewrite length_app in H. destruct (reverse below); [done|].
    cbn in H. lia. }
  assert (lexicographical_compare (forward_path p) (forward_path c) = true)
    as Hlt.
  { rewrite Hpath. by apply lexicographical_compare_prefix. }
  split.
  - rewrite compare_clang_clang by done. by rewrite Hlt.
  - rewrite compare_clang_clang by done.
    rewrite (lexicographical_compare_flip (forward_path p)) by done.
    by rewrite Hlt.
Qed.

Lemma module_sorts_before_its_submodules_witness :
  compareImportModulesByName (ofClangModule Alpha_Sub)
    (ofClangModule (SubModule 77%N "Deep" Alpha_Sub)) = Ok (-1)
  ∧ compareImportModulesByName
      (ofClangModule (SubModule 77%N "Deep" Alpha_Sub))
      (ofClangModule Alpha_Sub) = Ok 1.
Proof.
  apply (module_sorts_before_its_submodules Alpha_Sub
           (SubModule 77%N "Deep" Alpha_Sub) ["Deep"]);
    first [reflexivity | discriminate].
Defined.

End ComparatorProperties.

(** ** [writeImports]: when it returns, and three edge cases *)

Section ImportProperties.
Import Samples.
Implicit Types (imports : list ImportModuleTy).

Lemma NoDup_clang_paths imports :
  NoDup (clang_paths imports)
  ↔ ∀ (i j : nat) (a b : ClangModule),
      imports !! i = Some (ofClangModule a) →
      imports !! j = Some (ofClangModule b) →
      ReverseFullNameIterator a = ReverseFullNameIterator b → i = j.
Proof.
  split.
  - intros Hnd i j a b Hi Hj He%ReverseFullNameIterator_eq.
    destruct (decide (i = j)) as [|Hij]; [done|].
    by destruct (clang_paths_lookup imports i j a b Hnd Hij Hi Hj).
  - induction imports as [|x imports IH]; intros H; [constructor|].
    assert (NoDup (clang_paths imports)) as Hnd.
    { apply IH. intros i j a b Hi Hj He.
      assert (S i = S j) as [= ->] by (by apply (H (S i) (S j) a b)).
      done. }
    destruct x as [m|c]; cbn; [done|]. constructor; [|done].
    intros (c' & Hin & He)%elem_of_clang_paths.
    apply list_elem_of_lookup_1 in Hin as [j Hj].
    assert (S j = 0%nat) as [=].
    apply (H (S j) 0%nat c' c); [done..|].
    by apply ReverseFullNameIterator_eq.
Qed.

(** X8: [writeImports] returns exactly when every Clang entry of the
    import set is a submodule and no two Clang entries, at different
    places of the set, have the same full name; and [printAsClangHeader]
    returns exactly when [writeImports] does for the import set of the
    Objective-C printer. *)
Theorem writeImports_returns_iff (E : Collaborators) (os out : raw_ostream)
    imports (M : ModuleDecl) (bh : string) (expose : bool) :
  ((∃ written, writeImports out imports M bh = Ok written)
   ↔ (∀ c, ofClangModule c ∈ imports → isSubModule c = true)
     ∧ (∀ (i j : nat) (a b : ClangModule),
          imports !! i = Some (ofClangModule a) →
          imports !! j = Some (ofClangModule b) →
          ReverseFullNameIterator a = ReverseFullNameIterator b → i = j))
  ∧ ((∃ r, printAsClangHeader E os M bh expose = Ok r)
     ↔ ∃ written, writeImports out (objc_imports E M) M bh = Ok written).
Proof.
  assert (∀ o l, (∃ written, writeImports o l M bh = Ok written)
                 ↔ imports_wf l) as Hwf.
  { intros o l. split.
    - intros [written [? _]%writeImports_Ok_iff]. done.
    - intros H. eexists. by apply writeImports_spec. }
  split.
  - rewrite Hwf. unfold imports_wf. rewrite NoDup_clang_paths, Forall_forall.
    split; intros [Hall Hnd]; (split; [|done]).
    + intros c Hc. by apply (Hall (ofClangModule c)).
    + intros [m|c] Hin; [done|]. by apply Hall.
  - rewrite Hwf, <- (Hwf ""), printAsClangHeader_spec.
    destruct (writeImports "" (objc_imports E M) M bh) as [written|msg].
    + split; intros _; by eexists.
    + split; by intros [? ?].
Qed.

Lemma isUnderlyingModule_bridging (M M' : ModuleDecl) (bh : string)
    (m : ModuleDecl) :
  bh ≠ "" → isUnderlyingModule M bh m = isUnderlyingModule M' bh m.
Proof. intros Hbh. unfold isUnderlyingModule. by destruct bh. Qed.

Lemma writeImports_loop_bridging (M M' : ModuleDecl) (bh : string)
    (st : loop_state) imports :
  bh ≠ "" →
  writeImports_loop M bh st imports = writeImports_loop M' bh st imports.
Proof.
  intros Hbh. revert st.
  induction imports as [|x imports IH]; intros st; [done|].
  cbn [writeImports_loop].
  assert (writeImports_body M bh st x = writeImports_body M' bh st x) as ->.
  { unfold writeImports_body.
    destruct st as [[o seen] u], x as [m|c]; [|done].
    by rewrite (isUnderlyingModule_bridging M M'). }
  destruct (writeImports_body M' bh st x) as [st'|msg]; [|done].
  apply IH.
Qed.

(** X9: with a bridging header, the module being printed has no part in
    the import block: neither its name nor its address is read, for the
    statements or for the include behind them, and the outcome is the
    same when an assertion fails. *)
Theorem bridging_header_hides_the_module (out : raw_ostream) imports
    (M M' : ModuleDecl) (bh : string) :
  bh ≠ "" → writeImports out imports M bh = writeImports out imports M' bh.
Proof.
  intros Hbh. unfold writeImports.
  destruct (array_pod_sort compareImportModulesByName imports)
    as [sortedImports|msg]; [|done].
  cbn. unfold writeImports_sorted.
  rewrite (writeImports_loop_bridging M M') by done.
  destruct (writeImports_loop M' bh _ sortedImports) as [[[o seen] u]|msg];
    [|done].
  cbn. by destruct bh.
Qed.

Lemma bridging_header_hides_the_module_witness :
  writeImports "" with_bridging Foo "Foo-Bridging-Header.h"
  = writeImports "" with_bridging Zeta "Foo-Bridging-Header.h".
Proof.
  apply (bridging_header_hides_the_module "" with_bridging Foo Zeta
           "Foo-Bridging-Header.h").
  discriminate.
Defined.

Lemma concat_text_app (a b : list string) :
  concat_text (a ++ b) = concat_text a +:+ concat_text b.
Proof.
  induction a as [|x a IH]; [done|]. cbn.
  by rewrite IH, string_app_assoc.
Qed.

(** X10: without a bridging header, the module being printed is not its
    own underlying module: when the import set holds the module itself,
    the block has the statement [@import Name;] for it, and no include
    follows the block unless another module object of that name is in the
    set as well. *)
Theorem module_is_imported_by_its_name (out : raw_ostream) imports
    (M : ModuleDecl) (written : raw_ostream) :
  writeImports out imports M "" = Ok written →
  ofModuleDecl M ∈ imports →
  isUnderlyingModule M "" M = false
  ∧ (∃ before after,
       written = out +:+ imports_opening +:+ before
                     +:+ "@import " +:+ getName M +:+ ";" +:+ nl +:+ after)
  ∧ ((∀ m, ofModuleDecl m ∈ imports → getName m = getName M →
           moduleAddr m = moduleAddr M) →
     written
     = out +:+ imports_opening
           +:+ concat_text (import_statement <$> import_paths M "" imports)
           +:+ "#endif" +:+ nl +:+ nl).
Proof.
  intros [Hwf ->]%writeImports_Ok_iff Hin.
  assert (isUnderlyingModule M "" M = false) as Hself.
  { unfold isUnderlyingModule. cbn. by rewrite N.eqb_refl. }
  split; [done|]. split.
  - assert ([getName M] ∈ import_paths M "" imports) as Hp.
    { apply elem_of_import_paths. by exists (ofModuleDecl M). }
    apply list_elem_of_split in Hp as (l1 & l2 & ->).
    exists (concat_text (import_statement <$> l1)),
           (imports_tail M "" l2 (has_counterpart M "" imports)).
    unfold imports_text, imports_tail.
    rewrite fmap_app, fmap_cons, concat_text_app. cbn [concat_text].
    unfold import_statement at 2. rewrite interleave_dot_one.
    by rewrite ?string_app_assoc.
  - intros Honly.
    assert (has_counterpart M "" imports = false) as ->.
    { apply not_true_iff_false. rewrite has_counterpart_true.
      intros ([m|c] & Hm & Hc); [|done]. cbn in Hc.
      unfold isUnderlyingModule in Hc. cbn in Hc.
      apply andb_true_iff in Hc as [Ha Hn].
      apply bool_decide_eq_true in Hn.
      rewrite (Honly m Hm Hn), N.eqb_refl in Ha. done. }
    unfold imports_text, imports_tail.
    by rewrite ?string_app_assoc, string_app_nil_r.
Qed.

Lemma module_is_imported_by_its_name_witness :
  ∃ before after,
    imports_text Foo "" [["A"]; ["Foo"]] false
    = "" +:+ imports_opening +:+ before
         +:+ "@import " +:+ getName Foo +:+ ";" +:+ nl +:+ after.
Proof.
  refine (proj1 (proj2 (module_is_imported_by_its_name ""
            [ofModuleDecl Foo; native 7%N "A"] Foo _ _ _))).
  - vm_compute. reflexivity.
  - apply list_elem_of_here.
Defined.

Lemma string_app_inv_l (a b c : string) : a +:+ b = a +:+ c → b = c.
Proof.
  induction a as [|x a IH]; [done|]. rewrite !string_app_cons.
  intros [= H]. by apply IH.
Qed.

(** X11: for the empty import set [writeImports] writes the frame of the
    block with no statement in it and nothing behind it, and the empty set
    is the only one for which it does. *)
Theorem empty_import_set (out : raw_ostream) imports (M : ModuleDecl)
    (bh : string) :
  writeImports out imports M bh
  = Ok (out +:+ imports_opening +:+ "#endif" +:+ nl +:+ nl)
  ↔ imports = [].
Proof.
  split.
  - intros [Hwf He]%writeImports_Ok_iff.
    unfold imports_text, imports_tail in He.
    rewrite ?string_app_assoc in He.
    do 2 apply string_app_inv_l in He.
    set (stmts := concat_text _) in He.
    set (incl := if has_counterpart M bh imports then _ else _) in He.
    assert (String.length stmts + String.length incl = 0)%nat as Hlen.
    { apply (f_equal String.length) in He.
      rewrite !string_length_app in He. cbn in He. lia. }
    assert (stmts = "" ∧ incl = "") as [Hs Hi].
    { destruct stmts, incl; cbn in Hlen; done || lia. }
    destruct imports as [|y imports]; [done|]. exfalso.
    destruct (is_counterpart M bh y) eqn:Hy.
    + subst incl. unfold has_counterpart in Hi. cbn [existsb] in Hi.
      rewrite Hy in Hi. cbn in Hi. unfold underlying_include in Hi.
      by destruct (empty bh).
    + assert (sort_key y ∈ import_paths M bh (y :: imports)) as Hp.
      { apply elem_of_import_paths. exists y. split; [left|done]. }
      subst stmts. destruct (import_paths M bh (y :: imports)) as [|k ks].
      * by apply elem_of_nil in Hp.
      * done.
  - intros ->.
    rewrite (writeImports_spec out [] M bh) by (split; constructor).
    unfold imports_text, imports_tail, has_counterpart.
    change (import_paths M bh []) with (@nil (list string)).
    cbn [fmap list_fmap concat_text existsb].
    by rewrite string_app_nil_l, string_app_nil_r.
Qed.

End ImportProperties.

(** ** What the compiler keeps of a conditional *)

Section Conditionals.
Context (eval : gset string → string → bool).
Implicit Types (st : pp_state) (ls : list string) (l : string).

Lemma preprocess_app st (a b : string) :
  whole_lines a = true →
  preprocess eval st (a +:+ b) = preprocess eval (preprocess eval st a) b.
Proof. intros Ha. unfold preprocess. by rewrite lines_app, foldl_app. Qed.

Lemma preprocess_line st l (rest : string) :
  no_nl l = true →
  preprocess eval st (l +:+ nl +:+ rest)
  = preprocess eval (step eval st l) rest.
Proof. intros Hl. unfold preprocess. by rewrite lines_line. Qed.

Lemma preprocess_last_line st l :
  no_nl l = true → preprocess eval st (l +:+ nl) = step eval st l.
Proof. intros Hl. unfold preprocess. by rewrite lines_last_line. Qed.

(** Balanced lines in a branch that is not kept change nothing. *)
Lemma run_dead ls st (gf : frame) (base : list frame) :
  nesting 0 ls = Some 0%nat →
  open_conditionals st = gf :: base → now gf = false →
  foldl (step eval) st ls = st.
Proof.
  intros Hn Hst Hgf.
  destruct (run_skipped eval ls st 0 0 [] gf base Hn Hst eq_refl Hgf
              (Forall_nil_2 _)) as (HD & HK & inner' & Hs & Hlen & _).
  destruct inner'; [|done]. cbn in Hs.
  rewrite (pp_state_eta (foldl _ _ _)), HD, HK, Hs, <- Hst.
  symmetry. apply pp_state_eta.
Qed.

(** A frame whose branch is kept whenever the text around it is makes no
    difference to the lines above it. *)
Lemma step_framed st st0 l (d d1 : nat) (inner : list frame) (gf : frame)
    (base : list frame) :
  nesting d [l] = Some d1 → length inner = d → now gf = keeping base →
  defined st = defined st0 → kept st = kept st0 →
  open_conditionals st = inner ++ gf :: base →
  open_conditionals st0 = inner ++ base →
  defined (step eval st l) = defined (step eval st0 l)
  ∧ kept (step eval st l) = kept (step eval st0 l)
  ∧ ∃ inner',
      open_conditionals (step eval st l) = inner' ++ gf :: base
      ∧ open_conditionals (step eval st0 l) = inner' ++ base
      ∧ length inner' = d1.
Proof.
  intros Hn Hd Hgf HD HK Hst Hst0.
  assert (keeping (inner ++ gf :: base) = keeping (inner ++ base)) as Hk.
  { by destruct inner. }
  unfold step. cbn [nesting] in Hn. rewrite Hst, Hst0, HD, HK, Hk.
  destruct (parse_line l); cbn [open_conditionals defined kept];
    (split; [done|]); (split; [done|]);
    try (injection Hn as <-; by exists inner);
    try (injection Hn as <-; unfold open_frame; rewrite Hk;
         eexists (_ :: inner); split; [reflexivity|];
         split; [reflexivity|by cbn; rewrite Hd]);
    destruct d as [|d]; try done; injection Hn as <-;
    destruct inner as [|f inner]; try done.
  - eexists (_ :: inner). split; [reflexivity|]. split; [reflexivity|done].
  - eexists (_ :: inner). split; [reflexivity|]. split; [reflexivity|done].
  - exists inner. split; [done|]. split; [done|]. by injection Hd.
Qed.

Lemma run_framed ls st st0 (d d' : nat) (inner : list frame) (gf : frame)
    (base : list frame) :
  nesting d ls = Some d' → length inner = d → now gf = keeping base →
  defined st = defined st0 → kept st = kept st0 →
  open_conditionals st = inner ++ gf :: base →
  open_conditionals st0 = inner ++ base →
  defined (foldl (step eval) st ls) = defined (foldl (step eval) st0 ls)
  ∧ kept (foldl (step eval) st ls) = kept (foldl (step eval) st0 ls)
  ∧ ∃ inner',
      open_conditionals (foldl (step eval) st ls) = inner' ++ gf :: base
      ∧ open_conditionals (foldl (step eval) st0 ls) = inner' ++ base
      ∧ length inner' = d'.
Proof.
  revert st st0 d inner. induction ls as [|l ls IH]; intros st st0 d inner.
  { cbn. intros [= <-] ??????. repeat split; [done..|]. by exists inner. }
  rewrite nesting_cons. destruct (nesting d [l]) as [d1|] eqn:Hl; [|done].
  cbn [mbind option_bind foldl]. intros Hls Hd Hgf HD HK Hst Hst0.
  destruct (step_framed st st0 l d d1 inner gf base Hl Hd Hgf HD HK Hst Hst0)
    as (HD1 & HK1 & inner1 & H1 & H01 & Hd1).
  by apply (IH _ _ d1 inner1).
Qed.

(** Balanced lines in a branch that is kept whenever the text around it
    is: the same as without the conditional. *)
Lemma run_live ls st (gf : frame) :
  nesting 0 ls = Some 0%nat → now gf = keeping (open_conditionals st) →
  foldl (step eval)
    (mkState (defined st) (gf :: open_conditionals st) (kept st)) ls
  = let st' := foldl (step eval) st ls in
    mkState (defined st') (gf :: open_conditionals st') (kept st').
Proof.
  intros Hn Hgf.
  destruct (run_framed ls
              (mkState (defined st) (gf :: open_conditionals st) (kept st))
              st 0 0 [] gf (open_conditionals st) Hn eq_refl Hgf
              eq_refl eq_refl eq_refl eq_refl)
    as (HD & HK & inner' & Hs & Hs0 & Hlen).
  destruct inner'; [|done]. cbn in Hs, Hs0. cbn zeta.
  rewrite (pp_state_eta (foldl _ _ _)), HD, HK, Hs, Hs0. done.
Qed.

Lemma step_if st l (c : string) :
  parse_line l = PPIf c →
  step eval st l
  = mkState (defined st)
      (open_frame (open_conditionals st) (eval (defined st) c)) (kept st).
Proof. intros Hl. unfold step. by rewrite Hl. Qed.

Lemma step_else st (gf : frame) (base : list frame) :
  open_conditionals st = gf :: base →
  step eval st "#else"
  = mkState (defined st)
      ({| around := around gf;
          taken := taken gf || (around gf && negb (taken gf));
          now := around gf && negb (taken gf) |} :: base) (kept st).
Proof.
  intros Hst. unfold step. change (parse_line "#else") with PPElse.
  rewrite Hst. cbn. by rewrite andb_true_r.
Qed.

Lemma step_endif st :
  step eval st "#endif"
  = mkState (defined st) (tail (open_conditionals st)) (kept st).
Proof. reflexivity. Qed.

(** [L], the text [A], [#endif]: the text when the condition of [L]
    holds, nothing otherwise. *)
Lemma conditional_one_branch st (L c A : string) :
  no_nl L = true → parse_line L = PPIf c →
  whole_lines A = true → balanced (lines A) = true →
  preprocess eval st (L +:+ nl +:+ A +:+ "#endif" +:+ nl)
  = if eval (defined st) c then preprocess eval st A else st.
Proof.
  intros HL Hp HA Hbal%bool_decide_eq_true.
  rewrite preprocess_line, preprocess_app, preprocess_last_line,
    step_endif by done.
  rewrite (step_if st L c Hp). unfold open_frame, preprocess.
  destruct (eval (defined st) c).
  - rewrite andb_true_r, run_live by (done || by rewrite andb_true_r).
    cbn. symmetry. apply pp_state_eta.
  - rewrite andb_false_r.
    rewrite (run_dead (lines A) _ _ (open_conditionals st)) by done.
    cbn. symmetry. apply pp_state_eta.
Qed.

(** [L], the text [A], [#else], the text [B], [#endif]: the text [A] when
    the condition of [L] holds, the text [B] otherwise. *)
Lemma conditional_two_branches st (L c A B : string) :
  no_nl L = true → parse_line L = PPIf c →
  whole_lines A = true → balanced (lines A) = true →
  whole_lines B = true → balanced (lines B) = true →
  preprocess eval st
    (L +:+ nl +:+ A +:+ "#else" +:+ nl +:+ B +:+ "#endif" +:+ nl)
  = preprocess eval st (if eval (defined st) c then A else B).
Proof.
  intros HL Hp HA HbalA%bool_decide_eq_true HB HbalB%bool_decide_eq_true.
  rewrite preprocess_line, preprocess_app, preprocess_line, preprocess_app,
    preprocess_last_line, step_endif by done.
  rewrite (step_if st L c Hp). unfold open_frame, preprocess.
  destruct (eval (defined st) c).
  - rewrite andb_true_r, run_live by (done || by rewrite andb_true_r).
    cbn zeta. erewrite step_else by reflexivity.
    cbn [around taken now defined kept].
    rewrite andb_negb_r.
    rewrite (run_dead (lines B) _ _
               (open_conditionals (foldl (step eval) st (lines A))))
      by done.
    cbn. symmetry. apply pp_state_eta.
  - rewrite andb_false_r.
    rewrite (run_dead (lines A) _ _ (open_conditionals st)) by done.
    erewrite step_else by reflexivity.
    cbn [around taken now defined kept].
    rewrite andb_true_r, orb_false_l.
    rewrite run_live by done.
    cbn. symmetry. apply pp_state_eta.
Qed.

End Conditionals.

Section ConditionalProperties.
Import Samples.

(** X12: of the two cases that [emitCxxConditional] and
    [emitObjCConditional] are given, the compiler keeps exactly one: what
    it makes of the emitted text is what it makes of the first case alone
    when the condition holds where the text begins, and of the second
    case alone otherwise.  The cases are taken to write whole lines with
    balanced conditionals. *)
Theorem conditional_keeps_one_case
    (eval : gset string → string → bool) (st : pp_state)
    (out : raw_ostream) (first second : block) (A B : string) :
  (∀ o, first o = Ok (o +:+ A)) → (∀ o, second o = Ok (o +:+ B)) →
  whole_lines A = true → balanced (lines A) = true →
  whole_lines B = true → balanced (lines B) = true →
  (let text := "#if defined(__cplusplus)" +:+ nl +:+ A
                 +:+ "#else" +:+ nl +:+ B +:+ "#endif" +:+ nl in
   emitCxxConditional out first (Some second) = Ok (out +:+ text)
   ∧ preprocess eval st text
     = preprocess eval st
         (if eval (defined st) " defined(__cplusplus)" then A else B))
  ∧ (let text := "#if defined(__OBJC__)" +:+ nl +:+ A
                   +:+ "#else" +:+ nl +:+ B +:+ "#endif" +:+ nl in
     emitObjCConditional out first (Some second) = Ok (out +:+ text)
     ∧ preprocess eval st text
       = preprocess eval st
           (if eval (defined st) " defined(__OBJC__)" then A else B)).
Proof.
  intros Hfirst Hsecond HA HbA HB HbB. split; cbn zeta; split.
  - unfold emitCxxConditional. rewrite Hfirst. cbn. rewrite Hsecond. cbn.
    unfold write. by rewrite ?string_app_assoc.
  - by apply (conditional_two_branches eval st "#if defined(__cplusplus)").
  - unfold emitObjCConditional. rewrite Hfirst. cbn. rewrite Hsecond. cbn.
    unfold write. by rewrite ?string_app_assoc.
  - by apply (conditional_two_branches eval st "#if defined(__OBJC__)").
Qed.

Lemma conditional_keeps_one_case_witness :
  let A := "#include <cstdint>" +:+ nl in
  let B := "#include <stdint.h>" +:+ nl in
  let text := "#if defined(__cplusplus)" +:+ nl +:+ A
                +:+ "#else" +:+ nl +:+ B +:+ "#endif" +:+ nl in
  emitCxxConditional "" (λ o, Ok (o +:+ A)) (Some (λ o, Ok (o +:+ B)))
  = Ok ("" +:+ text)
  ∧ preprocess (λ _ _, false) (mkState ∅ [] []) text
    = preprocess (λ _ _, false) (mkState ∅ [] []) B.
Proof.
  intros A B text.
  apply (conditional_keeps_one_case (λ _ _, false) (mkState ∅ [] []) ""
           (λ o, Ok (o +:+ A)) (λ o, Ok (o +:+ B)) A B);
    first [reflexivity | intros; reflexivity].
Defined.

(** X13: with one case only, the compiler keeps the case when the
    condition holds where the text begins, and nothing of the emitted text
    otherwise: not a line, not a definition, no open conditional. *)
Theorem conditional_without_alternative
    (eval : gset string → string → bool) (st : pp_state)
    (out : raw_ostream) (first : block) (A : string) :
  (∀ o, first o = Ok (o +:+ A)) →
  whole_lines A = true → balanced (lines A) = true →
  (emitCxxConditional out first None = Ok (out +:+ cxx_guarded A)
   ∧ preprocess eval st (cxx_guarded A)
     = if eval (defined st) " defined(__cplusplus)"
       then preprocess eval st A else st)
  ∧ (emitObjCConditional out first None = Ok (out +:+ objc_guarded A)
     ∧ preprocess eval st (objc_guarded A)
       = if eval (defined st) " defined(__OBJC__)"
         then preprocess eval st A else st).
Proof.
  intros Hfirst HA HbA. split; split.
  - unfold emitCxxConditional. rewrite Hfirst. cbn.
    unfold write, cxx_guarded. by rewrite ?string_app_assoc.
  - by apply (conditional_one_branch eval st "#if defined(__cplusplus)").
  - unfold emitObjCConditional. rewrite Hfirst. cbn.
    unfold write, objc_guarded. by rewrite ?string_app_assoc.
  - by apply (conditional_one_branch eval st "#if defined(__OBJC__)").
Qed.

Lemma conditional_without_alternative_witness :
  let A := "#include <Foundation/Foundation.h>" +:+ nl in
  emitObjCConditional "" (λ o, Ok (o +:+ A)) None = Ok ("" +:+ objc_guarded A)
  ∧ preprocess (λ _ _, false) (mkState ∅ [] []) (objc_guarded A)
    = mkState ∅ [] [].
Proof.
  intros A.
  apply (conditional_without_alternative (λ _ _, false) (mkState ∅ [] []) ""
           (λ o, Ok (o +:+ A)) A);
    first [reflexivity | intros; reflexivity].
Defined.

End ConditionalProperties.

(** ** What a compiler without Objective-C or without C++ sees of the
       header *)

Section HeaderVisibility.
Import Samples.

Lemma imports_text_lines (g : string) (M : ModuleDecl) (bh : string)
    (paths : list (list string)) (underlying : bool) :
  no_nl (getName M) = true → no_nl bh = true →
  Forall (λ k, forallb no_nl k = true) paths →
  block_ok g (imports_text M bh paths underlying) = true.
Proof.
  intros Hn Hb Hp%(import_statements_lines g). apply block_ok_segment.
  unfold imports_text, imports_opening, imports_tail, underlying_include.
  destruct underlying; [destruct (empty bh)|];
    rewrite ?string_app_assoc, ?string_app_nil_l; walk.
Qed.

Lemma prologue_whole_lines (g : string) (E : Collaborators)
    (ctx : ASTContext) (G : string) :
  no_nl (getSwiftFullVersion E (EffectiveLanguageVersion ctx)) = true →
  no_nl G = true →
  forallb simd_ok (SIMDMappedTypes_def E) = true →
  forallb (macro_ok g) (ClangMacros_def E) = true →
  whole_lines (prologue_text E ctx G) = true.
Proof.
  intros Hv HG Hs Hm.
  destruct (prologue_lines g E ctx G) as (rest & -> & Hrest).
  apply block_ok_segment in Hrest; [|done..].
  enough (segment g 0 1
            ("// Generated by "
               +:+ getSwiftFullVersion E (EffectiveLanguageVersion ctx) +:+ nl
               +:+ "#ifndef " +:+ G +:+ nl
               +:+ "#define " +:+ G +:+ nl +:+ rest)) as [H _] by done.
  walk.
Qed.

(** The parts of the header, each in whole lines with balanced
    conditionals, when the text from outside is. *)
Lemma header_parts (E : Collaborators) (M : ModuleDecl) (bh : string)
    (expose : bool) (written : string) :
  external_text_ok E M bh expose = true →
  writeImports "" (objc_imports E M) M bh = Ok written →
  let g := macro_name (computeMacroGuard M) in
  whole_lines (block_prologue E M) = true
  ∧ block_ok g written = true
  ∧ block_ok g (block_post_import M) = true
  ∧ block_ok g (fst (printModuleContentsAsObjC E M)) = true
  ∧ block_ok g (if expose then getModuleContentsCxxString E M else "") = true.
Proof.
  intros Hok [_ ->]%writeImports_Ok_iff g.
  unfold external_text_ok in Hok. rewrite !andb_true_iff in Hok.
  destruct Hok as [[[[[[[Hv Hn] Hb] Hi] Hs] Hm] Ho] Hc].
  fold g in Hm, Ho, Hc. rewrite string_app_nil_l.
  split; [|split; [|split; [|split]]].
  - unfold block_prologue.
    apply (prologue_whole_lines g E (getASTContext M) (computeMacroGuard M));
      [done| |done..].
    by apply guard_no_nl.
  - apply imports_text_lines; [done..|]. by apply import_paths_no_nl.
  - apply block_ok_segment, post_import_lines; [done|apply guard_not_any].
  - done.
  - destruct expose; [|done]. unfold getModuleContentsCxxString.
    by destruct (printModuleContentsAsCxx E M).
Qed.

Lemma block_ok_whole (g text : string) :
  block_ok g text = true →
  whole_lines text = true ∧ balanced (lines text) = true.
Proof. unfold block_ok. rewrite !andb_true_iff. tauto. Qed.

Lemma guarded_objc_whole (body : string) :
  whole_lines (objc_guarded body) = true.
Proof.
  unfold objc_guarded.
  rewrite <- !string_app_assoc. apply whole_lines_line.
Qed.

Lemma guarded_cxx_whole (body : string) :
  whole_lines (cxx_guarded body) = true.
Proof.
  unfold cxx_guarded.
  rewrite <- !string_app_assoc. apply whole_lines_line.
Qed.

(** X14: the two Objective-C blocks of the header, the import block with
    the include of the underlying module and the Objective-C
    declarations, are read by a compiler for which [__OBJC__] is defined
    as if they stood there without their guards, and leave no line, no
    definition and no open conditional with any other compiler. *)
Theorem objc_blocks_are_read_under_objc_only
    (eval : gset string → string → bool) (E : Collaborators)
    (M : ModuleDecl) (bh : string) (expose : bool)
    (header : raw_ostream) (ret : bool) (st : pp_state) (objc : bool) :
  (∀ D, eval D " defined(__OBJC__)" = objc) →
  external_text_ok E M bh expose = true →
  printAsClangHeader E "" M bh expose = Ok (header, ret) →
  ∃ written,
    writeImports "" (objc_imports E M) M bh = Ok written
    ∧ preprocess eval st header
      = preprocess eval st
          (block_prologue E M
             +:+ (if objc then written else "")
             +:+ block_post_import M
             +:+ (if objc then fst (printModuleContentsAsObjC E M) else "")
             +:+ block_cxx E M expose +:+ block_epilogue).
Proof.
  intros Heval Hok Hrun.
  rewrite printAsClangHeader_spec in Hrun.
  destruct (writeImports "" (objc_imports E M) M bh) as [written|msg] eqn:Hw;
    [|done].
  rewrite fmap_Ok, string_app_nil_l in Hrun. injection Hrun as <- _.
  exists written. split; [done|].
  destruct (header_parts E M bh expose written Hok Hw)
    as (HP & [HwI HbI]%block_ok_whole & [HwQ HbQ]%block_ok_whole
        & [HwO HbO]%block_ok_whole & _).
  assert (∀ st' body rest, whole_lines body = true →
            balanced (lines body) = true →
            preprocess eval st' (objc_guarded body +:+ rest)
            = preprocess eval st' ((if objc then body else "") +:+ rest))
    as Hguard.
  { intros st' body rest Hwb Hbb.
    rewrite preprocess_app by apply guarded_objc_whole. unfold objc_guarded.
    rewrite (conditional_one_branch eval st' "#if defined(__OBJC__)"
               " defined(__OBJC__)" body) by done.
    rewrite Heval. destruct objc; [by rewrite preprocess_app|done]. }
  unfold header_text, before_cxx, block_imports, block_objc.
  rewrite !string_app_assoc.
  rewrite !(preprocess_app eval st (block_prologue E M)) by done.
  rewrite Hguard by done.
  assert (whole_lines (if objc then written else "") = true) as HwI'
    by (by destruct objc).
  rewrite !(preprocess_app eval _ (if objc then written else "")) by done.
  rewrite !(preprocess_app eval _ (block_post_import M)) by done.
  by rewrite Hguard by done.
Qed.

Lemma objc_blocks_are_read_under_objc_only_witness :
  ∃ header written,
    printAsClangHeader Samples.E "" Foo "" true = Ok (header, false)
    ∧ writeImports "" (objc_imports Samples.E Foo) Foo "" = Ok written
    ∧ preprocess (λ _ _, false) (mkState ∅ [] []) header
      = preprocess (λ _ _, false) (mkState ∅ [] [])
          (block_prologue Samples.E Foo +:+ "" +:+ block_post_import Foo
             +:+ "" +:+ block_cxx Samples.E Foo true +:+ block_epilogue).
Proof.
  eexists.
  destruct (objc_blocks_are_read_under_objc_only (λ _ _, false) Samples.E Foo
              "" true _ false (mkState ∅ [] []) false
              (λ _, eq_refl) eq_refl eq_refl) as (written & Hw & Hread).
  exists written. split; [reflexivity|]. split; [exact Hw|exact Hread].
Defined.

Lemma before_cxx_whole (E : Collaborators) (M : ModuleDecl) (bh : string)
    (expose : bool) (written : string) :
  external_text_ok E M bh expose = true →
  writeImports "" (objc_imports E M) M bh = Ok written →
  whole_lines (before_cxx E M written) = true.
Proof.
  intros Hok Hw.
  destruct (header_parts E M bh expose written Hok Hw)
    as (HP & [HwI _]%block_ok_whole & [HwQ _]%block_ok_whole
        & [HwO _]%block_ok_whole & _).
  unfold before_cxx, block_imports, block_objc.
  apply whole_lines_app; [done|].
  apply whole_lines_app; [apply guarded_objc_whole|].
  apply whole_lines_app; [done|apply guarded_objc_whole].
Qed.

(** X15: the C++ declarations are read by a compiler for which
    [__cplusplus] is defined as if they stood in the header without their
    guard, and leave no line, no definition and no open conditional with
    any other compiler: to such a compiler the header written with
    exposure of the public declarations is the header written without
    it. *)
Theorem cxx_block_is_read_under_cxx_only
    (eval : gset string → string → bool) (E : Collaborators)
    (M : ModuleDecl) (bh : string) (exposed plain : raw_ostream)
    (ret ret' : bool) (st : pp_state) (cxx : bool) :
  (∀ D, eval D " defined(__cplusplus)" = cxx) →
  external_text_ok E M bh true = true →
  printAsClangHeader E "" M bh true = Ok (exposed, ret) →
  printAsClangHeader E "" M bh false = Ok (plain, ret') →
  ∃ written,
    writeImports "" (objc_imports E M) M bh = Ok written
    ∧ preprocess eval st plain
      = preprocess eval st (before_cxx E M written +:+ block_epilogue)
    ∧ preprocess eval st exposed
      = preprocess eval st
          (before_cxx E M written
             +:+ (if cxx then fst (printModuleContentsAsCxx E M) else "")
             +:+ block_epilogue)
    ∧ (cxx = false → preprocess eval st exposed = preprocess eval st plain).
Proof.
  intros Heval Hok Hon Hoff.
  rewrite printAsClangHeader_spec in Hon, Hoff.
  destruct (writeImports "" (objc_imports E M) M bh) as [written|msg] eqn:Hw;
    [|done].
  rewrite fmap_Ok, string_app_nil_l in Hon, Hoff.
  injection Hon as <- _. injection Hoff as <- _.
  exists written. split; [done|].
  pose proof (before_cxx_whole E M bh true written Hok Hw) as Hb.
  destruct (header_parts E M bh true written Hok Hw)
    as (_ & _ & _ & _ & [HwC HbC]%block_ok_whole).
  assert (∀ st' body, whole_lines body = true →
            balanced (lines body) = true →
            preprocess eval st' (cxx_guarded body +:+ block_epilogue)
            = preprocess eval st'
                ((if cxx then body else "") +:+ block_epilogue)) as Hguard.
  { intros st' body Hwb Hbb.
    rewrite preprocess_app by apply guarded_cxx_whole. unfold cxx_guarded.
    rewrite (conditional_one_branch eval st' "#if defined(__cplusplus)"
               " defined(__cplusplus)" body) by done.
    rewrite Heval. destruct cxx; [by rewrite preprocess_app|done]. }
  assert (getModuleContentsCxxString E M = fst (printModuleContentsAsCxx E M))
    as Hcxx.
  { unfold getModuleContentsCxxString.
    by destruct (printModuleContentsAsCxx E M). }
  unfold header_text, block_cxx. rewrite Hcxx in *.
  rewrite !(preprocess_app eval st (before_cxx E M written)) by done.
  rewrite !Hguard by done.
  split; [by destruct cxx|]. split; [done|]. by intros ->.
Qed.

Lemma cxx_block_is_read_under_cxx_only_witness :
  ∃ exposed plain,
    printAsClangHeader Samples.E "" Foo "" true = Ok (exposed, false)
    ∧ printAsClangHeader Samples.E "" Foo "" false = Ok (plain, false)
    ∧ exposed ≠ plain
    ∧ preprocess (λ _ _, false) (mkState ∅ [] []) exposed
      = preprocess (λ _ _, false) (mkState ∅ [] []) plain.
Proof.
  eexists _, _. split; [vm_compute; reflexivity|].
  split; [vm_compute; reflexivity|]. split; [by vm_compute|].
  lazymatch goal with
  | |- preprocess _ _ ?exposed = preprocess _ _ ?plain =>
      destruct (cxx_block_is_read_under_cxx_only (λ _ _, false) Samples.E Foo
                  "" exposed plain false false (mkState ∅ [] []) false)
        as (written & _ & _ & _ & Hsame);
        [intros; reflexivity|reflexivity|vm_compute; reflexivity..|]
  end.
  exact (Hsame eq_refl).
Defined.

End HeaderVisibility.

(** ** The guards inside the prologue *)

Section PrologueGuards.
Import Samples.

Lemma segment_whole (g : string) (text : string) :
  segment g 0 0 text →
  whole_lines text = true ∧ balanced (lines text) = true.
Proof. intros (Hw & Hn & _). split; [done|]. by apply bool_decide_eq_true. Qed.

(** X16: the macros of the table that are written under
    [#if !defined(NAME)] leave a macro alone that is defined already: where
    that condition does not hold, the compiler keeps nothing of what
    [CLANG_MACRO_BODY], [CLANG_MACRO], [CLANG_MACRO_ALTERNATIVE] and
    [CLANG_MACRO_OBJC] expand to. *)
Theorem defined_macro_is_left_alone
    (eval : gset string → string → bool) (st : pp_state) (NAME : string) :
  no_nl NAME = true →
  eval (defined st) (" !defined(" +:+ NAME +:+ ")") = false →
  (∀ BODY, balanced (lines (BODY +:+ nl)) = true →
           preprocess eval st (emitClangMacro "" (CLANG_MACRO_BODY NAME BODY))
           = st)
  ∧ (∀ ARGS VALUE, no_nl ARGS = true → no_nl VALUE = true →
       preprocess eval st (emitClangMacro "" (CLANG_MACRO NAME ARGS VALUE))
       = st)
  ∧ (∀ ARGS CONDITION VALUE ALTERNATIVE,
       no_nl ARGS = true → no_nl CONDITION = true → no_nl VALUE = true →
       no_nl ALTERNATIVE = true →
       preprocess eval st
         (emitClangMacro ""
            (CLANG_MACRO_ALTERNATIVE NAME ARGS CONDITION VALUE ALTERNATIVE))
       = st)
  ∧ (∀ ARGS VALUE, no_nl ARGS = true → no_nl VALUE = true →
       preprocess eval st
         (emitClangMacro "" (CLANG_MACRO_OBJC NAME ARGS VALUE))
       = st).
Proof.
  intros HN Heval.
  assert (∀ A, whole_lines A = true → balanced (lines A) = true →
            preprocess eval st
              (("#if !defined(" +:+ NAME +:+ ")") +:+ nl +:+ A
                 +:+ "#endif" +:+ nl) = st) as Hskip.
  { intros A HA HbA.
    rewrite (conditional_one_branch eval st _ (" !defined(" +:+ NAME +:+ ")"))
      by (done || by rewrite !no_nl_app, HN).
    by rewrite Heval. }
  assert (∀ A text, segment "" 0 0 A →
            text = ("#if !defined(" +:+ NAME +:+ ")") +:+ nl +:+ A
                     +:+ "#endif" +:+ nl →
            preprocess eval st text = st) as Hmacro.
  { intros A text [HwA HbA]%segment_whole ->. by apply Hskip. }
  split; [|split; [|split]].
  - intros BODY Hb. apply (Hskip (BODY +:+ nl)) in Hb as Hs;
      [|apply whole_lines_line].
    rewrite <- Hs at 2. f_equal. cbn [emitClangMacro].
    unfold emit_CLANG_MACRO_BODY, write.
    by rewrite string_app_nil_l, ?string_app_assoc.
  - intros ARGS VALUE HA HV.
    apply (Hmacro ("# define " +:+ NAME +:+ ARGS +:+ " " +:+ VALUE +:+ nl)).
    + walk.
    + cbn [emitClangMacro]. unfold emit_CLANG_MACRO_BODY, write.
      by rewrite string_app_nil_l, ?string_app_assoc.
  - intros ARGS CONDITION VALUE ALTERNATIVE HA HC HV HL.
    apply (Hmacro ("# if " +:+ CONDITION +:+ nl +:+
                   "#  define " +:+ NAME +:+ ARGS +:+ " " +:+ VALUE +:+ nl +:+
                   "# else" +:+ nl +:+
                   "#  define " +:+ NAME +:+ ARGS +:+ " " +:+ ALTERNATIVE
                     +:+ nl +:+
                   "# endif" +:+ nl)).
    + walk.
    + cbn [emitClangMacro]. unfold emit_CLANG_MACRO_BODY, write.
      by rewrite string_app_nil_l, ?string_app_assoc.
  - intros ARGS VALUE HA HV. cbn [emitClangMacro]. unfold write.
    rewrite string_app_nil_l, ?string_app_assoc.
    set (inner := "#if !defined(" +:+ NAME +:+ ")" +:+ nl +:+
                  "# define " +:+ NAME +:+ ARGS +:+ " " +:+ VALUE +:+ nl +:+
                  "#endif" +:+ nl).
    assert (segment "" 0 0 inner) as [Hwi Hbi]%segment_whole
      by (unfold inner; walk).
    assert (preprocess eval st inner = st) as Hinner.
    { apply (Hmacro ("# define " +:+ NAME +:+ ARGS +:+ " " +:+ VALUE +:+ nl)).
      - walk.
      - unfold inner. by rewrite ?string_app_assoc. }
    transitivity (preprocess eval st
                    ("#if defined(__OBJC__)" +:+ nl +:+ inner
                       +:+ "#endif" +:+ nl)).
    { f_equal. unfold inner. by rewrite ?string_app_assoc. }
    rewrite (conditional_one_branch eval st "#if defined(__OBJC__)"
               " defined(__OBJC__)" inner) by done.
    rewrite Hinner. by destruct (eval (defined st) " defined(__OBJC__)").
Qed.

Lemma defined_macro_is_left_alone_witness :
  preprocess (λ _ _, false) (mkState {["SWIFT_NORETURN"]} [] [])
    (emitClangMacro ""
       (CLANG_MACRO "SWIFT_NORETURN" "" "__attribute__((noreturn))"))
  = mkState {["SWIFT_NORETURN"]} [] [].
Proof.
  refine (proj1 (proj2 (defined_macro_is_left_alone (λ _ _, false)
            (mkState {["SWIFT_NORETURN"]} [] []) "SWIFT_NORETURN"
            eq_refl eq_refl)) "" "__attribute__((noreturn))" eq_refl eq_refl).
Defined.
End PrologueGuards.

Section TypedefBlock.
Import Samples.

Lemma app_step (c x b r : string) : x = b +:+ r → c +:+ x = (c +:+ b) +:+ r.
Proof. intros ->. by rewrite string_app_assoc. Qed.

Lemma app_stop (r : string) : r = "" +:+ r.
Proof. reflexivity. Qed.

(** X17: the prologue holds the [char16_t] and [char32_t] typedefs and,
    for every entry of the SIMD table in its order, the typedefs of its
    vectors of 2, 3 and 4 elements, inside one conditional on
    [SWIFT_TYPEDEFS], which the first line inside defines: where the macro
    is defined already the compiler keeps nothing of them, and where it is
    not, it is defined behind them. *)
Theorem typedefs_are_guarded
    (E : Collaborators) (ctx : ASTContext) (macroGuard : string) :
  forallb simd_ok (SIMDMappedTypes_def E) = true →
  let vector (t : SIMDMappedType) (n : string) :=
    "typedef " +:+ SCALAR_TYPE t +:+ " swift_" +:+ C_TYPE t +:+ n
      +:+ "  __attribute__((__ext_vector_type__(" +:+ n +:+ ")));" in
  let typedefs :=
    text_of_lines
      ([ "#if !defined(SWIFT_TYPEDEFS)";
         "# define SWIFT_TYPEDEFS 1";
         "# if __has_include(<uchar.h>)";
         "#  include <uchar.h>";
         "# elif !defined(__cplusplus)";
         "typedef uint_least16_t char16_t;";
         "typedef uint_least32_t char32_t;";
         "# endif" ]
       ++ (SIMDMappedTypes_def E
             ≫= λ t, [vector t "2"; vector t "3"; vector t "4"])
       ++ ["#endif"]) in
  (∃ before after,
     prologue_text E ctx macroGuard = before +:+ typedefs +:+ after)
  ∧ ∀ (eval : gset string → string → bool) (st : pp_state),
      (eval (defined st) " !defined(SWIFT_TYPEDEFS)" = false →
       preprocess eval st typedefs = st)
      ∧ (eval (defined st) " !defined(SWIFT_TYPEDEFS)" = true →
         keeping (open_conditionals st) = true →
         "SWIFT_TYPEDEFS" ∈ defined (preprocess eval st typedefs)).
Proof.
  intros Hs vector listed.
  set (typedefs :=
    "#if !defined(SWIFT_TYPEDEFS)" +:+ nl
      +:+ "# define SWIFT_TYPEDEFS 1" +:+ nl
      +:+ "# if __has_include(<uchar.h>)" +:+ nl
      +:+ "#  include <uchar.h>" +:+ nl
      +:+ "# elif !defined(__cplusplus)" +:+ nl
      +:+ "typedef uint_least16_t char16_t;" +:+ nl
      +:+ "typedef uint_least32_t char32_t;" +:+ nl
      +:+ "# endif" +:+ nl
      +:+ foldl MAP_SIMD_TYPE "" (SIMDMappedTypes_def E)
      +:+ "#endif" +:+ nl).
  assert (listed = typedefs) as Hlisted.
  { unfold listed, typedefs, vector.
    change (λ t : SIMDMappedType, [_; _; _]) with simd_listing.
    rewrite !text_of_lines_app, <- simd_text.
    rewrite !text_of_lines_cons, text_of_lines_nil.
    by rewrite ?string_app_assoc, ?string_app_nil_r. }
  clearbody listed. subst listed. clear vector. split.
  - eassert (prologue_text E ctx macroGuard = _) as ->.
    { unfold prologue_text, writePrologue, emitObjCConditional,
        emitCxxConditional. cbn.
      rewrite (foldl_write_ext emitClangMacro) by apply emitClangMacro_ext.
      rewrite (foldl_write_ext MAP_SIMD_TYPE) by apply MAP_SIMD_TYPE_ext.
      stream_norm. reflexivity. }
    eassert (typedefs +:+ nl +:+ foldl emitClangMacro "" (ClangMacros_def E)
             = _) as Ht.
    { unfold typedefs. rewrite ?string_app_assoc. reflexivity. }
    eexists _, (nl +:+ foldl emitClangMacro "" (ClangMacros_def E)).
    rewrite Ht.
    repeat first [exact (app_stop _) | eapply app_step].
  - intros eval st.
    set (body := "# define SWIFT_TYPEDEFS 1" +:+ nl
      +:+ "# if __has_include(<uchar.h>)" +:+ nl
      +:+ "#  include <uchar.h>" +:+ nl
      +:+ "# elif !defined(__cplusplus)" +:+ nl
      +:+ "typedef uint_least16_t char16_t;" +:+ nl
      +:+ "typedef uint_least32_t char32_t;" +:+ nl
      +:+ "# endif" +:+ nl
      +:+ foldl MAP_SIMD_TYPE "" (SIMDMappedTypes_def E)).
    pose proof (simd_lines "SWIFT_TYPEDEFS" _ Hs) as Hsimd.
    assert (segment "SWIFT_TYPEDEFS" 0 0 body) as Hbody.
    { unfold body. walk. }
    destruct (segment_whole _ _ Hbody) as [Hwb Hbb].
    assert (preprocess eval st typedefs
            = if eval (defined st) " !defined(SWIFT_TYPEDEFS)"
              then preprocess eval st body else st) as ->.
    { rewrite <- (conditional_one_branch eval st
                    "#if !defined(SWIFT_TYPEDEFS)") by done.
      reflexivity. }
    split; intros ->; [done|]. intros Hkeep.
    unfold body. rewrite preprocess_line by done.
    unfold preprocess. apply run_keeps.
    + destruct Hbody as (_ & _ & Hk). unfold body in Hk.
      rewrite lines_line in Hk by done. rewrite keeps_cons in Hk.
      by apply andb_true_iff in Hk as [_ ?].
    + unfold step.
      change (parse_line "# define SWIFT_TYPEDEFS 1")
        with (PPDefine "SWIFT_TYPEDEFS").
      cbn [defined]. rewrite Hkeep. by apply elem_of_union_l, elem_of_singleton.
Qed.

Lemma typedefs_are_guarded_witness :
  ∃ before after,
    prologue_text Samples.E ctx "FOO_SWIFT_H"
    = before
        +:+ text_of_lines
              ([ "#if !defined(SWIFT_TYPEDEFS)";
                 "# define SWIFT_TYPEDEFS 1";
                 "# if __has_include(<uchar.h>)";
                 "#  include <uchar.h>";
                 "# elif !defined(__cplusplus)";
                 "typedef uint_least16_t char16_t;";
                 "typedef uint_least32_t char32_t;";
                 "# endif" ]
               ++ (SIMDMappedTypes_def Samples.E
                     ≫= λ t,
                          (λ n, "typedef " +:+ SCALAR_TYPE t +:+ " swift_"
                                  +:+ C_TYPE t +:+ n
                                  +:+ "  __attribute__((__ext_vector_type__("
                                  +:+ n +:+ ")));")
                            <$> ["2"; "3"; "4"])
               ++ ["#endif"])
        +:+ after.
Proof.
  exact (proj1 (typedefs_are_guarded Samples.E ctx "FOO_SWIFT_H" eq_refl)).
Defined.

End TypedefBlock.

(** ** [computeMacroGuard] *)

Section GuardProperties.
Import Samples.

Lemma toUpper_idemp (x : ascii) : toUpper (toUpper x) = toUpper x.
Proof. by destruct x as [[] [] [] [] [] [] [] []]. Qed.

Lemma upper_idemp (s : string) : upper (upper s) = upper s.
Proof.
  induction s as [|x s IH]; [done|]. cbn [upper].
  by rewrite toUpper_idemp, IH.
Qed.

Lemma upper_app (a b : string) : upper (a +:+ b) = upper a +:+ upper b.
Proof.
  induction a as [|x a IH]; [done|]. rewrite !string_app_cons. cbn [upper].
  by rewrite IH, string_app_cons.
Qed.

Lemma upper_length (s : string) : String.length (upper s) = String.length s.
Proof. induction s as [|x s IH]; [done|]. cbn. by rewrite IH. Qed.

(** X18: two modules get the same guard macro exactly when their names
    are the same up to the case of the letters a to z, so that the guard
    of a module is also the guard of the module named in capitals; the
    guard holds none of the letters a to z and is eight characters longer
    than the name. *)
Theorem guard_ignores_letter_case (M1 M2 : ModuleDecl) :
  (computeMacroGuard M1 = computeMacroGuard M2
   ↔ upper (getNameStr M1) = upper (getNameStr M2))
  ∧ computeMacroGuard
      (mkModuleDecl (moduleAddr M1) (upper (getName M1)) (getASTContext M1))
    = computeMacroGuard M1
  ∧ upper (computeMacroGuard M1) = computeMacroGuard M1
  ∧ String.length (computeMacroGuard M1)
    = (String.length (getNameStr M1) + 8)%nat.
Proof.
  unfold computeMacroGuard, getNameStr. cbn [getName].
  split; [|split; [|split]].
  - split; [apply string_app_inv_r|by intros ->].
  - by rewrite upper_idemp.
  - by rewrite upper_app, upper_idemp.
  - by rewrite string_length_app, upper_length.
Qed.

End GuardProperties.

(** ** The import block as the compiler reads it *)

(** Regroups the text that is being read. *)
Ltac regroup t' :=
  lazymatch goal with
  | |- context [preprocess _ _ ?t] =>
      replace t with t' by (rewrite ?string_app_assoc; reflexivity)
  end.

Section ImportBlockCompiled.
Import Samples.
Context (eval : gset string → string → bool).

Lemma step_text (st : pp_state) (l : string) :
  parse_line l = PPOther ∨ parse_line l = PPText →
  keeping (open_conditionals st) = true →
  step eval st l = mkState (defined st) (open_conditionals st) (kept st ++ [l]).
Proof. intros [Hl|Hl] Hk; unfold step; by rewrite Hl, Hk. Qed.

Lemma preprocess_empty_line (st : pp_state) (rest : string) :
  preprocess eval st (nl +:+ rest) = preprocess eval (step eval st "") rest.
Proof. by apply (preprocess_line eval st ""). Qed.

Lemma statements_compiled (st : pp_state) (paths : list (list string)) :
  Forall (λ k, forallb no_nl k = true) paths →
  keeping (open_conditionals st) = true →
  preprocess eval st (concat_text (import_statement <$> paths))
  = mkState (defined st) (open_conditionals st)
      (kept st
         ++ ((λ k, "@import " +:+ interleave_dot "" k +:+ ";") <$> paths)).
Proof.
  intros Hp. revert st. induction Hp as [|k paths Hk _ IH]; intros st Hst.
  { cbn. rewrite app_nil_r. apply pp_state_eta. }
  rewrite !fmap_cons. cbn [concat_text]. unfold import_statement at 1.
  apply interleave_dot_no_nl in Hk.
  rewrite !string_app_assoc.
  rewrite <- (string_app_assoc (interleave_dot "" k) ";").
  rewrite <- (string_app_assoc "@import ").
  rewrite preprocess_line by (by rewrite !no_nl_app, Hk).
  rewrite step_text; [|by right|done].
  rewrite IH by done. cbn [defined open_conditionals kept].
  by rewrite <- app_assoc.
Qed.

End ImportBlockCompiled.

Section ImportBlockProperties.
Import Samples.

(** X19: what the compiler keeps of the text of [writeImports], read
    where text is being kept: the [@import] statements, in their order,
    when [__has_feature(modules)] holds, behind the one [#pragma] when
    [__has_warning] knows the warning; then an empty line; then, modules
    or not, the include of the underlying module with an empty line, when
    the import set holds the counterpart.  Nothing is defined and no
    conditional is left open. *)
Theorem import_block_as_compiled
    (eval : gset string → string → bool) (st : pp_state)
    (imports : list ImportModuleTy) (M : ModuleDecl) (bh : string)
    (written : raw_ostream) :
  writeImports "" imports M bh = Ok written →
  forallb import_ok imports = true →
  no_nl (getName M) = true → no_nl bh = true →
  keeping (open_conditionals st) = true →
  let modules := eval (defined st) " __has_feature(modules)" in
  let warning :=
    eval (defined st)
      (" __has_warning(" +:+ dq +:+ "-Watimport-in-framework-header" +:+ dq
         +:+ ")") in
  let statements :=
    (λ k, "@import " +:+ interleave_dot "" k +:+ ";")
      <$> import_paths M bh imports in
  let include :=
    if empty bh then "#import <" +:+ getName M +:+ "/" +:+ getName M +:+ ".h>"
    else "#import " +:+ dq +:+ bh +:+ dq in
  preprocess eval st written
  = mkState (defined st) (open_conditionals st)
      (kept st
         ++ (if modules then
               (if warning then
                  ["#pragma clang diagnostic ignored " +:+ dq
                     +:+ "-Watimport-in-framework-header" +:+ dq]
                else [])
               ++ statements
             else [])
         ++ [""]
         ++ (if has_counterpart M bh imports then [include; ""] else [])).
Proof.
  intros [_ ->]%writeImports_Ok_iff Hok Hn Hb Hkeep modules warning
    statements include.
  pose proof (import_paths_no_nl M bh imports Hok) as Hp.
  rewrite string_app_nil_l.
  set (paths := import_paths M bh imports) in *.
  set (pragma := "#pragma clang diagnostic ignored " +:+ dq
                   +:+ "-Watimport-in-framework-header" +:+ dq).
  set (W := ("#if __has_warning(" +:+ dq +:+ "-Watimport-in-framework-header"
               +:+ dq +:+ ")") +:+ nl +:+ (pragma +:+ nl) +:+ "#endif" +:+ nl).
  set (S := concat_text (import_statement <$> paths)).
  set (tail := nl +:+ (if has_counterpart M bh imports
                       then underlying_include M bh else "")).
  assert (imports_text M bh paths (has_counterpart M bh imports)
          = "#if __has_feature(modules)" +:+ nl +:+ (W +:+ S)
              +:+ "#endif" +:+ nl +:+ tail) as ->.
  { unfold imports_text, imports_opening, imports_tail, W, S, tail, pragma.
    by rewrite ?string_app_assoc. }
  assert (block_ok "" S = true) as HS by (by apply import_statements_lines).
  destruct (block_ok_whole _ _ HS) as [HwS HbS].
  assert (segment "" 0 0 W) as HW
    by (unfold W, pragma; rewrite ?string_app_assoc; walk).
  destruct (segment_whole _ _ HW) as [HwW HbW].
  assert (segment "" 0 0 (W +:+ S)) as [HwA HbA]%segment_whole.
  { apply (segment_app "" 0 0 0); [done|]. by apply block_ok_segment. }
  regroup (("#if __has_feature(modules)" +:+ nl +:+ (W +:+ S)
              +:+ "#endif" +:+ nl) +:+ tail).
  rewrite preprocess_app.
  2: { rewrite <- !string_app_assoc. apply whole_lines_line. }
  rewrite (conditional_one_branch eval st "#if __has_feature(modules)"
             " __has_feature(modules)" (W +:+ S)) by done.
  fold modules.
  assert (preprocess eval st (W +:+ S)
          = mkState (defined st) (open_conditionals st)
              (kept st ++ (if warning then [pragma] else []) ++ statements))
    as HA.
  { rewrite preprocess_app by done. unfold W.
    rewrite (conditional_one_branch eval st _
               (" __has_warning(" +:+ dq +:+ "-Watimport-in-framework-header"
                  +:+ dq +:+ ")") (pragma +:+ nl));
      [|reflexivity|reflexivity|reflexivity|reflexivity].
    fold warning. destruct warning.
    - rewrite preprocess_last_line by reflexivity.
      rewrite step_text; [|by left|done].
      unfold S. rewrite statements_compiled by done.
      cbn [defined open_conditionals kept]. by rewrite <- app_assoc.
    - unfold S. by rewrite statements_compiled by done. }
  set (st1 := if modules then preprocess eval st (W +:+ S) else st).
  assert (st1 = mkState (defined st) (open_conditionals st)
                  (kept st ++ (if modules
                               then (if warning then [pragma] else [])
                                    ++ statements
                               else []))) as ->.
  { unfold st1. destruct modules; [done|].
    rewrite app_nil_r. apply pp_state_eta. }
  unfold tail. rewrite preprocess_empty_line.
  rewrite step_text; [|by right|done].
  cbn [defined open_conditionals kept].
  destruct (has_counterpart M bh imports).
  - unfold underlying_include, include. destruct (empty bh).
    + regroup (("#import <" +:+ getName M +:+ "/" +:+ getName M +:+ ".h>")
                 +:+ nl +:+ nl).
      rewrite preprocess_line by (by rewrite !no_nl_app, Hn).
      rewrite step_text; [|by left|done].
      cbn [defined open_conditionals kept].
      rewrite (preprocess_last_line eval _ "") by done.
      rewrite step_text; [|by right|done].
      cbn [defined open_conditionals kept].
      by rewrite <- !app_assoc, ?string_app_assoc.
    + regroup (("#import " +:+ dq +:+ bh +:+ dq) +:+ nl +:+ nl).
      rewrite preprocess_line by (by rewrite !no_nl_app, Hb).
      rewrite step_text; [|by left|done].
      cbn [defined open_conditionals kept].
      rewrite (preprocess_last_line eval _ "") by done.
      rewrite step_text; [|by right|done].
      cbn [defined open_conditionals kept].
      by rewrite <- !app_assoc, ?string_app_assoc.
  - cbn. by rewrite <- ?app_assoc.
Qed.

(** The set B, A, C under a compiler that has modules and knows the
    warning. *)
Lemma import_block_as_compiled_witness :
  ∃ written,
    writeImports "" BAC Foo "" = Ok written
    ∧ kept (preprocess (λ _ _, true) (mkState ∅ [] []) written)
      = ["#pragma clang diagnostic ignored " +:+ dq
           +:+ "-Watimport-in-framework-header" +:+ dq;
         "@import A;"; "@import B;"; "@import C;"; ""].
Proof.
  eexists. split; [vm_compute; reflexivity|].
  rewrite (import_block_as_compiled (λ _ _, true) (mkState ∅ [] []) BAC Foo
             "" _ eq_refl eq_refl eq_refl eq_refl eq_refl).
  vm_compute. reflexivity.
Defined.

End ImportBlockProperties.

(** ** The guard, read once and read again *)

Section GuardedReading.
Context (eval : gset string → string → bool).

Lemma step_ifndef (st : pp_state) (G : string) :
  step eval st ("#ifndef " +:+ G)
  = mkState (defined st)
      (open_frame (open_conditionals st)
         (negb (bool_decide (macro_name G ∈ defined st))))
      (kept st).
Proof. reflexivity. Qed.

Lemma step_define (st : pp_state) (G : string) :
  step eval st ("#define " +:+ G)
  = mkState (if keeping (open_conditionals st)
             then {[macro_name G]} ∪ defined st else defined st)
      (open_conditionals st) (kept st).
Proof. reflexivity. Qed.

(** A text between [#ifndef G], [#define G] and [#endif], under one line
    of its own, read where text is being kept: the macro is defined
    behind it and no conditional stays open; where the macro is defined
    before it, only the first line is kept. *)
Lemma guarded_read (banner G body : string) (st : pp_state) :
  no_nl banner = true → parse_line banner = PPText →
  no_nl G = true →
  block_ok (macro_name G) body = true →
  keeping (open_conditionals st) = true →
  let st' :=
    preprocess eval st
      (banner +:+ nl +:+ "#ifndef " +:+ G +:+ nl
         +:+ "#define " +:+ G +:+ nl +:+ body +:+ "#endif" +:+ nl) in
  macro_name G ∈ defined st'
  ∧ open_conditionals st' = open_conditionals st
  ∧ (macro_name G ∈ defined st →
     st' = mkState (defined st) (open_conditionals st) (kept st ++ [banner])).
Proof.
  intros Hb Hpb HG Hbody Hkeep st'.
  destruct (block_ok_whole _ _ Hbody) as [Hw Hbal].
  apply bool_decide_eq_true in Hbal.
  assert (keeps (macro_name G) (lines body) = true) as Hkeeps.
  { unfold block_ok in Hbody. by apply andb_true_iff in Hbody as [_ ?]. }
  set (b := negb (bool_decide (macro_name G ∈ defined st))).
  set (gf := {| around := true; taken := b; now := b |}).
  set (st3 := mkState (if b then {[macro_name G]} ∪ defined st
                       else defined st)
                (gf :: open_conditionals st) (kept st ++ [banner])).
  assert (st' = let st4 := foldl (step eval) st3 (lines body) in
                mkState (defined st4) (tail (open_conditionals st4))
                  (kept st4)) as ->.
  { unfold st'. rewrite preprocess_line by done.
    rewrite step_text by (by right || done).
    rewrite <- (string_app_assoc "#ifndef " G).
    rewrite preprocess_line by (by rewrite no_nl_app, HG).
    rewrite step_ifndef. cbn [defined open_conditionals kept].
    rewrite <- (string_app_assoc "#define " G).
    rewrite preprocess_line by (by rewrite no_nl_app, HG).
    rewrite step_define. cbn [defined open_conditionals kept].
    rewrite preprocess_app, preprocess_last_line, step_endif by done.
    unfold open_frame. rewrite Hkeep. cbn [keeping now andb].
    reflexivity. }
  cbn zeta. unfold st3, gf, b.
  destruct (bool_decide_reflect (macro_name G ∈ defined st)) as [Hin|Hout];
    cbn [negb].
  - erewrite run_dead; [|exact Hbal|reflexivity|reflexivity].
    cbn [defined open_conditionals kept tail]. done.
  - match goal with
    | |- context [foldl (step eval) ?s (lines body)] => set (st5 := s)
    end.
    destruct (run_balanced eval (lines body) st5 0 0 []
                ({| around := true; taken := true; now := true |}
                   :: open_conditionals st) Hbal eq_refl eq_refl)
      as (inner' & Hs & Hlen).
    destruct inner'; [|done]. cbn in Hs.
    cbn [defined open_conditionals kept]. rewrite Hs. cbn [tail].
    split; [|done].
    apply run_keeps; [done|]. by apply elem_of_union_l, elem_of_singleton.
Qed.

End GuardedReading.

Section GuardedHeaders.
Import Samples.

Lemma header_is_guarded (E : Collaborators) (M : ModuleDecl) (bh : string)
    (expose : bool) (header : raw_ostream) (ret : bool) :
  external_text_ok E M bh expose = true →
  printAsClangHeader E "" M bh expose = Ok (header, ret) →
  let banner :=
    "// Generated by "
      +:+ getSwiftFullVersion E (EffectiveLanguageVersion (getASTContext M)) in
  ∃ body,
    header = banner +:+ nl +:+ "#ifndef " +:+ computeMacroGuard M +:+ nl
               +:+ "#define " +:+ computeMacroGuard M +:+ nl
               +:+ body +:+ "#endif" +:+ nl
    ∧ block_ok (macro_name (computeMacroGuard M)) body = true
    ∧ no_nl banner = true
    ∧ no_nl (computeMacroGuard M) = true.
Proof.
  intros Hok Hrun banner.
  rewrite printAsClangHeader_spec in Hrun.
  destruct (writeImports "" (objc_imports E M) M bh) as [written|msg] eqn:Hw;
    [|done].
  rewrite fmap_Ok, string_app_nil_l in Hrun. injection Hrun as <- _.
  destruct (header_lines E M bh expose written Hok Hw) as (body & Hh & Hbody).
  exists body.
  unfold external_text_ok in Hok. rewrite !andb_true_iff in Hok.
  destruct Hok as [[[[[[[Hv Hn] _] _] _] _] _] _].
  split; [|split; [done|split]].
  - rewrite Hh. unfold banner. by rewrite ?string_app_assoc.
  - unfold banner. by rewrite no_nl_app, Hv.
  - by apply guard_no_nl.
Qed.

(** X20: a compiler that reads the header where text is being kept has
    the guard macro defined behind it, and no conditional of the header
    stays open, whatever the conditions inside evaluate to and whatever
    was defined before. *)
Theorem header_defines_its_guard
    (eval : gset string → string → bool) (E : Collaborators)
    (M : ModuleDecl) (bh : string) (expose : bool)
    (header : raw_ostream) (ret : bool) (st : pp_state) :
  external_text_ok E M bh expose = true →
  printAsClangHeader E "" M bh expose = Ok (header, ret) →
  keeping (open_conditionals st) = true →
  macro_name (computeMacroGuard M) ∈ defined (preprocess eval st header)
  ∧ open_conditionals (preprocess eval st header) = open_conditionals st.
Proof.
  intros Hok Hrun Hkeep.
  destruct (header_is_guarded E M bh expose header ret Hok Hrun)
    as (body & -> & Hbody & Hbanner & HG).
  destruct (guarded_read eval _ _ body st Hbanner eq_refl HG Hbody Hkeep)
    as (Hin & Hopen & _).
  done.
Qed.

Lemma header_defines_its_guard_witness :
  ∃ header,
    printAsClangHeader Samples.E "" Foo "" true = Ok (header, false)
    ∧ "FOO_SWIFT_H"
        ∈ defined (preprocess (λ _ _, true) (mkState ∅ [] []) header)
    ∧ open_conditionals (preprocess (λ _ _, true) (mkState ∅ [] []) header)
      = [].
Proof.
  eexists. split; [vm_compute; reflexivity|].
  apply (header_defines_its_guard (λ _ _, true) Samples.E Foo "" true _ false
           (mkState ∅ [] [])); reflexivity.
Defined.

(** X21: two modules whose names differ in nothing but the case of
    letters have one guard macro, so that of their two headers, read one
    behind the other, the second adds its banner line and nothing else:
    none of its declarations is kept and nothing of it is defined. *)
Theorem same_guard_hides_the_second_header
    (eval : gset string → string → bool) (E1 E2 : Collaborators)
    (M1 M2 : ModuleDecl) (bh1 bh2 : string) (expose1 expose2 : bool)
    (header1 header2 : raw_ostream) (ret1 ret2 : bool) (st : pp_state) :
  external_text_ok E1 M1 bh1 expose1 = true →
  external_text_ok E2 M2 bh2 expose2 = true →
  printAsClangHeader E1 "" M1 bh1 expose1 = Ok (header1, ret1) →
  printAsClangHeader E2 "" M2 bh2 expose2 = Ok (header2, ret2) →
  upper (getNameStr M1) = upper (getNameStr M2) →
  keeping (open_conditionals st) = true →
  preprocess eval st (header1 +:+ header2)
  = let st1 := preprocess eval st header1 in
    mkState (defined st1) (open_conditionals st)
      (kept st1
         ++ ["// Generated by "
               +:+ getSwiftFullVersion E2
                     (EffectiveLanguageVersion (getASTContext M2))]).
Proof.
  intros Hok1 Hok2 Hrun1 Hrun2 Hname Hkeep.
  assert (computeMacroGuard M1 = computeMacroGuard M2) as HG12.
  { unfold computeMacroGuard. by rewrite Hname. }
  destruct (header_is_guarded E1 M1 bh1 expose1 header1 ret1 Hok1 Hrun1)
    as (body1 & -> & Hbody1 & Hbanner1 & HG1).
  destruct (header_is_guarded E2 M2 bh2 expose2 header2 ret2 Hok2 Hrun2)
    as (body2 & -> & Hbody2 & Hbanner2 & HG2).
  rewrite preprocess_app
    by (rewrite <- !string_app_assoc; apply whole_lines_line).
  destruct (guarded_read eval _ _ body1 st Hbanner1 eq_refl HG1 Hbody1 Hkeep)
    as (Hin & Hopen & _).
  cbn zeta. set (st1 := preprocess eval st _) in *.
  assert (keeping (open_conditionals st1) = true) as Hkeep1
    by (by rewrite Hopen).
  destruct (guarded_read eval _ _ body2 st1 Hbanner2 eq_refl HG2 Hbody2 Hkeep1)
    as (_ & _ & Hagain).
  rewrite Hagain, Hopen; [done|]. by rewrite <- HG12.
Qed.

Lemma same_guard_hides_the_second_header_witness :
  ∃ header1 header2,
    printAsClangHeader Samples.E "" Foo "" true = Ok (header1, false)
    ∧ printAsClangHeader Samples.E ""
        (mkModuleDecl 300%N "foo" ctx) "" false
      = Ok (header2, false)
    ∧ preprocess (λ _ _, true) (mkState ∅ [] []) (header1 +:+ header2)
      = let st1 := preprocess (λ _ _, true) (mkState ∅ [] []) header1 in
        mkState (defined st1) []
          (kept st1 ++ ["// Generated by Swift version 5.7"]).
Proof.
  eexists _, _. split; [vm_compute; reflexivity|].
  split; [vm_compute; reflexivity|].
  apply (same_guard_hides_the_second_header (λ _ _, true) Samples.E Samples.E
           Foo (mkModuleDecl 300%N "foo" ctx) "" "" true false _ _ false false
           (mkState ∅ [] [])); reflexivity.
Defined.

End GuardedHeaders.

(** ** The directives behind the imports, and the epilogue *)

Section LinesRead.
Context (eval : gset string → string → bool).

Lemma whole_lines_concat (ls : list string) :
  whole_lines (concat_text ((λ l, l +:+ nl) <$> ls)) = true.
Proof.
  induction ls as [|l ls IH]; [done|]. rewrite fmap_cons. cbn [concat_text].
  apply whole_lines_app; [apply whole_lines_line|done].
Qed.

Lemma preprocess_lines (st : pp_state) (ls : list string) :
  Forall (λ l, no_nl l = true) ls →
  preprocess eval st (concat_text ((λ l, l +:+ nl) <$> ls))
  = foldl (step eval) st ls.
Proof.
  intros Hls. revert st. induction Hls as [|l ls Hl _ IH]; intros st; [done|].
  rewrite fmap_cons. cbn [concat_text foldl].
  rewrite string_app_assoc, preprocess_line by done. apply IH.
Qed.

Lemma lines_kept (st : pp_state) (ls : list string) :
  Forall (λ l, parse_line l = PPOther ∨ parse_line l = PPText) ls →
  keeping (open_conditionals st) = true →
  foldl (step eval) st ls
  = mkState (defined st) (open_conditionals st) (kept st ++ ls).
Proof.
  intros Hls. revert st. induction Hls as [|l ls Hl _ IH]; intros st Hkeep.
  { cbn. rewrite app_nil_r. apply pp_state_eta. }
  cbn [foldl]. rewrite step_text by done. rewrite IH by done.
  cbn [defined open_conditionals kept]. by rewrite <- app_assoc.
Qed.

Lemma step_undef_any (st : pp_state) :
  step eval st "# undef any"
  = mkState (if keeping (open_conditionals st) then defined st ∖ {["any"]}
             else defined st)
      (open_conditionals st) (kept st).
Proof. reflexivity. Qed.

Lemma preprocess_nl (st : pp_state) :
  preprocess eval st nl = step eval st "".
Proof. by apply (preprocess_last_line eval st ""). Qed.

End LinesRead.

(** Proves a property of every line of an explicit list. *)
Ltac each_line :=
  repeat (apply Forall_cons; split;
          [first [reflexivity | by left | by right | assumption]|]);
  apply Forall_nil_2.

Section AttributeProperties.
Import Samples.

(** X22: what the compiler keeps of the text of
    [writePostImportPrologue] and of [writeEpilogue], read where text is
    being kept: the [#pragma] lines outside the conditionals always; the
    three lines that push the [external_source_symbol] attribute, and the
    one line that pops it in the epilogue, exactly when
    [__has_attribute(external_source_symbol)] holds.  The first text
    leaves the open conditionals as they are, the second closes one: the
    guard. *)
Theorem attribute_push_and_pop_are_paired
    (eval : gset string → string → bool) (M : ModuleDecl)
    (st st' : pp_state) :
  no_nl (getNameStr M) = true →
  keeping (open_conditionals st) = true →
  keeping (open_conditionals st') = true →
  let attribute := " __has_attribute(external_source_symbol)" in
  let warning :=
    eval (defined st)
      (" __has_warning(" +:+ dq +:+ "-Wpragma-clang-attribute" +:+ dq
         +:+ ")") in
  let ignored (w : string) :=
    "#pragma clang diagnostic ignored " +:+ dq +:+ w +:+ dq in
  let after_imports := preprocess eval st (writePostImportPrologue "" M) in
  let after_epilogue := preprocess eval st' (writeEpilogue "") in
  kept after_imports
  = kept st
      ++ [ignored "-Wproperty-attribute-mismatch";
          ignored "-Wduplicate-method-arg"]
      ++ (if warning
          then ["# pragma clang diagnostic ignored " +:+ dq
                  +:+ "-Wpragma-clang-attribute" +:+ dq]
          else [])
      ++ [ignored "-Wunknown-pragmas"; ignored "-Wnullability";
          ignored "-Wdollar-in-identifier-extension"; ""]
      ++ (if eval (defined st) attribute
          then ["# pragma push_macro(" +:+ dq +:+ "any" +:+ dq +:+ ")";
                "# pragma clang attribute push("
                  +:+ "__attribute__((external_source_symbol(language="
                  +:+ dq +:+ "Swift" +:+ dq +:+ ", "
                  +:+ "defined_in=" +:+ dq +:+ getNameStr M +:+ dq
                  +:+ ",generated_declaration))), "
                  +:+ "apply_to=any(function,enum,objc_interface,"
                  +:+ "objc_category,objc_protocol))";
                "# pragma pop_macro(" +:+ dq +:+ "any" +:+ dq +:+ ")"]
          else [])
      ++ [""]
  ∧ open_conditionals after_imports = open_conditionals st
  ∧ kept after_epilogue
    = kept st'
        ++ (if eval (defined st') attribute
            then ["# pragma clang attribute pop"] else [])
        ++ ["#pragma clang diagnostic pop"]
  ∧ open_conditionals after_epilogue = tail (open_conditionals st')
  ∧ defined after_epilogue = defined st'.
Proof.
  intros Hn Hkeep Hkeep' attribute warning ignored after_imports
    after_epilogue.
  set (push := "# pragma clang attribute push("
                  +:+ "__attribute__((external_source_symbol(language="
                  +:+ dq +:+ "Swift" +:+ dq +:+ ", "
                  +:+ "defined_in=" +:+ dq +:+ getNameStr M +:+ dq
                  +:+ ",generated_declaration))), "
                  +:+ "apply_to=any(function,enum,objc_interface,"
                  +:+ "objc_category,objc_protocol))").
  set (push_macro := "# pragma push_macro(" +:+ dq +:+ "any" +:+ dq +:+ ")").
  set (pop_macro := "# pragma pop_macro(" +:+ dq +:+ "any" +:+ dq +:+ ")").
  set (L3 := "# pragma clang diagnostic ignored " +:+ dq
               +:+ "-Wpragma-clang-attribute" +:+ dq).
  assert (no_nl push = true) as Hpush.
  { unfold push. by rewrite !no_nl_app, Hn. }
  assert (parse_line push = PPOther) as Hppush by reflexivity.
  set (head := [ignored "-Wproperty-attribute-mismatch";
                ignored "-Wduplicate-method-arg"]).
  set (W := ("#if __has_warning(" +:+ dq +:+ "-Wpragma-clang-attribute"
               +:+ dq +:+ ")") +:+ nl +:+ (L3 +:+ nl) +:+ "#endif" +:+ nl).
  set (middle := [ignored "-Wunknown-pragmas"; ignored "-Wnullability";
                  ignored "-Wdollar-in-identifier-extension"; ""]).
  set (body := [push_macro; "# undef any"; push; pop_macro]).
  set (A := "#if __has_attribute(external_source_symbol)" +:+ nl
              +:+ concat_text ((λ l, l +:+ nl) <$> body)
              +:+ "#endif" +:+ nl).
  assert (writePostImportPrologue "" M
          = concat_text ((λ l, l +:+ nl) <$> head) +:+ W
              +:+ concat_text ((λ l, l +:+ nl) <$> middle) +:+ A +:+ nl)
    as Htext.
  { unfold writePostImportPrologue, write, head, W, middle, A, body, L3,
      push_macro, pop_macro, push, ignored.
    cbn [fmap list_fmap concat_text].
    by rewrite ?string_app_assoc, ?string_app_nil_r, ?string_app_nil_l. }
  assert (Forall (λ l, no_nl l = true) body) as Hbody.
  { unfold body. each_line. }
  assert (whole_lines W = true) as HwW.
  { unfold W. rewrite <- !string_app_assoc. apply whole_lines_line. }
  assert (whole_lines A = true) as HwA.
  { unfold A. rewrite <- !string_app_assoc. apply whole_lines_line. }
  assert (balanced (lines (concat_text ((λ l, l +:+ nl) <$> body))) = true)
    as Hbal.
  { enough (segment "" 0 0 (concat_text ((λ l, l +:+ nl) <$> body)))
      as [_ ?]%segment_whole by done.
    unfold body. cbn [fmap list_fmap concat_text].
    rewrite ?string_app_assoc, ?string_app_nil_r. walk. }
  assert (after_imports
          = mkState
              (if eval (defined st) attribute then defined st ∖ {["any"]}
               else defined st)
              (open_conditionals st)
              (kept st ++ head ++ (if warning then [L3] else []) ++ middle
                 ++ (if eval (defined st) attribute
                     then [push_macro; push; pop_macro] else [])
                 ++ [""])) as ->.
  { subst after_imports. rewrite Htext.
    rewrite preprocess_app by apply whole_lines_concat.
    rewrite preprocess_lines by each_line.
    rewrite lines_kept by first [done | each_line].
    rewrite preprocess_app by done.
    unfold W at 1.
    rewrite (conditional_one_branch eval _ _
               (" __has_warning(" +:+ dq +:+ "-Wpragma-clang-attribute"
                  +:+ dq +:+ ")") (L3 +:+ nl)) by reflexivity.
    cbn [defined]. fold warning.
    set (st2 := if warning then _ else _).
    assert (st2 = mkState (defined st) (open_conditionals st)
                    (kept st ++ head ++ (if warning then [L3] else [])))
      as ->.
    { unfold st2. destruct warning.
      - rewrite preprocess_last_line by reflexivity.
        rewrite step_text by (by left || done).
        cbn [defined open_conditionals kept]. by rewrite <- app_assoc.
      - by rewrite app_nil_r. }
    rewrite preprocess_app by apply whole_lines_concat.
    rewrite preprocess_lines by each_line.
    rewrite lines_kept by first [done | each_line].
    cbn [defined open_conditionals kept].
    rewrite preprocess_app by done.
    unfold A at 1.
    rewrite (conditional_one_branch eval _ _ attribute)
      by first [reflexivity | apply whole_lines_concat | exact Hbal].
    cbn [defined].
    rewrite preprocess_nl.
    destruct (eval (defined st) attribute).
    - rewrite preprocess_lines by done. unfold body. cbn [foldl].
      rewrite (step_text eval _ push_macro) by (by left || done).
      rewrite step_undef_any. cbn [defined open_conditionals kept].
      rewrite Hkeep.
      rewrite (step_text eval _ push) by (by left || done).
      cbn [defined open_conditionals kept].
      rewrite (step_text eval _ pop_macro) by (by left || done).
      cbn [defined open_conditionals kept].
      rewrite step_text by (by right || done).
      cbn [defined open_conditionals kept].
      by rewrite <- !app_assoc.
    - rewrite step_text by (by right || done).
      cbn [defined open_conditionals kept].
      by rewrite <- !app_assoc. }
  assert (after_epilogue
          = mkState (defined st') (tail (open_conditionals st'))
              (kept st'
                 ++ (if eval (defined st') attribute
                     then ["# pragma clang attribute pop"] else [])
                 ++ ["#pragma clang diagnostic pop"])) as ->.
  { subst after_epilogue.
    assert (writeEpilogue ""
            = ("#if __has_attribute(external_source_symbol)" +:+ nl
                 +:+ ("# pragma clang attribute pop" +:+ nl)
                 +:+ "#endif" +:+ nl)
                +:+ "#pragma clang diagnostic pop" +:+ nl
                +:+ "#endif" +:+ nl) as -> by reflexivity.
    rewrite preprocess_app by reflexivity.
    rewrite (conditional_one_branch eval _ _ attribute) by reflexivity.
    rewrite preprocess_line by reflexivity.
    rewrite preprocess_last_line, step_endif by reflexivity.
    destruct (eval (defined st') attribute).
    - rewrite preprocess_last_line by reflexivity.
      rewrite step_text by (by left || done).
      rewrite step_text by (by left || done).
      cbn [defined open_conditionals kept]. by rewrite <- app_assoc.
    - rewrite step_text by (by left || done).
      cbn [defined open_conditionals kept]. done. }
  cbn [defined open_conditionals kept]. repeat split.
Qed.

Lemma attribute_push_and_pop_are_paired_witness :
  kept (preprocess (λ _ _, false) (mkState ∅ [] [])
          (writePostImportPrologue "" Foo))
  = [ "#pragma clang diagnostic ignored " +:+ dq
        +:+ "-Wproperty-attribute-mismatch" +:+ dq;
      "#pragma clang diagnostic ignored " +:+ dq
        +:+ "-Wduplicate-method-arg" +:+ dq;
      "#pragma clang diagnostic ignored " +:+ dq
        +:+ "-Wunknown-pragmas" +:+ dq;
      "#pragma clang diagnostic ignored " +:+ dq
        +:+ "-Wnullability" +:+ dq;
      "#pragma clang diagnostic ignored " +:+ dq
        +:+ "-Wdollar-in-identifier-extension" +:+ dq;
      ""; "" ]
  ∧ kept (preprocess (λ _ _, false)
            (mkState ∅ [mkFrame true true true] []) (writeEpilogue ""))
    = ["#pragma clang diagnostic pop"].
Proof.
  destruct (attribute_push_and_pop_are_paired (λ _ _, false) Foo
              (mkState ∅ [] []) (mkState ∅ [mkFrame true true true] [])
              eq_refl eq_refl eq_refl) as (H1 & _ & H2 & _).
  split; [exact H1|exact H2].
Defined.

End AttributeProperties.
